(** * Autoregressive training loop of [seq2seq/training_utils.py]

    A shallow embedding of [loss_batch] (one batch through the encoder and the
    step-by-step decoder) and of [fit] (the epoch loop), with the properties
    of the training loop proved or refuted on it.

    Conventions of the embedding.
    - Tensor entries are the real numbers that finite float32 values denote:
      comparisons of finite floats are the comparisons of these reals.  The
      code itself does no arithmetic on entries; what does ([F.normalize],
      the loss functions, [np.sum]) is external and rounds as it rounds.
    - Losses are Python floats: a finite value, an infinity or NaN.
    - A rank-3 tensor [B,T,F] is a list of samples, each a list of timesteps,
      each a list of features, as the code indexes it.  A slice with a leading
      dimension of size one ([unsqueeze(0)]) is written as the slice itself.
      [detach()] does not change values and is not written.
    - The encoder, the decoder, autograd, the optimizers, the schedulers,
      [F.normalize], [np.sum] and Python's random generator are external:
      they are the fields of [Externals].  Forward passes are functions of
      the parameters, the train/eval flag and the arguments, and return, as
      do the loss functions; the backward pass and the steps of the
      optimizers may raise.
    - Effects are explicit: a computation maps a [world] to a result or a
      raised exception, the new world and the events it emitted.
    - The module does not import [sys] and [F] itself: they can only come
      from [from .seq2seq import *].  [F] is taken to be
      [torch.nn.functional]; whether [sys] is in scope is a parameter,
      [sys_in_scope]. *)

From Stdlib Require Import Reals Lra Lia.
From stdpp Require Import base list option.

(** ** Tensors *)

Abbreviation tensor1 := (list R).
Abbreviation tensor2 := (list (list R)).
Abbreviation tensor3 := (list (list (list R))).
Abbreviation batch := (list (list (list R)) * list (list (list R)))%type.

(** [x.shape[1]] of a rank-3 tensor with at least one sample; the lists
    do not record the other dimensions of a tensor with no sample. *)
Definition shape1 (x : tensor3) : nat :=
  match x with [] => 0 | s :: _ => length s end.

(** The lengths of all rows of all samples: two tensors with the same
    [shape_of] have the same shape. *)
Definition shape_of (x : tensor3) : list (list nat) :=
  (λ s : tensor2, length <$> s) <$> x.

(** [x[:, t, :]]: out of range when some sample has no timestep [t]. *)
Definition get_t (t : nat) (x : tensor3) : option tensor2 :=
  mapM (λ s : tensor2, s !! t) x.

(** [x.permute(1, 0, 2)]: time-major view of a batch-major tensor. *)
Definition permute102 (x : tensor3) : tensor3 :=
  (λ t, default [] (get_t t x)) <$> seq 0 (shape1 x).

Definition ones_like (x : tensor2) : tensor2 := (λ row : tensor1, (λ _, 1%R) <$> row) <$> x.
Definition zeros_like (x : tensor2) : tensor2 := (λ row : tensor1, (λ _, 0%R) <$> row) <$> x.
Definition zeros_like3 (x : tensor3) : tensor3 := zeros_like <$> x.

Definition Reqb (a b : R) : bool := if Req_dec_T a b then true else false.
Definition Rltb (a b : R) : bool := if Rlt_dec a b then true else false.

(** Equality of all entries of two tensors of one shape. *)
Fixpoint all_eq1 (a b : tensor1) : bool :=
  match a, b with
  | [], [] => true
  | x :: a', y :: b' => Reqb x y && all_eq1 a' b'
  | _, _ => false
  end.

Fixpoint all_eq2 (a b : tensor2) : bool :=
  match a, b with
  | [], [] => true
  | x :: a', y :: b' => all_eq1 x y && all_eq2 a' b'
  | _, _ => false
  end.

(** Broadcasting of one dimension: [l] expanded to the size [n] is [l]
    itself when it has that size, and its element repeated when it has size
    one.  (Repeating it zero times, which torch accepts for a target of
    size zero, is left out.) *)
Definition expand {A} (n : nat) (l : list A) : option (list A) :=
  if length l =? n then Some l
  else match l, n with
       | [x], S _ => Some (replicate n x)
       | _, _ => None
       end.

(** The value [v] broadcast to the shape of [slot], in both dimensions. *)
Definition broadcast_to (slot v : tensor2) : option tensor2 :=
  rows ← expand (length slot) v;
  mapM (λ p : tensor1 * tensor1, expand (length p.1) p.2) (zip slot rows).

(** [torch.all(torch.eq(a, b))], line 103, where [a] has been assigned to a
    slot of the shape of [b] by then: [a] is broadcast to the shape of [b]
    and compared entry by entry. *)
Definition all_eq (a b : tensor2) : bool :=
  match broadcast_to b a with
  | Some a' => all_eq2 a' b
  | None => false
  end.

(** [view(-1,4)] of a flat tensor whose length is a multiple of four. *)
Fixpoint view4 (flat : list R) : list (list R) :=
  match flat with
  | a :: b :: c :: d :: rest => [a; b; c; d] :: view4 rest
  | _ => []
  end.

(** ** Exceptions and results *)

Inductive exn :=
| IndexError | ZeroDivisionError | RuntimeError | NameError | SystemExit.

Inductive result (A : Type) :=
| Ok (a : A)
| Raise (e : exn).
Arguments Ok {A} a.
Arguments Raise {A} e.

(** A Python float: a finite value, an infinity or NaN. *)
Inductive xfloat := Fin (r : R) | PosInf | NegInf | NaN.

(** [a < b] on floats: false as soon as one side is NaN. *)
Definition xltb (a b : xfloat) : bool :=
  match a, b with
  | Fin x, Fin y => Rltb x y
  | Fin _, PosInf | NegInf, Fin _ | NegInf, PosInf => true
  | _, _ => false
  end.

(** A loss function, applied by the code both to rank-3 tensors (the batch)
    and to rank-2 tensors (one sample); [.item()] of its value is a Python
    float. *)
Record criterion := Criterion {
  crit3 : tensor3 → tensor3 → xfloat;
  crit2 : tensor2 → tensor2 → xfloat
}.

Inductive loss_value :=
| Scalar (l : xfloat)
| PerSample (ls : list xfloat).

(** ** External collaborators *)

Class Externals := {
  Params : Type;
  Hidden : Type;
  EncOut : Type;
  OptState : Type;
  Grads : Type;
  SchedState : Type;
  (** [encoder(input)] *)
  encoder_forward : Params → bool → tensor3 → EncOut * Hidden;
  (** [decoder(decoder_input, decoder_hidden[, encoder_outputs])] *)
  decoder_forward :
    Params → bool → tensor2 → Hidden → option EncOut → tensor2 * Hidden;
  (** [F.normalize(x, p=2, dim=1)] on an [n,4] tensor: every row divided
      by the larger of its norm and [eps = 1e-12], in float32; the result
      has the shape of [x], and the zero tensor is left as it is *)
  f_normalize : list (list R) → list (list R);
  f_normalize_shape : ∀ x, length <$> f_normalize x = length <$> x;
  f_normalize_zero :
    ∀ x, Forall (Forall (λ v, v = 0%R)) x → f_normalize x = x;
  (** [loss.backward()]: the gradients of the encoder and of the decoder,
      unless autograd raises; the gradient buffers are clear when it is
      called, as [zero_grad()] leaves them after an update *)
  backward :
    Params → Params → batch → criterion → bool → bool → bool →
    result (Grads * Grads);
  (** [opt.step(); opt.zero_grad()]: how the call ends, and the state of the
      optimizer and the parameters it leaves, also when it raises *)
  optimizer_step : OptState → Params → Grads → result unit * OptState * Params;
  (** [scheduler.step()], acting on the optimizers it is bound to *)
  scheduler_step :
    SchedState → OptState → OptState → SchedState * OptState * OptState;
  (** successive values of [random.random()] *)
  random_draws : nat → R;
  random_range : ∀ n, (0 <= random_draws n < 1)%R;
  (** [np.sum(l) / len(l)] for a non-empty list of Python floats *)
  float_mean : list xfloat → xfloat;
  (** whether [from .seq2seq import *] brings [sys] into scope *)
  sys_in_scope : bool
}.

Section Training.
Context {ext : Externals}.

Record checkpoint := Checkpoint {
  encoder_state_dict : Params;
  decoder_state_dict : Params;
  optimizerA_state_dict : OptState;
  optimizerB_state_dict : OptState
}.

Record world := World {
  enc_params : Params;
  dec_params : Params;
  enc_training : bool;
  dec_training : bool;
  enc_opt : OptState;
  dec_opt : OptState;
  schedulers : list SchedState;
  rng_pos : nat;
  model_file : option checkpoint
}.

Inductive event :=
| EvEncoder (input : tensor3)
| EvDraw (r ratio : R)
| EvWarning
| EvDecoder (t : nat) (decoder_input decoder_output : tensor2)
| EvWrite (t : nat) (output : tensor2)
| EvBackward
| EvOptStep
| EvInfoBatch (index : nat) (loss : loss_value)
| EvInfoSummary (epoch : nat) (loss : xfloat) (val_loss : list xfloat)
| EvSave (epoch : nat) (saved : checkpoint).

(** ** The monad of the embedding: state, exceptions and emitted events *)

Definition M (A : Type) : Type := world → result A * world * list event.

Definition ret {A} (a : A) : M A := λ w, (Ok a, w, []).

Definition bind {A B} (m : M A) (k : A → M B) : M B := λ w,
  match m w with
  | (Ok a, w1, e1) => let '(r, w2, e2) := k a w1 in (r, w2, e1 ++ e2)
  | (Raise x, w1, e1) => (Raise x, w1, e1)
  end.

Definition raise {A} (x : exn) : M A := λ w, (Raise x, w, []).
Definition emit (e : event) : M unit := λ w, (Ok tt, w, [e]).
Definition lift {A} (r : result A) : M A := λ w, (r, w, []).

(** An index that may be out of range. *)
Definition index {A} (o : option A) : M A :=
  match o with Some a => ret a | None => raise IndexError end.

End Training.

Notation "'let*' x ':=' m 'in' k" := (bind m (λ x, k))
  (at level 10, x pattern, m at level 100, k at level 200, only parsing).

(** ** [loss_batch], lines 47-126 *)

Section StepLoop.
Context {ext : Externals}.

Definition with_modes (training : bool) (w : world) : world :=
  World (enc_params w) (dec_params w) training training
        (enc_opt w) (dec_opt w) (schedulers w) (rng_pos w) (model_file w).

Definition with_rng (n : nat) (w : world) : world :=
  World (enc_params w) (dec_params w) (enc_training w) (dec_training w)
        (enc_opt w) (dec_opt w) (schedulers w) n (model_file w).

Definition with_update (pA pB : Params) (oA oB : OptState) (w : world) : world :=
  World pA pB (enc_training w) (dec_training w)
        oA oB (schedulers w) (rng_pos w) (model_file w).

(** Lines 54-58: [encoder.train(), decoder.train()] when optimizers are
    given, [encoder.eval(), decoder.eval()] otherwise. *)
Definition set_modes (opts : bool) : M unit := λ w,
  (Ok tt, with_modes opts w, []).

Definition call_encoder (input : tensor3) : M (EncOut * Hidden) := λ w,
  (Ok (encoder_forward (enc_params w) (enc_training w) input), w,
   [EvEncoder input]).

Definition call_decoder (t : nat) (decoder_input : tensor2) (hidden : Hidden)
    (encoder_outputs : option EncOut) : M (tensor2 * Hidden) := λ w,
  let r := decoder_forward (dec_params w) (dec_training w)
             decoder_input hidden encoder_outputs in
  (Ok r, w, [EvDecoder t decoder_input r.1]).

(** Line 71: [random.random() < teacher_forcing_ratio]. *)
Definition random_lt (ratio : R) : M bool := λ w,
  let r := random_draws (rng_pos w) in
  (Ok (Rltb r ratio), with_rng (S (rng_pos w)) w, [EvDraw r ratio]).

(** Lines 92-96.  [output.contiguous().view(-1,4)] regroups the entries, in
    storage order, four by four, and is refused when their number is not a
    multiple of four; [F.normalize(_, p=2, dim=1)] normalises the groups;
    [view(original_shape)] restores the rows. *)
Definition quat_normalize (output : tensor2) : result tensor2 :=
  let flat := concat output in
  if negb (length flat mod 4 =? 0) then Raise RuntimeError
  else Ok (reshape (length <$> output) (concat (f_normalize (view4 flat)))).

(** Line 98, [outputs[:, t, :] = output]: the value is broadcast to the
    shape of the slot, a dimension of size one being repeated, and refused
    when it cannot be. *)
Definition set_t (t : nat) (v : tensor2) (x : tensor3) : result tensor3 :=
  match get_t t x with
  | None => Raise IndexError
  | Some slot =>
      match broadcast_to slot v with
      | Some v' =>
          Ok (zip_with (λ (s : tensor2) (row : tensor1), <[t := row]> s) x v')
      | None => Raise RuntimeError
      end
  end.

(** The variables of the unrolling loop that change from step to step. *)
Record unroll := Unroll {
  decoder_input : tensor2;
  decoder_hidden : Hidden;
  outputs : tensor3
}.

Section Unrolling.
Variables (target_batch : tensor3) (encoder_outputs : EncOut) (EOS : tensor2).
Variables (use_teacher_forcing use_attention norm_quaternions : bool).

(** Lines 79-105: [for t in range(seq_length)], with its [break]. *)
Fixpoint decode_loop (ts : list nat) (st : unroll) : M unroll :=
  match ts with
  | [] => ret st
  | t :: ts' =>
      let* (decoder_output, hidden') :=
        call_decoder t (decoder_input st) (decoder_hidden st)
          (if use_attention then Some encoder_outputs else None) in
      let* target := index (get_t t target_batch) in
      let* output :=
        (if norm_quaternions then lift (quat_normalize decoder_output)
         else ret decoder_output) in
      let* outputs' := lift (set_t t output (outputs st)) in
      let* _ := emit (EvWrite t output) in
      if use_teacher_forcing
      then decode_loop ts' (Unroll target hidden' outputs')
      else if all_eq decoder_output EOS
           then ret (Unroll (decoder_input st) hidden' outputs')
           else decode_loop ts' (Unroll output hidden' outputs')
  end.

End Unrolling.

(** Line 110: [loss.backward()]. *)
Definition call_backward (data : batch) (crit : criterion)
    (use_teacher_forcing use_attention norm_quaternions : bool)
    : M (Grads * Grads) := λ w,
  (backward (enc_params w) (dec_params w) data crit
     use_teacher_forcing use_attention norm_quaternions,
   w, [EvBackward]).

(** Lines 112-113: [encoder_opt.step(); encoder_opt.zero_grad()]. *)
Definition step_encoder (g : Grads) : M unit := λ w,
  let '(r, oA, pA) := optimizer_step (enc_opt w) (enc_params w) g in
  (r, with_update pA (dec_params w) oA (dec_opt w) w, [EvOptStep]).

(** Lines 115-116: [decoder_opt.step(); decoder_opt.zero_grad()]. *)
Definition step_decoder (g : Grads) : M unit := λ w,
  let '(r, oB, pB) := optimizer_step (dec_opt w) (dec_params w) g in
  (r, with_update (enc_params w) pB (enc_opt w) oB w, [EvOptStep]).

(** Lines 109-116: the backward pass, then both optimizers step and clear
    their gradients, the encoder's first; an exception of one of them ends
    the call there, with what was updated before left updated. *)
Definition optimize (data : batch) (crit : criterion)
    (use_teacher_forcing use_attention norm_quaternions : bool) : M unit :=
  let* (g_enc, g_dec) :=
    call_backward data crit
      use_teacher_forcing use_attention norm_quaternions in
  let* _ := step_encoder g_enc in
  step_decoder g_dec.

(** Line 76, [sys.exit()]: [SystemExit], or [NameError] when the name [sys]
    is not in scope. *)
Definition sys_exit {A} : M A :=
  if sys_in_scope then raise SystemExit else raise NameError.

(** Lines 121-126: [criterion(outputs[b,:], target_batch[b,:])] for every
    [b] in [range(outputs.shape[0])]. *)
Fixpoint sample_losses (crit : criterion) (outs target_batch : tensor3)
    (bs : list nat) : result (list xfloat) :=
  match bs with
  | [] => Ok []
  | b :: bs' =>
      match outs !! b, target_batch !! b with
      | Some o, Some t =>
          match sample_losses crit outs target_batch bs' with
          | Ok ls => Ok (crit2 crit o t :: ls)
          | Raise e => Raise e
          end
      | _, _ => Raise IndexError
      end
  end.

(** [opts] tells whether optimizers were passed ([opts is not None]); the
    optimizers themselves live in the world.  [device] and [scaler] do not
    influence the values and are left out. *)
Definition loss_batch (data : batch) (opts : bool) (crit : criterion)
    (teacher_forcing_ratio : R)
    (use_attention norm_quaternions average_batch : bool) : M loss_value :=
  let '(input_batch, target_batch) := data in
  let* _ := set_modes opts in
  let seq_length := shape1 input_batch in
  let input := permute102 input_batch in
  let* (encoder_outputs, encoder_hidden) := call_encoder input in
  let* first := index (get_t 0 target_batch) in
  let EOS := zeros_like first in
  let* use_teacher_forcing := random_lt teacher_forcing_ratio in
  let* _ :=
    (if negb average_batch && opts
     then let* _ := emit EvWarning in sys_exit
     else ret tt) in
  let* st :=
    decode_loop target_batch encoder_outputs EOS
      use_teacher_forcing use_attention norm_quaternions
      (seq 0 seq_length)
      (Unroll (ones_like first) encoder_hidden (zeros_like3 target_batch)) in
  let loss := crit3 crit (outputs st) target_batch in
  let* _ :=
    (if opts
     then optimize data crit use_teacher_forcing use_attention norm_quaternions
     else ret tt) in
  if average_batch then ret (Scalar loss)
  else
    let* losses :=
      lift (sample_losses crit (outputs st) target_batch
              (seq 0 (length (outputs st)))) in
    ret (PerSample losses).

End StepLoop.

(** ** [fit], lines 129-190 *)

Section Fit.
Context {ext : Externals}.

(** The loss as [fit] collects it; [fit] leaves [average_batch] at its
    default, so it only ever receives scalars. *)
Definition item (l : loss_value) : xfloat :=
  match l with Scalar x => x | PerSample ls => float_mean ls end.

(** [np.sum(l) / len(l)]: numpy divides the float sum by zero without
    raising and yields NaN for the empty list. *)
Definition np_mean (l : list xfloat) : xfloat :=
  match l with
  | [] => NaN
  | _ => float_mean l
  end.

Fixpoint step_all (ss : list SchedState) (oA oB : OptState)
    : list SchedState * OptState * OptState :=
  match ss with
  | [] => ([], oA, oB)
  | s :: ss' =>
      let '(s', oA', oB') := scheduler_step s oA oB in
      let '(rest, oA'', oB'') := step_all ss' oA' oB' in
      (s' :: rest, oA'', oB'')
  end.

(** Lines 176-177: [for scheduler in schedulers: scheduler.step()]. *)
Definition step_schedulers : M unit := λ w,
  let '(ss, oA, oB) := step_all (schedulers w) (enc_opt w) (dec_opt w) in
  (Ok tt,
   World (enc_params w) (dec_params w) (enc_training w) (dec_training w)
         oA oB ss (rng_pos w) (model_file w),
   []).

(** Lines 185-190: [torch.save] of the four state dictionaries, replacing
    the file at [model_file_path]. *)
Definition save_model (epoch : nat) : M unit := λ w,
  let saved :=
    Checkpoint (enc_params w) (dec_params w) (enc_opt w) (dec_opt w) in
  (Ok tt,
   World (enc_params w) (dec_params w) (enc_training w) (dec_training w)
         (enc_opt w) (dec_opt w) (schedulers w) (rng_pos w) (Some saved),
   [EvSave epoch saved]).

(** The local variables of [fit] that live across epochs. *)
Record fit_state := FitState {
  teacher_forcing_ratio : R;
  min_val_loss : xfloat
}.

Section Epoch.
Variables (train_dataloader val_dataloader : list batch).
Variables (training_criterion : criterion).
Variables (validation_criteria : list criterion).
Variables (use_attention norm_quaternions : bool) (schedule_rate : R).

(** Lines 148-161.  [loss_batch] is called without [teacher_forcing_ratio]
    and without [average_batch], which therefore take their defaults [0.0]
    and [True].  The modulus of the logging test is
    [len(train_dataloader) // 10]; the elapsed time is not modelled. *)
Fixpoint train_loop (index : nat) (bs : list batch) (losses : list xfloat)
    : M (list xfloat) :=
  match bs with
  | [] => ret losses
  | data :: bs' =>
      let* loss :=
        loss_batch data true training_criterion 0
          use_attention norm_quaternions true in
      let losses := losses ++ [item loss] in
      let period := length train_dataloader / 10 in
      if period =? 0 then raise ZeroDivisionError
      else
        let* _ :=
          (if index mod period =? 0 then emit (EvInfoBatch index loss)
           else ret tt) in
        train_loop (S index) bs' losses
  end.

(** Lines 165-169: one pass over the validation loader without optimizers. *)
Fixpoint val_pass (validation_criterion : criterion) (bs : list batch)
    : M (list xfloat) :=
  match bs with
  | [] => ret []
  | data :: bs' =>
      let* loss :=
        loss_batch data false validation_criterion 0
          use_attention norm_quaternions true in
      let* rest := val_pass validation_criterion bs' in
      ret (item loss :: rest)
  end.

(** Lines 162-171. *)
Fixpoint validation (criteria : list criterion) : M (list xfloat) :=
  match criteria with
  | [] => ret []
  | validation_criterion :: criteria' =>
      let* val_losses := val_pass validation_criterion val_dataloader in
      let* rest := validation criteria' in
      ret (np_mean val_losses :: rest)
  end.

(** One iteration of [for epoch in range(epochs)], lines 143-190. *)
Definition run_epoch (epoch : nat) (st : fit_state) : M fit_state :=
  let* losses := train_loop 0 train_dataloader [] in
  let* val_loss := validation validation_criteria in
  let loss := np_mean losses in
  let* _ := step_schedulers in
  let* _ := emit (EvInfoSummary epoch loss val_loss) in
  let ratio := (teacher_forcing_ratio st * schedule_rate)%R in
  let* val_loss0 := index (val_loss !! 0) in
  if xltb val_loss0 (min_val_loss st)
  then let* _ := save_model epoch in ret (FitState ratio val_loss0)
  else ret (FitState ratio (min_val_loss st)).

Fixpoint epoch_loop (epochs : list nat) (st : fit_state) : M fit_state :=
  match epochs with
  | [] => ret st
  | epoch :: epochs' =>
      let* st' := run_epoch epoch st in epoch_loop epochs' st'
  end.

End Epoch.

(** Line 138, [len(train_dataloader.dataset[0])].  The dataset holds the
    samples of the batches that the loader yields and the [dropped] samples
    that it leaves out ([drop_last]); indexing it raises [IndexError] when
    it holds no sample, that is when the loader yields no batch and leaves
    none out. *)
Definition first_sample (train_dataloader : list batch) (dropped : nat)
    : M unit :=
  match train_dataloader, dropped with
  | [], 0 => raise IndexError
  | _, _ => ret tt
  end.

(** [models], [optims] and [schedulers] are in the world and the file at
    [model_file_path] is its [model_file]; [optims] is a pair of optimizers,
    not [None]; [min_val_loss] starts from [math.inf]. *)
Definition fit (epochs : nat) (dataloaders : list batch * list batch)
    (dropped : nat)
    (training_criterion : criterion) (validation_criteria : list criterion)
    (teacher_forcing_ratio : R) (use_attention norm_quaternions : bool)
    (schedule_rate : R) : M unit :=
  let '(train_dataloader, val_dataloader) := dataloaders in
  let* _ := first_sample train_dataloader dropped in
  let* _ :=
    epoch_loop train_dataloader val_dataloader training_criterion
      validation_criteria use_attention norm_quaternions schedule_rate
      (seq 0 epochs) (FitState teacher_forcing_ratio PosInf) in
  ret tt.

End Fit.

(** ** Loss functions and collaborators used to exercise the model *)

(** The collaborators and loss functions below compute in exact
    arithmetic: they stand for their float counterparts on the inputs on
    which these round nothing, as the inputs of the examples are chosen. *)

Definition Rsum (l : list R) : R := foldr Rplus 0%R l.

(** An elementwise loss with mean reduction ([nn.MSELoss()], [nn.L1Loss()]):
    the mean of [g output target] over all entries, NaN when there is
    none. *)
Definition mean_loss (g : R → R → R) (xs ys : list R) : xfloat :=
  match xs with
  | [] => NaN
  | _ => Fin (Rsum (zip_with g xs ys) / INR (length xs))
  end.

Definition mean_criterion (g : R → R → R) : criterion :=
  Criterion (λ o t, mean_loss g (concat (concat o)) (concat (concat t)))
            (λ o t, mean_loss g (concat o) (concat t)).

(** The same elementwise loss with sum reduction
    ([nn.MSELoss(reduction='sum')]). *)
Definition sum_criterion (g : R → R → R) : criterion :=
  Criterion
    (λ o t, Fin (Rsum (zip_with g (concat (concat o)) (concat (concat t)))))
    (λ o t, Fin (Rsum (zip_with g (concat o) (concat t)))).

Definition sq_err (a b : R) : R := ((a - b) * (a - b))%R.


(** A rank-3 tensor of shape [B,T,F]. *)
Definition rect3 (B T F : nat) (x : tensor3) : Prop :=
  length x = B ∧
  Forall (λ s : tensor2, length s = T ∧ Forall (λ r : tensor1, length r = F) s) x.

(** The entry [x[b, t, f]]. *)
Definition entry (x : tensor3) (b t f : nat) : option R :=
  s ← x !! b; r ← s !! t; r !! f.

(** Every entry of a slice is zero. *)
Definition all_zero (x : tensor2) : Prop := Forall (Forall (λ v, v = 0%R)) x.

(** Every entry of [x] at a timestep from [k] on is zero. *)
Definition zero_from (k : nat) (x : tensor3) : Prop :=
  ∀ b s, x !! b = Some s →
  ∀ t row, k ≤ t → s !! t = Some row → Forall (λ v, v = 0%R) row.

Definition add_one (x : tensor2) : tensor2 := (λ row : tensor1, (λ v, (v + 1)%R) <$> row) <$> x.

(** [F.normalize] in exact arithmetic. *)
Definition eps : R := (/ 1000000000000)%R.

Definition sum_sq (g : list R) : R := foldr (λ x acc, (x * x + acc)%R) 0%R g.
Definition l2norm (g : list R) : R := sqrt (sum_sq g).

Definition normalize_group (g : list R) : list R :=
  (λ x, (x / Rmax (l2norm g) eps)%R) <$> g.

Definition exact_normalize (x : list (list R)) : list (list R) :=
  normalize_group <$> x.

Definition exact_normalize_shape (x : list (list R)) :
  length <$> exact_normalize x = length <$> x.
Proof.
  unfold exact_normalize. rewrite <- list_fmap_compose.
  apply list_fmap_ext. intros i g _. apply length_fmap.
Qed.

Definition exact_normalize_zero (x : list (list R)) :
  Forall (Forall (λ v, v = 0%R)) x → exact_normalize x = x.
Proof.
  unfold exact_normalize. induction 1 as [|g x Hg _ IH]; [done|].
  cbn. f_equal; [|exact IH]. unfold normalize_group.
  generalize (Rmax (l2norm g) eps). intros d.
  induction Hg as [|v g -> _ IHg]; [done|]. cbn. f_equal; [|exact IHg].
  unfold Rdiv. apply Rmult_0_l.
Qed.

(** Sum and mean of Python floats in exact arithmetic. *)
Definition xadd (a b : xfloat) : xfloat :=
  match a, b with
  | NaN, _ | _, NaN => NaN
  | Fin x, Fin y => Fin (x + y)
  | PosInf, NegInf | NegInf, PosInf => NaN
  | PosInf, _ | _, PosInf => PosInf
  | NegInf, _ | _, NegInf => NegInf
  end.

Definition exact_mean (l : list xfloat) : xfloat :=
  match foldr xadd (Fin 0) l with
  | Fin s => Fin (s / INR (length l))
  | v => v
  end.

(** Collaborators whose states count calls: the hidden state is the number
    of decoder steps made, parameters and optimizer states the number of
    updates; the decoder sees the number of updates of its parameters and
    of steps made; the scheduler counts its steps and adds one to the state
    of both optimizers; nothing raises, [random.random()] always returns
    [draw], and [sys] tells whether the name [sys] is in scope. *)
Definition counting_ext (sys : bool) (dec : nat → nat → tensor2 → tensor2)
    (draw : R) (Hdraw : (0 <= draw < 1)%R) : Externals :=
  {| Params := nat; Hidden := nat; EncOut := unit; OptState := nat;
     Grads := unit; SchedState := nat;
     encoder_forward := λ _ _ _, (tt, 0);
     decoder_forward := λ p _ inp h _, (dec p h inp, S h);
     f_normalize := exact_normalize;
     f_normalize_shape := exact_normalize_shape;
     f_normalize_zero := exact_normalize_zero;
     backward := λ _ _ _ _ _ _ _, Ok (tt, tt);
     optimizer_step := λ o p _, (Ok tt, S o, S p);
     scheduler_step := λ s a b, (S s, S a, S b);
     random_draws := λ _, draw;
     random_range := λ _, Hdraw;
     float_mean := exact_mean;
     sys_in_scope := sys |}.

Definition half_in_range : (0 <= / 2 < 1)%R :=
  ltac:(split; lra).

(** A decoder that adds one to every entry of its input. *)
Definition ext_plus : Externals :=
  counting_ext true (λ _ _ inp, add_one inp) (/ 2) half_in_range.

(** The same collaborators, in a module in which [sys] is not in scope. *)
Definition ext_plus_no_sys : Externals :=
  counting_ext false (λ _ _ inp, add_one inp) (/ 2) half_in_range.

(** A decoder that does the same, except that its second step returns the
    all-zero vector. *)
Definition ext_eos1 : Externals :=
  counting_ext true
    (λ _ h inp, if h =? 1 then zeros_like inp else add_one inp)
    (/ 2) half_in_range.

(** A decoder that returns zero as long as its parameters have been updated
    at most ten times, and adds one to its input afterwards. *)
Definition ext_warmup : Externals :=
  counting_ext true
    (λ p _ inp, if p <=? 10 then zeros_like inp else add_one inp)
    (/ 2) half_in_range.

(** A loss that is NaN on the all-zero output, as a loss that divides by
    the norm of the output is, and 1 on every other output. *)
Definition direction_criterion : criterion :=
  Criterion
    (λ o _, if forallb (forallb (forallb (λ x, Reqb x 0))) o
            then NaN else Fin 1)
    (λ o _, if forallb (forallb (λ x, Reqb x 0)) o then NaN else Fin 1).

Definition world0 {ext : Externals} (p : Params) (o : OptState) : world :=
  World p p false false o o [] 0 None.

(** Fresh worlds for these collaborators: nothing updated, nothing drawn,
    no file saved. *)
Definition w_plus : world (ext := ext_plus) :=
  world0 (ext := ext_plus) 0%nat 0%nat.
Definition w_eos1 : world (ext := ext_eos1) :=
  world0 (ext := ext_eos1) 0%nat 0%nat.

(** A fresh world with one scheduler. *)
Definition w_warmup : world (ext := ext_warmup) :=
  World (ext := ext_warmup) 0%nat 0%nat false false 0%nat 0%nat [0%nat] 0 None.

(** ** Postconditions that compose along a computation *)

Section PostconditionDefs.
Context {ext : Externals}.

(** A relation between the world before, the world after and the events
    emitted, that holds of doing nothing and is kept by sequencing. *)
Class Compositional (Q : world → world → list event → Prop) := {
  comp_nil : ∀ w, Q w w [];
  comp_app : ∀ w w1 w2 e1 e2, Q w w1 e1 → Q w1 w2 e2 → Q w w2 (e1 ++ e2)
}.

(** [m] establishes [Q], whether it returns or raises. *)
Definition sat (Q : world → world → list event → Prop) {A} (m : M A) : Prop :=
  ∀ w r w' ev, m w = (r, w', ev) → Q w w' ev.

(** What [Q] must hold of the elementary steps of [loss_batch]. *)
Record step_sat (Q : world → world → list event → Prop)
    (opts : bool) (ratio : R) : Prop := {
  ss_modes : sat Q (set_modes opts);
  ss_encoder : ∀ input, sat Q (call_encoder input);
  ss_draw : sat Q (random_lt ratio);
  ss_warning : sat Q (emit EvWarning);
  ss_decoder : ∀ t i h e, sat Q (call_decoder t i h e);
  ss_write : ∀ t o, sat Q (emit (EvWrite t o));
  ss_optimize :
    opts = true → ∀ data crit tf ua nq, sat Q (optimize data crit tf ua nq)
}.

(** The parameters of both models and the states of both optimizers are
    the same in [w'] as in [w]. *)
Definition same_model (w w' : world) : Prop :=
  enc_params w' = enc_params w ∧ dec_params w' = dec_params w ∧
  enc_opt w' = enc_opt w ∧ dec_opt w' = dec_opt w.

(** The events that a call of [loss_batch] with the given ratio can emit. *)
Definition loss_event (ratio : R) (e : event) : Prop :=
  match e with
  | EvDraw r q => q = ratio ∧ ∃ n, r = random_draws n
  | EvInfoBatch _ _ | EvInfoSummary _ _ _ | EvSave _ _ => False
  | _ => True
  end.

(** The events that [fit] can emit. *)
Definition fit_event (e : event) : Prop :=
  match e with
  | EvInfoBatch _ _ | EvInfoSummary _ _ _ | EvSave _ _ => True
  | _ => loss_event 0 e
  end.

(** What [Q] must hold of the steps of the passes over the loaders, and of
    the steps that end an epoch. *)
Record pass_sat (Q : world → world → list event → Prop) : Prop := {
  fs_train : step_sat Q true 0;
  fs_val : step_sat Q false 0;
  fs_info : ∀ i l, sat Q (emit (EvInfoBatch i l))
}.

Record fit_sat (Q : world → world → list event → Prop) : Prop := {
  fs_pass : pass_sat Q;
  fs_sched : sat Q step_schedulers;
  fs_summary : ∀ e l vl, sat Q (emit (EvInfoSummary e l vl));
  fs_save : ∀ e, sat Q (save_model e)
}.

(** Two outcomes of the epoch loop that agree on everything but the
    teacher-forcing ratio held in the loop state. *)
Definition same_selection (a b : result fit_state * world * list event) : Prop :=
  a.1.2 = b.1.2 ∧ a.2 = b.2 ∧
  match a.1.1, b.1.1 with
  | Ok s, Ok s' => min_val_loss s = min_val_loss s'
  | Raise x, Raise y => x = y
  | _, _ => False
  end.


(** Events of the model selection at the end of an epoch. *)
Definition selection_event (e : event) : Prop :=
  match e with
  | EvInfoSummary _ _ _ | EvSave _ _ => True
  | _ => False
  end.

(** The file left at [model_file_path] after some events, from what it
    held before: every save replaces it. *)
Definition last_save (init : option checkpoint) (ev : list event)
    : option checkpoint :=
  foldl (λ acc e, match e with EvSave _ cp => Some cp | _ => acc end) init ev.


(** A write of the checkpoint file. *)
Definition save_event (e : event) : Prop :=
  match e with
  | EvSave _ _ => True
  | _ => False
  end.

(** The state dictionaries that [torch.save] writes in world [w]. *)
Definition checkpoint_of (w : world) : checkpoint :=
  Checkpoint (enc_params w) (dec_params w) (enc_opt w) (dec_opt w).

(** The mean of the losses of a pass over a loader: the mean of the floats
    when there is at least one, and NaN, the quotient of zero by zero, when
    the loader yields no batch. *)
Definition mean_of_pass (losses : list xfloat) : xfloat :=
  if length losses =? 0 then NaN else float_mean losses.

Section Validated.
Variables (tr val : list batch) (dropped : nat).
Variables (tc : criterion) (vcs : list criterion).
Variables (ratio : R) (ua nq : bool) (rate : R).

(** What an epoch started in world [w] submits to the model selection:
    the mean of validation criterion 0 over the validation loader, computed
    once the training pass of the epoch has returned, and the state
    dictionaries of the models and optimizers as they are after the passes
    of the other validation criteria and the steps of the schedulers.
    Nothing, when one of these raises or there is no validation
    criterion. *)
Definition epoch_candidate (w : world) : option (xfloat * checkpoint) :=
  match train_loop tr tc ua nq 0 tr [] w with
  | (Ok _, w1, _) =>
      match vcs with
      | [] => None
      | vc0 :: others =>
          match val_pass ua nq vc0 val w1 with
          | (Ok losses0, w2, _) =>
              match validation val ua nq others w2 with
              | (Ok _, w3, _) =>
                  Some (mean_of_pass losses0,
                        checkpoint_of (step_schedulers w3).1.2)
              | (Raise _, _, _) => None
              end
          | (Raise _, _, _) => None
          end
      end
  | (Raise _, _, _) => None
  end.

(** The world in which epoch [e] of the run of [fit] started in [w]
    begins, when line 138 and the epochs before [e] return. *)
Definition epoch_start (e : nat) (w : world) : option world :=
  match first_sample tr dropped w with
  | (Ok _, w0, _) =>
      match
        epoch_loop tr val tc vcs ua nq rate (seq 0 e)
          (FitState ratio PosInf) w0
      with
      | (Ok _, w_e, _) => Some w_e
      | (Raise _, _, _) => None
      end
  | (Raise _, _, _) => None
  end.

(** What epoch [e] of that run submits to the model selection. *)
Definition validated (e : nat) (w : world) : option (xfloat * checkpoint) :=
  w_e ← epoch_start e w; epoch_candidate w_e.

End Validated.

End PostconditionDefs.


(** ** Observations on the events of a call *)

Section Observations.
Context {ext : Externals}.

(** The timesteps at which the decoder was called, in order. *)
Definition decoder_steps (ev : list event) : list nat :=
  omap (λ e, match e with EvDecoder t _ _ => Some t | _ => None end) ev.

(** The inputs on which the encoder was called, in order. *)
Definition encoder_calls (ev : list event) : list tensor3 :=
  omap (λ e, match e with EvEncoder x => Some x | _ => None end) ev.

(** The batch indexes for which a progress line was logged, in order. *)
Definition logged_batches (ev : list event) : list nat :=
  omap (λ e, match e with EvInfoBatch i _ => Some i | _ => None end) ev.

(** Events of the update of the parameters. *)
Definition update_event (e : event) : Prop :=
  match e with
  | EvBackward | EvOptStep => True
  | _ => False
  end.

(** Nothing of what a training run keeps has changed between [w] and [w']:
    parameters, optimizer states, scheduler states and the saved file. *)
Definition same_training_state (w w' : world) : Prop :=
  same_model w w' ∧ schedulers w' = schedulers w ∧
  model_file w' = model_file w.

(** The decoder returns a step output with the rows of its input: as many
    samples, and as many features for each. *)
Definition shape_preserving_decoder : Prop :=
  ∀ p m (i : tensor2) h e,
    length <$> (decoder_forward p m i h e).1 = length <$> i.

End Observations.

(** A batch on which the loop can run to its end: input and target are
    rectangular tensors of the same positive number of samples, with at
    least one feature; the input has at least one timestep and the target
    at least as many as the input; and, when the outputs are to be
    normalised, the number of entries of a step output is a multiple of
    four. *)
Definition runnable (norm_quaternions : bool) (data : batch) : Prop :=
  ∃ B T_in F_in T F,
    rect3 B T_in F_in data.1 ∧ rect3 B T F data.2 ∧
    0 < B ∧ 0 < T_in ∧ T_in ≤ T ∧ 0 < F_in ∧ 0 < F ∧
    (norm_quaternions = true → (B * F) mod 4 = 0).

(** The update of a training call started in world [w] returns: the
    backward pass does, and so do the step of the encoder's optimizer and
    then that of the decoder's. *)
Definition update_returns {ext : Externals} (w : world) (data : batch)
    (crit : criterion) (tf ua nq : bool) : Prop :=
  ∃ g1 g2 oA pA oB pB,
    backward (enc_params w) (dec_params w) data crit tf ua nq = Ok (g1, g2) ∧
    optimizer_step (enc_opt w) (enc_params w) g1 = (Ok tt, oA, pA) ∧
    optimizer_step (dec_opt w) (dec_params w) g2 = (Ok tt, oB, pB).

(** The updates of the training calls on the batches of [tr] return, in
    whatever world the call is made. *)
Definition updates_return_on {ext : Externals} (tr : list batch)
    (tc : criterion) (ua nq : bool) : Prop :=
  ∀ w data tf, In data tr → update_returns w data tc tf ua nq.

(** The inputs that the encoder receives for the batches of a loader, in
    the order of the loader. *)
Definition batch_inputs (l : list batch) : list tensor3 :=
  (λ d : batch, permute102 d.1) <$> l.

(** Both models are in evaluation mode. *)
Definition in_eval_mode {ext : Externals} (w : world) : Prop :=
  enc_training w = false ∧ dec_training w = false.

(** A loader of [n] batches of one sample, one timestep and one feature. *)
Definition unit_loader (n : nat) : list batch :=
  replicate n ([[[7%R]]], [[[2%R]]]).


(** * Properties *)

Lemma Reqb_eq (a b : R) : Reqb a b = true ↔ a = b.
Proof. unfold Reqb. destruct (Req_dec_T a b); split; congruence. Qed.

Lemma Reqb_neq (a b : R) : a ≠ b → Reqb a b = false.
Proof. unfold Reqb. destruct (Req_dec_T a b); congruence. Qed.

Lemma Rltb_lt (a b : R) : Rltb a b = true ↔ (a < b)%R.
Proof. unfold Rltb. destruct (Rlt_dec a b); split; intros; try done. Qed.

Lemma Rltb_ge (a b : R) : (b <= a)%R → Rltb a b = false.
Proof. unfold Rltb. destruct (Rlt_dec a b); [lra | done]. Qed.

Section MonadLaws.
Context {ext : Externals}.

Lemma bind_inv {A B} (m : M A) (k : A → M B) w r w' ev :
  bind m k w = (r, w', ev) →
  (∃ a w1 e1 e2, m w = (Ok a, w1, e1) ∧ k a w1 = (r, w', e2) ∧ ev = e1 ++ e2)
  ∨ (∃ x, m w = (Raise x, w', ev) ∧ r = Raise x).
Proof.
  unfold bind. destruct (m w) as [[[a|x] w1] e1].
  - destruct (k a w1) as [[r2 w2] e2] eqn:Hk. intros [= <- <- <-].
    left. by exists a, w1, e1, e2.
  - intros [= <- <- <-]. right. by exists x.
Qed.

Lemma loss_batch_reject_eq data crit tfr ua nq w :
  loss_batch data true crit tfr ua nq false w =
  match get_t 0 data.2 with
  | None =>
      (Raise IndexError, with_modes true w, [EvEncoder (permute102 data.1)])
  | Some _ =>
      (Raise (if sys_in_scope then SystemExit else NameError),
       with_rng (S (rng_pos w)) (with_modes true w),
       [EvEncoder (permute102 data.1);
        EvDraw (random_draws (rng_pos w)) tfr; EvWarning])
  end.
Proof.
  destruct data as [input_batch target_batch].
  unfold loss_batch, bind, set_modes, call_encoder, index, random_lt, sys_exit;
    simpl.
  destruct (encoder_forward _ _ _) as [eo eh].
  destruct (get_t 0 target_batch); [|reflexivity].
  by destruct sys_in_scope.
Qed.

End MonadLaws.

(** ** Rules for composing postconditions *)

Section Postconditions.
Context {ext : Externals}.

Context (Q : world → world → list event → Prop) `{!Compositional Q}.

Lemma sat_ret {A} (a : A) : sat Q (ret a).
Proof. intros w r w' ev [= <- <- <-]. apply comp_nil. Qed.

Lemma sat_raise {A} (x : exn) : sat Q (@raise _ A x).
Proof. intros w r w' ev [= <- <- <-]. apply comp_nil. Qed.

Lemma sat_lift {A} (r : result A) : sat Q (lift r).
Proof. intros w r' w' ev [= <- <- <-]. apply comp_nil. Qed.

Lemma sat_exit {A} : sat Q (@sys_exit _ A).
Proof. unfold sys_exit. destruct sys_in_scope; apply sat_raise. Qed.

Lemma sat_index {A} (o : option A) : sat Q (index o).
Proof. destruct o; [apply sat_ret | apply sat_raise]. Qed.

Lemma sat_bind {A B} (m : M A) (k : A → M B) :
  sat Q m → (∀ a, sat Q (k a)) → sat Q (bind m k).
Proof.
  intros Hm Hk w r w' ev H.
  apply bind_inv in H as [(a & w1 & e1 & e2 & H1 & H2 & ->)|(x & H1 & ->)].
  - eapply comp_app; [by eapply Hm | by eapply Hk].
  - by eapply Hm.
Qed.

(** The update is made of the backward pass and of one step of each
    optimizer. *)
Lemma optimize_sat data crit tf ua nq :
  sat Q (call_backward data crit tf ua nq) →
  (∀ g, sat Q (step_encoder g)) → (∀ g, sat Q (step_decoder g)) →
  sat Q (optimize data crit tf ua nq).
Proof.
  intros Hb He Hd. unfold optimize.
  apply sat_bind; [exact Hb|]. intros [g1 g2].
  apply sat_bind; [apply He|]. intros _. apply Hd.
Qed.

Lemma decode_loop_sat opts ratio target enc EOS tf ua nq ts st :
  step_sat Q opts ratio → sat Q (decode_loop target enc EOS tf ua nq ts st).
Proof.
  intros HS. revert st. induction ts as [|t ts IH]; intros st; simpl.
  - apply sat_ret.
  - apply sat_bind; [apply HS|]. intros [dout hid'].
    apply sat_bind; [apply sat_index|]. intros tgt.
    apply sat_bind; [destruct nq; [apply sat_lift | apply sat_ret]|].
    intros out.
    apply sat_bind; [apply sat_lift|]. intros outs'.
    apply sat_bind; [apply HS|]. intros _.
    destruct tf; [apply IH|]. destruct (all_eq dout EOS); [apply sat_ret | apply IH].
Qed.

Lemma loss_batch_sat data opts crit ratio ua nq ab :
  step_sat Q opts ratio → sat Q (loss_batch data opts crit ratio ua nq ab).
Proof.
  intros HS. destruct data as [input_batch target_batch]. unfold loss_batch.
  apply sat_bind; [apply HS|]. intros _.
  apply sat_bind; [apply HS|]. intros [eo eh].
  apply sat_bind; [apply sat_index|]. intros first.
  apply sat_bind; [apply HS|]. intros tf.
  apply sat_bind.
  { destruct (negb ab && opts); [|apply sat_ret].
    apply sat_bind; [apply HS|]. intros _. apply sat_exit. }
  intros _.
  apply sat_bind; [by eapply decode_loop_sat|]. intros st.
  apply sat_bind.
  { destruct opts eqn:Ho; [by apply HS | apply sat_ret]. }
  intros _. destruct ab; [apply sat_ret|].
  apply sat_bind; [apply sat_lift|]. intros ls. apply sat_ret.
Qed.

End Postconditions.

(** ** Frame of an evaluation call *)

Section Frame.
Context {ext : Externals}.

#[local] Instance same_model_compositional :
  Compositional (λ w w' _, same_model w w').
Proof.
  split; [by intros w|].
  intros w w1 w2 _ _ (?&?&?&?) (?&?&?&?). repeat split; congruence.
Qed.

#[local] Instance update_compositional :
  Compositional (λ w w' ev, same_model w w' ∨ In EvOptStep ev).
Proof.
  split; [by left|].
  intros w w1 w2 e1 e2 [H1|H1] [H2|H2];
    try (right; apply in_or_app; tauto).
  left. by eapply (comp_app (Q := λ w w' _, same_model w w')).
Qed.

Lemma eval_steps_keep_model ratio :
  step_sat (λ w w' _, same_model w w') false ratio.
Proof.
  split; try done; intros; intros w r w' ev [= <- <- <-]; by cbv.
Qed.

Lemma steps_update_model opts ratio :
  step_sat (λ w w' ev, same_model w w' ∨ In EvOptStep ev) opts ratio.
Proof.
  split; intros; try (intros w r w' ev [= <- <- <-]; left; by cbv).
  apply optimize_sat; [typeclasses eauto|..].
  - intros w r w' ev [= <- <- <-]. left. by cbv.
  - intros g w r w' ev. unfold step_encoder.
    destruct (optimizer_step _ _ g) as [[r1 o1] p1].
    intros [= <- <- <-]. right. by left.
  - intros g w r w' ev. unfold step_decoder.
    destruct (optimizer_step _ _ g) as [[r1 o1] p1].
    intros [= <- <- <-]. right. by left.
Qed.

(** C10.  A call of [loss_batch] without optimizers leaves the parameters of
    the encoder and of the decoder and the states of both optimizers as they
    were, whether it returns or raises; and a call of [loss_batch] changes
    any of them only when optimizers are given, in which case an optimizer
    step was made. *)
Theorem loss_batch_eval_frame data crit ratio ua nq ab w :
  same_model w (loss_batch data false crit ratio ua nq ab w).1.2 ∧
  ∀ opts,
    let '(_, w', ev) := loss_batch data opts crit ratio ua nq ab w in
    same_model w w' ∨ (opts = true ∧ In EvOptStep ev).
Proof.
  assert (H1 : ∀ r w' ev,
    loss_batch data false crit ratio ua nq ab w = (r, w', ev) → same_model w w').
  { intros r w' ev H.
    eapply (loss_batch_sat (λ w w' _, same_model w w')), H.
    apply eval_steps_keep_model. }
  split.
  - destruct (loss_batch data false crit ratio ua nq ab w) as [[r w'] ev] eqn:H.
    by eapply H1.
  - intros opts.
    destruct (loss_batch data opts crit ratio ua nq ab w) as [[r w'] ev] eqn:H.
    destruct opts.
    + eapply (loss_batch_sat (λ w w' ev, same_model w w' ∨ In EvOptStep ev))
        in H as [H|H]; eauto using steps_update_model.
    + left. by eapply H1.
Qed.

End Frame.

(** ** Per-sample losses requested while training *)

Section Rejection.
Context {ext : Externals}.

(** C2, as the code has it.  With [average_batch=False] and optimizers
    given, every call of [loss_batch] raises: it returns no loss, never
    calls the decoder, makes no backward pass and no optimizer step, and
    leaves parameters and optimizer states untouched; but the encoder is
    run once, on the permuted input, before anything else.  When the target
    has a first timestep, the random draw is made, the warning is logged
    and the call ends at [sys.exit()], in [SystemExit], or in [NameError]
    when [sys] is not in scope.  When the target has no timestep, the call
    ends before the draw and the warning, in the [IndexError] of line 67. *)
Theorem loss_batch_rejects_per_sample_training data crit ratio ua nq w :
  let '(r, w', ev) := loss_batch data true crit ratio ua nq false w in
  (∀ l, r ≠ Ok l) ∧ same_model w w' ∧
  (∀ t i o, ¬ In (EvDecoder t i o) ev) ∧
  ¬ In EvBackward ev ∧ ¬ In EvOptStep ev ∧
  match get_t 0 data.2 with
  | Some _ =>
      r = Raise (if sys_in_scope then SystemExit else NameError) ∧
      ev = [EvEncoder (permute102 data.1);
            EvDraw (random_draws (rng_pos w)) ratio; EvWarning]
  | None =>
      r = Raise IndexError ∧ ev = [EvEncoder (permute102 data.1)]
  end.
Proof.
  rewrite loss_batch_reject_eq.
  destruct (get_t 0 data.2) as [first|] eqn:Hfirst; simpl;
    repeat split; try done;
    try (intros; simpl in *; intuition discriminate).
Qed.

End Rejection.

Section RejectionExamples.

(** C2 as stated fails: on a batch of one sample with one timestep, the call
    with [average_batch=False] and optimizers ends only after the encoder
    has been run on the input; it ends in [SystemExit] when [sys] is in
    scope, and in [NameError], an exception like any other, when it is
    not. *)
Lemma encoder_runs_before_rejection :
  (let '(r, _, ev) :=
     loss_batch (ext := ext_plus) ([[[1%R]]], [[[1%R]]]) true
       (mean_criterion sq_err) 0 false false false w_plus in
   r = Raise SystemExit ∧ ¬ (∀ input, ¬ In (EvEncoder input) ev)) ∧
  (let '(r, _, ev) :=
     loss_batch (ext := ext_plus_no_sys) ([[[1%R]]], [[[1%R]]]) true
       (mean_criterion sq_err) 0 false false false
       (world0 (ext := ext_plus_no_sys) 0%nat 0%nat) in
   r = Raise NameError ∧ ¬ (∀ input, ¬ In (EvEncoder input) ev)).
Proof.
  split; rewrite loss_batch_reject_eq; simpl; (split; [done|]);
    intros H; eapply H; left; reflexivity.
Qed.

End RejectionExamples.

(** ** Events of [loss_batch] and of [fit] *)

Section Events.
Context {ext : Externals}.

Context (Q : world → world → list event → Prop) `{!Compositional Q}.

Lemma train_loop_sat tr tc ua nq i bs losses :
  pass_sat Q → sat Q (train_loop tr tc ua nq i bs losses).
Proof.
  intros HF. revert i losses. induction bs as [|data bs IH]; intros i losses.
  - apply (sat_ret Q).
  - cbn [train_loop].
    apply (sat_bind Q); [apply (loss_batch_sat Q); apply HF|]. intros l.
    destruct (_ =? 0); [apply (sat_raise Q)|].
    apply (sat_bind Q); [|intros _; apply IH].
    destruct (_ =? 0); [apply HF | by apply (sat_ret Q)].
Qed.

Lemma val_pass_sat ua nq vc bs : pass_sat Q → sat Q (val_pass ua nq vc bs).
Proof.
  intros HF. induction bs as [|data bs IH]; cbn [val_pass].
  - apply (sat_ret Q).
  - apply (sat_bind Q); [apply (loss_batch_sat Q); apply HF|]. intros l.
    apply (sat_bind Q); [apply IH|]. intros rest. by apply (sat_ret Q).
Qed.

Lemma validation_sat val ua nq vcs : pass_sat Q → sat Q (validation val ua nq vcs).
Proof.
  intros HF. induction vcs as [|vc vcs IH]; cbn [validation].
  - apply (sat_ret Q).
  - apply (sat_bind Q); [by apply val_pass_sat|]. intros l.
    apply (sat_bind Q); [apply IH|]. intros rest. by apply (sat_ret Q).
Qed.

Lemma run_epoch_sat tr val tc vcs ua nq rate e st :
  fit_sat Q → sat Q (run_epoch tr val tc vcs ua nq rate e st).
Proof.
  intros HF. unfold run_epoch.
  apply (sat_bind Q); [apply train_loop_sat, HF|]. intros losses.
  apply (sat_bind Q); [apply validation_sat, HF|]. intros vl.
  apply (sat_bind Q); [apply HF|]. intros _.
  apply (sat_bind Q); [apply HF|]. intros _.
  apply (sat_bind Q); [by apply (sat_index Q)|]. intros v0.
  destruct (xltb _ _); [|by apply (sat_ret Q)].
  apply (sat_bind Q); [apply HF|]. intros _. by apply (sat_ret Q).
Qed.

Lemma epoch_loop_sat tr val tc vcs ua nq rate es st :
  fit_sat Q → sat Q (epoch_loop tr val tc vcs ua nq rate es st).
Proof.
  intros HF. revert st. induction es as [|e es IH]; intros st; cbn [epoch_loop].
  - by apply (sat_ret Q).
  - apply (sat_bind Q); [by apply run_epoch_sat|]. intros st'. apply IH.
Qed.

Lemma first_sample_sat tr dropped : sat Q (first_sample tr dropped).
Proof.
  unfold first_sample.
  destruct tr, dropped; first [apply (sat_raise Q) | apply (sat_ret Q)].
Qed.

Lemma fit_sat_all epochs dl dropped tc vcs ratio ua nq rate :
  fit_sat Q → sat Q (fit epochs dl dropped tc vcs ratio ua nq rate).
Proof.
  intros HF. destruct dl as [tr val]. unfold fit.
  apply (sat_bind Q); [apply first_sample_sat|]. intros _.
  apply (sat_bind Q); [by apply epoch_loop_sat|]. intros _. by apply (sat_ret Q).
Qed.

End Events.

Section EventShapes.
Context {ext : Externals}.

#[global] Instance all_events_compositional (P : event → Prop) :
  Compositional (λ _ _ ev, Forall P ev).
Proof. split; [by constructor|]. intros. by apply Forall_app. Qed.

Lemma step_sat_all (P : event → Prop) opts ratio :
  (∀ e, loss_event ratio e → P e) →
  step_sat (λ _ _ ev, Forall P ev) opts ratio.
Proof.
  intros HP. split; intros; intros w r w' ev.
  - intros [= <- <- <-]. constructor.
  - intros [= <- <- <-]. repeat constructor. by apply HP.
  - intros [= <- <- <-]. repeat constructor. apply HP. simpl. eauto.
  - intros [= <- <- <-]. repeat constructor. by apply HP.
  - intros [= <- <- <-]. repeat constructor. by apply HP.
  - intros [= <- <- <-]. repeat constructor. by apply HP.
  - revert w r w' ev. apply optimize_sat; [typeclasses eauto|..].
    + intros w r w' ev [= <- <- <-]. repeat constructor. by apply HP.
    + intros g w r w' ev. unfold step_encoder.
      destruct (optimizer_step _ _ g) as [[r1 o1] p1].
      intros [= <- <- <-]. repeat constructor. by apply HP.
    + intros g w r w' ev. unfold step_decoder.
      destruct (optimizer_step _ _ g) as [[r1 o1] p1].
      intros [= <- <- <-]. repeat constructor. by apply HP.
Qed.

Lemma loss_batch_events data opts crit ratio ua nq ab w r w' ev :
  loss_batch data opts crit ratio ua nq ab w = (r, w', ev) →
  Forall (loss_event ratio) ev.
Proof.
  apply (loss_batch_sat (λ _ _ ev, Forall (loss_event ratio) ev)).
  by apply step_sat_all.
Qed.

Lemma pass_sat_events (P : event → Prop) :
  (∀ e, loss_event 0 e → P e) → (∀ i l, P (EvInfoBatch i l)) →
  pass_sat (λ _ _ ev, Forall P ev).
Proof.
  intros HP HI. split.
  - by apply step_sat_all.
  - by apply step_sat_all.
  - intros i l w r w' ev [= <- <- <-]. by repeat constructor.
Qed.

Lemma fit_sat_events (P : event → Prop) :
  (∀ e, fit_event e → P e) → fit_sat (λ _ _ ev, Forall P ev).
Proof.
  intros HP. split.
  - apply pass_sat_events; [|intros; by apply HP].
    intros e He. apply HP. by destruct e.
  - intros w r w' ev. unfold step_schedulers.
    destruct (step_all _ _ _) as [[ss oA] oB]. intros [= <- <- <-]. constructor.
  - intros e l vl w r w' ev [= <- <- <-]. repeat constructor. by apply HP.
  - intros e w r w' ev [= <- <- <-]. repeat constructor. by apply HP.
Qed.

Lemma fit_events epochs dl dropped tc vcs ratio ua nq rate w r w' ev :
  fit epochs dl dropped tc vcs ratio ua nq rate w = (r, w', ev) →
  Forall fit_event ev.
Proof.
  apply (fit_sat_all (λ _ _ ev, Forall fit_event ev)).
  by apply fit_sat_events.
Qed.

End EventShapes.

(** ** The teacher-forcing ratio held by [fit] *)

Section Ratio.
Context {ext : Externals}.

Lemma run_epoch_ratio tr val tc vcs ua nq rate rate' e st st' w :
  min_val_loss st = min_val_loss st' →
  same_selection (run_epoch tr val tc vcs ua nq rate e st w)
                 (run_epoch tr val tc vcs ua nq rate' e st' w).
Proof.
  intros Hm. unfold run_epoch, bind. rewrite Hm.
  destruct (train_loop _ _ _ _ _ _ _ _) as [[[losses|x] w1] e1]; [|done].
  destruct (validation _ _ _ _ _) as [[[vl|x] w2] e2]; [|done].
  destruct (step_schedulers w2) as [[[[]|x] w3] e3]; [|done].
  destruct (emit _ w3) as [[[[]|x] w4] e4]; [|done].
  destruct (index _ w4) as [[[v0|x] w5] e5]; [|done].
  destruct (xltb v0 _); [|done].
  destruct (save_model e w5) as [[[[]|x] w6] e6]; done.
Qed.

Lemma epoch_loop_ratio tr val tc vcs ua nq rate rate' es st st' w :
  min_val_loss st = min_val_loss st' →
  same_selection (epoch_loop tr val tc vcs ua nq rate es st w)
                 (epoch_loop tr val tc vcs ua nq rate' es st' w).
Proof.
  revert st st' w. induction es as [|e es IH]; intros st st' w Hm.
  - done.
  - cbn [epoch_loop]. unfold bind.
    pose proof (run_epoch_ratio tr val tc vcs ua nq rate rate' e st st' w Hm)
      as (Hw & Hev & Hr).
    destruct (run_epoch _ _ _ _ _ _ rate e st w) as [[[s1|x1] w1] e1],
             (run_epoch _ _ _ _ _ _ rate' e st' w) as [[[s2|x2] w2] e2];
      simpl in *; subst; try done.
    pose proof (IH s1 s2 w2 Hr) as (Hw' & Hev' & Hr').
    destruct (epoch_loop _ _ _ _ _ _ rate es s1 w2) as [[r3 w3] e3],
             (epoch_loop _ _ _ _ _ _ rate' es s2 w2) as [[r4 w4] e4];
      simpl in *; subst. done.
Qed.

(** C1 fails on the code.  [fit] receives [teacher_forcing_ratio] and
    multiplies it by [schedule_rate] after every epoch, but does not pass it
    to [loss_batch]: result, final state and events of [fit] are the same
    for any two ratios and any two schedule rates, and every Bernoulli draw
    it makes compares [random.random()] with the default ratio [0.0], hence
    never selects teacher forcing. *)
Theorem fit_ignores_teacher_forcing_ratio
    epochs dl dropped tc vcs ratio ratio' ua nq rate rate' w :
  fit epochs dl dropped tc vcs ratio ua nq rate w =
  fit epochs dl dropped tc vcs ratio' ua nq rate' w ∧
  ∀ r q, In (EvDraw r q) (fit epochs dl dropped tc vcs ratio ua nq rate w).2 →
         q = 0%R ∧ Rltb r q = false.
Proof.
  split.
  - destruct dl as [tr val]. unfold fit, bind.
    destruct (first_sample tr dropped w) as [[[[]|x0] w0] e0]; [|done].
    pose proof (epoch_loop_ratio tr val tc vcs ua nq rate rate' (seq 0 epochs)
                  (FitState ratio PosInf) (FitState ratio' PosInf) w0 eq_refl)
      as (Hw & Hev & Hr).
    destruct (epoch_loop _ _ _ _ _ _ rate _ _ w0) as [[[s1|x1] w1] e1],
             (epoch_loop _ _ _ _ _ _ rate' _ _ w0) as [[[s2|x2] w2] e2];
      simpl in *; subst; done.
  - intros r q Hin.
    destruct (fit epochs dl dropped tc vcs ratio ua nq rate w)
      as [[res w'] ev] eqn:Hfit.
    apply fit_events in Hfit. rewrite Forall_forall in Hfit.
    apply Hfit in Hin as [-> [n ->]]. split; [done|].
    apply Rltb_ge, random_range.
Qed.

End Ratio.

(** ** One step of the unrolling loop *)

Section LoopStep.
Context {ext : Externals}.

Lemma decode_loop_step target enc EOS tf ua nq t ts st w :
  decode_loop target enc EOS tf ua nq (t :: ts) st w =
  let dh := decoder_forward (dec_params w) (dec_training w)
              (decoder_input st) (decoder_hidden st)
              (if ua then Some enc else None) in
  let e0 := EvDecoder t (decoder_input st) dh.1 in
  match get_t t target with
  | None => (Raise IndexError, w, [e0])
  | Some tgt =>
    match (if nq then quat_normalize dh.1 else Ok dh.1) with
    | Raise x => (Raise x, w, [e0])
    | Ok out =>
      match set_t t out (outputs st) with
      | Raise x => (Raise x, w, [e0])
      | Ok outs' =>
        if tf then
          let '(r, w2, e2) :=
            decode_loop target enc EOS tf ua nq ts (Unroll tgt dh.2 outs') w in
          (r, w2, e0 :: EvWrite t out :: e2)
        else if all_eq dh.1 EOS then
          (Ok (Unroll (decoder_input st) dh.2 outs'), w, [e0; EvWrite t out])
        else
          let '(r, w2, e2) :=
            decode_loop target enc EOS tf ua nq ts (Unroll out dh.2 outs') w in
          (r, w2, e0 :: EvWrite t out :: e2)
      end
    end
  end.
Proof.
  cbn [decode_loop]. unfold bind, call_decoder, index, lift, emit, ret, raise.
  destruct (decoder_forward _ _ _ _ _) as [dout hid']. cbn [fst snd].
  destruct (get_t t target) as [tgt|]; [|done].
  destruct nq.
  - destruct (quat_normalize dout) as [out|x]; [|done]. cbn.
    destruct (set_t t out (outputs st)) as [outs'|x]; [|done]. cbn.
    destruct tf; [|destruct (all_eq dout EOS)]; try done;
      by destruct (decode_loop _ _ _ _ _ _ _ _ _) as [[r w2] e2].
  - cbn. destruct (set_t t dout (outputs st)) as [outs'|x]; [|done]. cbn.
    destruct tf; [|destruct (all_eq dout EOS)]; try done;
      by destruct (decode_loop _ _ _ _ _ _ _ _ _) as [[r w2] e2].
Qed.

Lemma decode_loop_nil target enc EOS tf ua nq st w :
  decode_loop target enc EOS tf ua nq [] st w = (Ok st, w, []).
Proof. reflexivity. Qed.

(** The loop reads the world and does not change it. *)
Lemma decode_loop_world target enc EOS tf ua nq ts st w r w' ev :
  decode_loop target enc EOS tf ua nq ts st w = (r, w', ev) → w' = w.
Proof.
  revert st r ev. induction ts as [|t ts IH]; intros st r ev.
  - by intros [= <- <- <-].
  - rewrite decode_loop_step. cbn zeta.
    destruct (get_t t target); [|by intros [= <- <- <-]].
    destruct (if nq then _ else _); [|by intros [= <- <- <-]].
    destruct (set_t _ _ _); [|by intros [= <- <- <-]].
    destruct tf; [|destruct (all_eq _ _); [by intros [= <- <- <-]|]].
    + destruct (decode_loop _ _ _ _ _ _ _ _ _) as [[r2 w2] e2] eqn:H.
      intros [= <- <- <-]. by eapply IH.
    + destruct (decode_loop _ _ _ _ _ _ _ _ _) as [[r2 w2] e2] eqn:H.
      intros [= <- <- <-]. by eapply IH.
Qed.

End LoopStep.

(** ** Reading and writing a timestep *)

Section Timesteps.
Context {ext : Externals}.

Lemma get_t_Forall2 t x slot :
  get_t t x = Some slot ↔ Forall2 (λ (s : tensor2) row, s !! t = Some row) x slot.
Proof. apply mapM_Some. Qed.

Lemma expand_length {A} n (l l' : list A) :
  expand n l = Some l' → length l' = n.
Proof.
  unfold expand. destruct (Nat.eqb_spec (length l) n) as [<-|_].
  - by intros [= <-].
  - destruct l as [|x [|??]], n; try done. intros [= <-].
    apply (length_replicate (S n)).
Qed.

(** The expansion has the elements of the original, and no other. *)
Lemma expand_Forall {A} n (l l' : list A) (P : A → Prop) :
  expand n l = Some l' → (Forall P l ↔ Forall P l').
Proof.
  unfold expand. destruct (Nat.eqb_spec (length l) n) as [<-|_].
  - by intros [= <-].
  - destruct l as [|x [|??]], n; try done. intros [= <-]. split.
    + intros Hx. inversion Hx; subst. by apply (Forall_replicate _ (S n)).
    + intros Hx. inversion Hx; subst. by repeat constructor.
Qed.

Lemma expand_same {A} (l : list A) : expand (length l) l = Some l.
Proof. unfold expand. by rewrite Nat.eqb_refl. Qed.

Lemma Forall2_zip_r {A B C} (R : A * B → C → Prop)
    (l : list A) (k : list B) (m : list C) :
  length l = length k → Forall2 R (zip l k) m →
  Forall2 (λ b c, ∃ a, R (a, b) c) k m.
Proof.
  revert k m. induction l as [|a l IH]; intros [|b k] m; try done.
  - intros _ H. inversion H. constructor.
  - intros [= Hlen] H. cbn in H. inversion H as [|? c ? m' HR Hrest]; subst.
    constructor; [by exists a | by apply IH].
Qed.

Lemma broadcast_to_inv slot v v' :
  broadcast_to slot v = Some v' →
  ∃ rows, expand (length slot) v = Some rows ∧
    Forall2 (λ (p : tensor1 * tensor1) r', expand (length p.1) p.2 = Some r')
      (zip slot rows) v'.
Proof.
  unfold broadcast_to. destruct (expand _ v) as [rows|]; [|done]. cbn.
  intros H%mapM_Some. by exists rows.
Qed.

(** The broadcast value has the shape of the slot. *)
Lemma broadcast_to_shape slot v v' :
  broadcast_to slot v = Some v' → length <$> v' = length <$> slot.
Proof.
  intros (rows & Hrows & H)%broadcast_to_inv.
  apply expand_length in Hrows. clear v.
  revert rows v' Hrows H. induction slot as [|s slot IH];
    intros [|r rows] v'; try done.
  - intros _ H. by inversion H.
  - intros [= Hlen] H. cbn in H. inversion H as [|? r' ? m Hr Hrest]; subst.
    cbn. f_equal; [by eapply expand_length | by eapply IH].
Qed.

(** It is all zero exactly when the value is. *)
Lemma broadcast_to_zero slot v v' :
  broadcast_to slot v = Some v' → (all_zero v ↔ all_zero v').
Proof.
  intros (rows & Hrows & H)%broadcast_to_inv. unfold all_zero.
  rewrite (expand_Forall _ _ _ _ Hrows).
  apply Forall2_zip_r in H; [|by rewrite (expand_length _ _ _ Hrows)].
  clear Hrows. induction H as [|r r' rows v' [s Hr] _ IH]; [done|].
  split; intros Hz; inversion Hz; subst; constructor;
    try (by apply IH); by eapply (expand_Forall _ _ _ _ Hr).
Qed.

(** A value of the shape of the slot is broadcast to itself. *)
Lemma broadcast_to_same slot v :
  length <$> v = length <$> slot → broadcast_to slot v = Some v.
Proof.
  intros Hshape. unfold broadcast_to.
  assert (Hlen : length v = length slot).
  { apply (f_equal length) in Hshape. by rewrite !length_fmap in Hshape. }
  rewrite <- Hlen, expand_same. cbn. apply mapM_Some.
  clear Hlen. revert slot Hshape. induction v as [|r v IH]; intros [|s slot];
    try done; cbn.
  intros [= Hr Hrest]. constructor; [|by apply IH].
  cbn. rewrite <- Hr. apply expand_same.
Qed.

Lemma set_t_inv t v x x' :
  set_t t v x = Ok x' →
  ∃ slot v', get_t t x = Some slot ∧ broadcast_to slot v = Some v' ∧
    x' = zip_with (λ (s : tensor2) (row : tensor1), <[t := row]> s) x v'.
Proof.
  unfold set_t. destruct (get_t t x) as [slot|]; [|done].
  destruct (broadcast_to slot v) as [v'|] eqn:Hb; [|done].
  intros [= <-]. by exists slot, v'.
Qed.

(** What the sample [b] of the result is. *)
Lemma set_t_lookup t v x x' b s' :
  set_t t v x = Ok x' → x' !! b = Some s' →
  ∃ slot v' s row old,
    get_t t x = Some slot ∧ broadcast_to slot v = Some v' ∧
    x !! b = Some s ∧ v' !! b = Some row ∧ s !! t = Some old ∧
    length row = length old ∧ s' = <[t := row]> s.
Proof.
  intros (slot & v' & Hslot & Hv' & ->)%set_t_inv Hb.
  apply lookup_zip_with_Some in Hb as (s & row & -> & Hs & Hrow).
  pose proof (broadcast_to_shape _ _ _ Hv') as Hshape.
  pose proof Hslot as Hslot'. apply get_t_Forall2 in Hslot'.
  destruct (Forall2_lookup_l _ _ _ _ _ Hslot' Hs) as (old & Hold & Ht).
  exists slot, v', s, row, old. repeat split; try done.
  assert (Hl : (length <$> v') !! b = (length <$> slot) !! b) by by rewrite Hshape.
  rewrite !list_lookup_fmap, Hrow, Hold in Hl. by injection Hl.
Qed.

Lemma set_t_length t v x x' : set_t t v x = Ok x' → length x' = length x.
Proof.
  intros (slot & v' & Hslot & Hv' & ->)%set_t_inv.
  apply get_t_Forall2, Forall2_length in Hslot.
  apply broadcast_to_shape, (f_equal length) in Hv'.
  rewrite !length_fmap in Hv'.
  rewrite length_zip_with. lia.
Qed.

(** Writing a timestep keeps the shape of the tensor. *)
Lemma set_t_shape t v x x' :
  set_t t v x = Ok x' → shape_of x' = shape_of x.
Proof.
  intros H. apply list_eq. intros b. unfold shape_of. rewrite !list_lookup_fmap.
  destruct (x' !! b) as [s'|] eqn:Hb.
  - destruct (set_t_lookup _ _ _ _ _ _ H Hb)
      as (slot & v' & s & row & old & _ & _ & -> & _ & Hold & Hlen & ->).
    simpl. f_equal. rewrite list_fmap_insert, Hlen.
    apply list_insert_id. by rewrite list_lookup_fmap, Hold.
  - apply lookup_ge_None in Hb. rewrite (set_t_length _ _ _ _ H) in Hb.
    apply lookup_ge_None in Hb. by rewrite Hb.
Qed.

Lemma set_t_zero_from_later t k v x x' :
  set_t t v x = Ok x' → t < k → zero_from k x → zero_from k x'.
Proof.
  intros H Htk Hz b s' Hb t' row Hk Hrow.
  destruct (set_t_lookup _ _ _ _ _ _ H Hb)
    as (slot & v' & s & new & old & _ & _ & Hs & _ & _ & _ & ->).
  rewrite list_lookup_insert_ne in Hrow by lia. by eapply Hz.
Qed.

Lemma set_t_zero_from_here t v x x' :
  set_t t v x = Ok x' → all_zero v → zero_from (S t) x → zero_from t x'.
Proof.
  intros H Hv Hz b s' Hb t' row Hk Hrow.
  destruct (set_t_lookup _ _ _ _ _ _ H Hb)
    as (slot & v' & s & new & old & _ & Hv' & Hs & Hnew & _ & _ & ->).
  apply (broadcast_to_zero _ _ _ Hv') in Hv.
  destruct (decide (t' = t)) as [->|Hne].
  - apply list_lookup_insert_Some in Hrow as [(_ & <- & _)|(? & _)]; [|done].
    unfold all_zero in Hv. rewrite Forall_lookup in Hv. by eapply Hv.
  - rewrite list_lookup_insert_ne in Hrow by done.
    eapply Hz; [done| |done]. lia.
Qed.

Lemma zeros_like3_zero_from k x : zero_from k (zeros_like3 x).
Proof.
  intros b s Hb t row _ Hrow. unfold zeros_like3, zeros_like in Hb.
  apply list_lookup_fmap_Some in Hb as (s0 & -> & _).
  apply list_lookup_fmap_Some in Hrow as (r0 & -> & _).
  apply Forall_fmap. by apply Forall_true.
Qed.

Lemma zeros_like3_shape x : shape_of (zeros_like3 x) = shape_of x.
Proof.
  unfold shape_of, zeros_like3, zeros_like. rewrite <- list_fmap_compose.
  apply list_fmap_ext. intros _ s _. simpl. rewrite <- list_fmap_compose.
  apply list_fmap_ext. intros _ r _. simpl. by rewrite length_map.
Qed.

Lemma zero_from_entry k x b t f v :
  zero_from k x → k ≤ t → entry x b t f = Some v → v = 0%R.
Proof.
  intros Hz Hk. unfold entry.
  destruct (x !! b) as [s|] eqn:Hs; [|done]. simpl.
  destruct (s !! t) as [row|] eqn:Hrow; [|done]. simpl. intros Hv.
  specialize (Hz b s Hs t row Hk Hrow). rewrite Forall_lookup in Hz.
  by eapply Hz.
Qed.

Lemma all_eq1_zero a (f : tensor1) : all_eq1 a ((λ _, 0%R) <$> f) = true → Forall (λ v, v = 0%R) a.
Proof.
  revert f. induction a as [|x a IH]; intros [|y f]; simpl; try done.
  intros [Hx Ha]%andb_prop. constructor; [by apply Reqb_eq | by eapply IH].
Qed.

Lemma all_eq2_zero x first : all_eq2 x (zeros_like first) = true → all_zero x.
Proof.
  revert first. induction x as [|a x IH]; intros [|f first]; simpl; try done.
  - by constructor.
  - intros [Ha Hx]%andb_prop. constructor; [by eapply all_eq1_zero | by eapply IH].
Qed.

(** An output that passes the test of line 103 is all zero. *)
Lemma all_eq_zero x first : all_eq x (zeros_like first) = true → all_zero x.
Proof.
  unfold all_eq. destruct (broadcast_to _ x) as [x'|] eqn:Hb; [|done].
  intros H%all_eq2_zero. by apply (broadcast_to_zero _ _ _ Hb).
Qed.

End Timesteps.

(** ** Normalising an all-zero output *)

Lemma view4_Forall (P : R → Prop) (l : list R) :
  Forall P l → Forall (Forall P) (view4 l).
Proof.
  assert (H : ∀ n (l : list R), length l ≤ n → Forall P l → Forall (Forall P) (view4 l)).
  { clear l. induction n as [|n IH]; intros l Hn Hl.
    - destruct l; [constructor | simpl in Hn; lia].
    - destruct l as [|a [|b [|c [|d rest]]]]; try by constructor.
      inversion Hl as [|? ? Ha Hl1]; inversion Hl1 as [|? ? Hb Hl2];
        inversion Hl2 as [|? ? Hc Hl3]; inversion Hl3 as [|? ? Hd Hl4]; subst.
      cbn [view4]. constructor; [by repeat constructor|].
      apply IH; [simpl in Hn; lia | done]. }
  by apply (H (length l)).
Qed.

Lemma concat_Forall {A} (P : A → Prop) (x : list (list A)) :
  Forall (Forall P) x → Forall P (concat x).
Proof.
  induction 1; simpl; [constructor | by apply Forall_app].
Qed.

Lemma reshape_Forall {A} (P : A → Prop) szs (l : list A) :
  Forall P l → Forall (Forall P) (reshape szs l).
Proof.
  revert l. induction szs as [|n szs IH]; intros l Hl; simpl; constructor.
  - by apply Forall_take.
  - by apply IH, Forall_drop.
Qed.

Section NormaliseZero.
Context {ext : Externals}.

Lemma quat_normalize_zero dout out :
  quat_normalize dout = Ok out → all_zero dout → all_zero out.
Proof.
  unfold quat_normalize. destruct (negb _); [done|]. intros [= <-] Hz.
  apply reshape_Forall, concat_Forall.
  rewrite f_normalize_zero; by apply view4_Forall, concat_Forall.
Qed.

End NormaliseZero.

(** ** Early stop at the end-of-sequence sentinel *)

Section EarlyStop.
Context {ext : Externals}.

Lemma zero_from_mono k k' x : k ≤ k' → zero_from k x → zero_from k' x.
Proof. intros Hk Hz b s Hs t row Ht Hrow. eapply Hz; [done| |done]. lia. Qed.

(** The decoder is called at timesteps of the range only. *)
Lemma decode_loop_timesteps target enc EOS tf ua nq m t0 st w r w' ev t i o :
  decode_loop target enc EOS tf ua nq (seq t0 m) st w = (r, w', ev) →
  In (EvDecoder t i o) ev → t0 ≤ t < t0 + m.
Proof.
  revert t0 st r w' ev. induction m as [|m IH]; intros t0 st r w' ev.
  - by intros [= <- <- <-].
  - rewrite <- cons_seq, decode_loop_step. cbn zeta.
    pose (e0 := EvDecoder t0 (decoder_input st)
                  (decoder_forward (dec_params w) (dec_training w)
                     (decoder_input st) (decoder_hidden st)
                     (if ua then Some enc else None)).1).
    assert (He0 : In (EvDecoder t i o) [e0] → t0 ≤ t < t0 + S m).
    { intros [[= <- _ _]|[]]. lia. }
    destruct (get_t t0 target); [|by intros [= <- <- <-]].
    destruct (if nq then _ else _) as [out|]; [|by intros [= <- <- <-]].
    destruct (set_t _ _ _) as [outs'|]; [|by intros [= <- <- <-]].
    assert (Hrec : ∀ st2 r2 w2 e2,
      decode_loop target enc EOS tf ua nq (seq (S t0) m) st2 w = (r2, w2, e2) →
      In (EvDecoder t i o) (e0 :: EvWrite t0 out :: e2) → t0 ≤ t < t0 + S m).
    { intros st2 r2 w2 e2 H2 [Hin|[Hin|Hin]]; [apply He0; by left|done|].
      specialize (IH _ _ _ _ _ H2 Hin). lia. }
    destruct tf; [|destruct (all_eq _ _)].
    + destruct (decode_loop _ _ _ _ _ _ _ _ _) as [[r2 w2] e2] eqn:H2.
      intros [= <- <- <-]. by eapply Hrec.
    + intros [= <- <- <-] [Hin|[Hin|[]]]; [apply He0; by left|done].
    + destruct (decode_loop _ _ _ _ _ _ _ _ _) as [[r2 w2] e2] eqn:H2.
      intros [= <- <- <-]. by eapply Hrec.
Qed.

Lemma decode_loop_eos target enc first ua nq m t0 st w r w' ev k i o :
  decode_loop target enc (zeros_like first) false ua nq (seq t0 m) st w
    = (r, w', ev) →
  zero_from t0 (outputs st) →
  In (EvDecoder k i o) ev → all_eq o (zeros_like first) = true →
  (∀ t i' o', In (EvDecoder t i' o') ev → t ≤ k) ∧
  (∀ st', r = Ok st' → zero_from k (outputs st')).
Proof.
  revert t0 st r w' ev. induction m as [|m IH]; intros t0 st r w' ev.
  - by intros [= <- <- <-].
  - rewrite <- cons_seq, decode_loop_step. cbn zeta.
    destruct (decoder_forward _ _ _ _ _) as [dout hid']. cbn [fst snd].
    destruct (get_t t0 target).
    2:{ intros [= <- <- <-] _ [[= <- _ _]|[]] _. split; [|done].
        intros t i' o' [[= <- _ _]|[]]. done. }
    destruct (if nq then _ else _) as [out|] eqn:Hout.
    2:{ intros [= <- <- <-] _ [[= <- _ _]|[]] _. split; [|done].
        intros t i' o' [[= <- _ _]|[]]. done. }
    destruct (set_t _ _ _) as [outs'|] eqn:Hset.
    2:{ intros [= <- <- <-] _ [[= <- _ _]|[]] _. split; [|done].
        intros t i' o' [[= <- _ _]|[]]. done. }
    destruct (all_eq dout (zeros_like first)) eqn:Heos.
    + intros [= <- <- <-] Hz [[= <- _ _]|[Hin|[]]] _; [|done].
      split; [intros t i' o' [[= <- _ _]|[Hin|[]]]; done|].
      intros st' [= <-]. cbn [outputs].
      eapply set_t_zero_from_here; [done| |by eapply zero_from_mono, Hz; lia].
      apply all_eq_zero in Heos. destruct nq; [|by injection Hout as <-].
      by eapply quat_normalize_zero.
    + destruct (decode_loop _ _ _ _ _ _ _ _ _) as [[r2 w2] e2] eqn:H2.
      intros [= <- <- <-] Hz [[= <- _ <-]|[Hin|Hin]] Hk; [congruence|done|].
      assert (Hz' : zero_from (S t0) outs').
      { eapply set_t_zero_from_later; [done|lia|].
        eapply zero_from_mono, Hz. lia. }
      destruct (IH _ _ _ _ _ H2 Hz' Hin Hk) as [Ha Hb]. split; [|done].
      intros t i' o' [[= <- _ _]|[Hin'|Hin']]; [|done|by eapply Ha].
      pose proof (decode_loop_timesteps _ _ _ _ _ _ _ _ _ _ _ _ _ _ _ _ H2 Hin).
      lia.
Qed.

(** C4.  In a run of the unrolling loop of [loss_batch] without teacher
    forcing, if the decoder's output at timestep [k] equals the all-zero
    sentinel elementwise, then the decoder is called at no timestep after
    [k], and when the loop returns every entry of [outputs] at a timestep
    from [k] on is zero. *)
Theorem eos_stops_unrolling target enc first ua nq n din hid w r w' ev k i o :
  decode_loop target enc (zeros_like first) false ua nq (seq 0 n)
    (Unroll din hid (zeros_like3 target)) w = (r, w', ev) →
  In (EvDecoder k i o) ev → all_eq o (zeros_like first) = true →
  (∀ t i' o', In (EvDecoder t i' o') ev → t ≤ k) ∧
  (∀ st, r = Ok st →
     ∀ b t f v, k ≤ t → entry (outputs st) b t f = Some v → v = 0%R).
Proof.
  intros Hrun Hin Heos.
  destruct (decode_loop_eos _ _ _ _ _ _ _ _ _ _ _ _ _ _ _ Hrun
              (zeros_like3_zero_from 0 target) Hin Heos) as [Ha Hb].
  split; [done|]. intros st Hr b t f v Hk Hv.
  eapply zero_from_entry; [by apply Hb|done|done].
Qed.

End EarlyStop.

(** ** [loss_batch] step by step *)

Section LossBatchEquation.
Context {ext : Externals}.

Lemma optimize_eq data crit tf ua nq w :
  optimize data crit tf ua nq w =
  match backward (enc_params w) (dec_params w) data crit tf ua nq with
  | Raise x => (Raise x, w, [EvBackward])
  | Ok (g1, g2) =>
      let '(r1, oA, pA) := optimizer_step (enc_opt w) (enc_params w) g1 in
      match r1 with
      | Raise x =>
          (Raise x, with_update pA (dec_params w) oA (dec_opt w) w,
           [EvBackward; EvOptStep])
      | Ok _ =>
          let '(r2, oB, pB) := optimizer_step (dec_opt w) (dec_params w) g2 in
          (r2, with_update pA pB oA oB w, [EvBackward; EvOptStep; EvOptStep])
      end
  end.
Proof.
  unfold optimize, bind, call_backward, step_encoder, step_decoder.
  destruct (backward _ _ _ _ _ _ _) as [[g1 g2]|x]; [|done].
  destruct (optimizer_step _ _ g1) as [[[[]|x1] oA] pA]; [|done]. cbn.
  by destruct (optimizer_step _ _ g2) as [[r2 oB] pB].
Qed.

Lemma optimize_events data crit tf ua nq w r w' ev :
  optimize data crit tf ua nq w = (r, w', ev) → Forall update_event ev.
Proof.
  rewrite optimize_eq.
  destruct (backward _ _ _ _ _ _ _) as [[g1 g2]|x];
    [|intros [= <- <- <-]; by repeat constructor].
  destruct (optimizer_step _ _ g1) as [[[[]|x1] oA] pA];
    [|intros [= <- <- <-]; by repeat constructor].
  destruct (optimizer_step _ _ g2) as [[r2 oB] pB].
  intros [= <- <- <-]. by repeat constructor.
Qed.

(** When the backward pass and both steps return. *)
Lemma optimize_ok data crit tf ua nq w g1 g2 oA pA oB pB :
  backward (enc_params w) (dec_params w) data crit tf ua nq = Ok (g1, g2) →
  optimizer_step (enc_opt w) (enc_params w) g1 = (Ok tt, oA, pA) →
  optimizer_step (dec_opt w) (dec_params w) g2 = (Ok tt, oB, pB) →
  optimize data crit tf ua nq w =
  (Ok tt, with_update pA pB oA oB w, [EvBackward; EvOptStep; EvOptStep]).
Proof. intros Hb H1 H2. by rewrite optimize_eq, Hb, H1, H2. Qed.

Lemma loss_batch_eq input target opts crit ratio ua nq ab w :
  loss_batch (input, target) opts crit ratio ua nq ab w =
  let w1 := with_modes opts w in
  let eh := encoder_forward (enc_params w1) (enc_training w1) (permute102 input) in
  let e_enc := EvEncoder (permute102 input) in
  match get_t 0 target with
  | None => (Raise IndexError, w1, [e_enc])
  | Some first =>
    let r := random_draws (rng_pos w) in
    let tf := Rltb r ratio in
    let w2 := with_rng (S (rng_pos w)) w1 in
    if negb ab && opts
    then (Raise (if sys_in_scope then SystemExit else NameError), w2,
          [e_enc; EvDraw r ratio; EvWarning])
    else
      match
        decode_loop target eh.1 (zeros_like first) tf ua nq
          (seq 0 (shape1 input))
          (Unroll (ones_like first) eh.2 (zeros_like3 target)) w2
      with
      | (Raise x, w3, e3) => (Raise x, w3, e_enc :: EvDraw r ratio :: e3)
      | (Ok st, w3, e3) =>
        let '(r4, w4, e4) :=
          (if opts then optimize (input, target) crit tf ua nq else ret tt) w3 in
        let ev := e_enc :: EvDraw r ratio :: e3 ++ e4 in
        match r4 with
        | Raise x => (Raise x, w4, ev)
        | Ok _ =>
          if ab then (Ok (Scalar (crit3 crit (outputs st) target)), w4, ev)
          else
            match
              sample_losses crit (outputs st) target
                (seq 0 (length (outputs st)))
            with
            | Ok ls => (Ok (PerSample ls), w4, ev)
            | Raise x => (Raise x, w4, ev)
            end
        end
      end
  end.
Proof.
  unfold loss_batch. unfold bind at 1. cbn [set_modes].
  unfold bind at 1. unfold call_encoder at 1. cbn zeta.
  destruct (encoder_forward _ _ _) as [eo eh]. cbn [fst snd].
  unfold bind at 1. destruct (get_t 0 target) as [first|]; [|done]. cbn [index ret].
  unfold bind at 1. cbn [random_lt].
  unfold bind at 1.
  destruct (negb ab && opts) eqn:Hrej.
  { unfold bind, emit, sys_exit, raise. by destruct sys_in_scope. }
  cbn [ret]. unfold bind at 1.
  destruct (decode_loop _ _ _ _ _ _ _ _ _) as [[[st|x] w3] e3]; [|done].
  unfold bind. cbn [rng_pos with_modes].
  destruct opts.
  - destruct (optimize _ _ _ _ _ w3) as [[[[]|x4] w4] e4]; [|done].
    destruct ab; [unfold ret; cbn [app]; by rewrite ?app_nil_r|].
    unfold lift, ret.
    destruct (sample_losses _ _ _ _); cbn [app]; by rewrite ?app_nil_r.
  - unfold ret. destruct ab; [cbn [app]; by rewrite ?app_nil_r|].
    unfold lift.
    destruct (sample_losses _ _ _ _); cbn [app]; by rewrite ?app_nil_r.
Qed.

(** What a call does, by cases: the target has no first timestep; the call
    is rejected; the loop raises; the loop returns, and then the update, if
    any, returns or raises. *)
Lemma loss_batch_inv input target opts crit ratio ua nq ab w r w' ev :
  loss_batch (input, target) opts crit ratio ua nq ab w = (r, w', ev) →
  let w1 := with_modes opts w in
  let eh := encoder_forward (enc_params w1) (enc_training w1)
              (permute102 input) in
  let e_enc := EvEncoder (permute102 input) in
  let e_draw := EvDraw (random_draws (rng_pos w)) ratio in
  let tf := Rltb (random_draws (rng_pos w)) ratio in
  let w2 := with_rng (S (rng_pos w)) w1 in
  match get_t 0 target with
  | None => r = Raise IndexError ∧ w' = w1 ∧ ev = [e_enc]
  | Some first =>
    if negb ab && opts
    then r = Raise (if sys_in_scope then SystemExit else NameError) ∧
         w' = w2 ∧ ev = [e_enc; e_draw; EvWarning]
    else
      ∃ rl e3,
        decode_loop target eh.1 (zeros_like first) tf ua nq
          (seq 0 (shape1 input))
          (Unroll (ones_like first) eh.2 (zeros_like3 target)) w2
        = (rl, w2, e3) ∧
        match rl with
        | Raise x => r = Raise x ∧ w' = w2 ∧ ev = e_enc :: e_draw :: e3
        | Ok st =>
          ∃ r4 e4,
            (if opts
             then optimize (input, target) crit tf ua nq w2 = (r4, w', e4)
             else r4 = Ok tt ∧ w' = w2 ∧ e4 = []) ∧
            Forall update_event e4 ∧
            ev = e_enc :: e_draw :: e3 ++ e4 ∧
            r = match r4 with
                | Raise x => Raise x
                | Ok _ =>
                  if ab then Ok (Scalar (crit3 crit (outputs st) target))
                  else match sample_losses crit (outputs st) target
                               (seq 0 (length (outputs st))) with
                       | Ok ls => Ok (PerSample ls)
                       | Raise x => Raise x
                       end
                end
        end
  end.
Proof.
  rewrite loss_batch_eq. cbn zeta.
  destruct (get_t 0 target) as [first|]; [|by intros [= <- <- <-]].
  destruct (negb ab && opts); [by intros [= <- <- <-]|].
  destruct (decode_loop _ _ _ _ _ _ _ _ _) as [[rl w3] e3] eqn:Hloop.
  pose proof (decode_loop_world _ _ _ _ _ _ _ _ _ _ _ _ Hloop) as ->.
  intros H. exists rl, e3. split; [done|].
  destruct rl as [st|x]; [|by injection H as <- <- <-].
  destruct opts.
  - destruct (optimize _ _ _ _ _ _) as [[r4 w4] e4] eqn:Ho.
    exists r4, e4. pose proof (optimize_events _ _ _ _ _ _ _ _ _ Ho) as He4.
    destruct r4 as [[]|x4]; [|by injection H as <- <- <-].
    destruct ab; [by injection H as <- <- <-|].
    destruct (sample_losses _ _ _ _); by injection H as <- <- <-.
  - exists (Ok tt), []. cbn [ret] in H.
    destruct ab; [by injection H as <- <- <-|].
    destruct (sample_losses _ _ _ _); by injection H as <- <- <-.
Qed.

End LossBatchEquation.

(** ** Evaluating the model on concrete inputs *)

Lemma Reqb_refl (a : R) : Reqb a a = true.
Proof. by apply Reqb_eq. Qed.

Lemma Rltb_true (a b : R) : (a < b)%R → Rltb a b = true.
Proof. apply Rltb_lt. Qed.

(** Runs a closed computation of the model: the equations of [loss_batch]
    and of the loop unfold it, comparisons of real constants are decided by
    [lra], the rest by conversion. *)
#[global] Arguments decode_loop : simpl never.
#[global] Arguments loss_batch : simpl never.

Ltac run_model :=
  repeat first
    [ rewrite loss_batch_eq
    | rewrite decode_loop_step
    | rewrite decode_loop_nil
    | rewrite optimize_eq
    | rewrite Reqb_refl
    | rewrite Reqb_neq by lra
    | rewrite Rltb_true by lra
    | rewrite Rltb_ge by lra
    | progress cbn
    | progress unfold bind ].

Section EarlyStopExamples.
#[local] Existing Instance ext_eos1.

(** One sample of three timesteps; the decoder returns zero at timestep 1:
    it is called at timesteps 0 and 1 only, and [outputs] is zero from
    timestep 1 on. *)
Lemma eos_stops_unrolling_witness :
  let ev :=
    [EvDecoder 0 [[1%R]] [[(1 + 1)%R]]; EvWrite 0 [[(1 + 1)%R]];
     EvDecoder 1 [[(1 + 1)%R]] [[0%R]]; EvWrite 1 [[0%R]]] in
  let r := Ok (Unroll [[(1 + 1)%R]] 2%nat [[[(1 + 1)%R]; [0%R]; [0%R]]]) in
  (∀ t i' o', In (EvDecoder t i' o') ev → t ≤ 1) ∧
  (∀ st, r = Ok st →
     ∀ b t f v, 1 ≤ t → entry (outputs st) b t f = Some v → v = 0%R).
Proof.
  intros ev r.
  apply (eos_stops_unrolling (ext := ext_eos1) [[[5%R]; [5%R]; [5%R]]] tt [[5%R]] false false 3
           (ones_like [[5%R]]) 0%nat w_eos1 r w_eos1 ev 1
           [[(1 + 1)%R]] [[0%R]]).
  - run_model. reflexivity.
  - simpl. tauto.
  - run_model. reflexivity.
Defined.

End EarlyStopExamples.

(** ** Training loaders with fewer than ten batches *)

Section ShortLoader.
Context {ext : Externals}.

(** C9, as the code has it.  When the training loader has at least one and
    fewer than ten batches and at least one epoch is asked for, [fit] runs
    [loss_batch] on the first batch of the first epoch and, if that call
    returns, raises [ZeroDivisionError] right after it, at the test of line
    157: nothing else is run, so no epoch completes.  If the call raises,
    [fit] raises the same exception. *)
Theorem fit_short_loader_divides_by_zero
    epochs data rest val dropped tc vcs ratio ua nq rate w :
  (0 < epochs)%nat → (length (data :: rest) < 10)%nat →
  fit epochs (data :: rest, val) dropped tc vcs ratio ua nq rate w =
  match loss_batch data true tc 0 ua nq true w with
  | (Ok _, w1, e1) => (Raise ZeroDivisionError, w1, e1)
  | (Raise x, w1, e1) => (Raise x, w1, e1)
  end.
Proof.
  intros He Hlen. destruct epochs as [|n]; [lia|].
  unfold fit. rewrite <- cons_seq. cbn [epoch_loop first_sample].
  unfold run_epoch. cbn [train_loop].
  rewrite (Nat.div_small _ 10 Hlen). cbn [Nat.eqb].
  unfold bind at 1. cbn [ret app].
  unfold bind at 1 2 3 4.
  destruct (loss_batch data true tc 0 ua nq true w) as [[[l|x] w1] e1];
    [|done].
  unfold bind, raise. by rewrite app_nil_r.
Qed.

End ShortLoader.

Section ShortLoaderExamples.
#[local] Existing Instance ext_plus.

Lemma fit_short_loader_divides_by_zero_witness :
  (0 < 1)%nat ∧ (length [([[[1%R]]], [[[1%R]]])] < 10)%nat ∧
  fit 1 ([([[[1%R]]], [[[1%R]]])], []) 0 (mean_criterion sq_err) [] 0
    false false 1 w_plus =
  match
    loss_batch ([[[1%R]]], [[[1%R]]]) true (mean_criterion sq_err) 0
      false false true w_plus
  with
  | (Ok _, w1, e1) => (Raise ZeroDivisionError, w1, e1)
  | (Raise x, w1, e1) => (Raise x, w1, e1)
  end.
Proof.
  split; [lia|]. split; [simpl; lia|].
  apply (fit_short_loader_divides_by_zero 1 ([[[1%R]]], [[[1%R]]]) [] [] 0
           (mean_criterion sq_err) [] 0 false false 1 w_plus);
    simpl; lia.
Defined.

(** C9 as stated fails for the loader with no batch at all, which has fewer
    than ten batches (here the loader of a dataset of one sample, which it
    leaves out): the body of the training loop is never run, the mean of
    the empty list of losses is NaN, and [fit] completes its epoch, saves
    the model and returns. *)
Lemma fit_empty_loader_returns :
  let v := np_mean [crit3 (sum_criterion sq_err) [[[(1 + 1)%R]]] [[[2%R]]]] in
  let saved := Checkpoint (ext := ext_plus) 0%nat 0%nat 0%nat 0%nat in
  fit 1 ([], [([[[7%R]]], [[[2%R]]])]) 1 (sum_criterion sq_err)
    [sum_criterion sq_err] 0 false false 1 w_plus =
  (Ok tt,
   World (ext := ext_plus) 0%nat 0%nat false false 0%nat 0%nat [] 1
     (Some saved),
   [EvEncoder [[[7%R]]]; EvDraw (/ 2) 0;
    EvDecoder 0 [[1%R]] [[(1 + 1)%R]]; EvWrite 0 [[(1 + 1)%R]];
    EvInfoSummary 0 NaN [v]; EvSave 0 saved]).
Proof.
  intros v saved.
  unfold fit, epoch_loop, run_epoch, val_pass, validation.
  run_model. reflexivity.
Qed.

End ShortLoaderExamples.

(** ** The inputs given to the decoder *)

Section DecoderInputs.
Context {ext : Externals}.

(** An induction principle on the events of the unrolling loop: [Inv t din ev]
    is to hold of the events [ev] of a loop that starts at timestep [t] with
    decoder input [din]. *)
Lemma decode_loop_events_ind target EOS (tf nq : bool)
    (Inv : nat → tensor2 → list event → Prop) :
  (∀ (t : nat) (din : tensor2), Inv t din []) →
  (∀ (t : nat) (din o : tensor2), Inv t din [EvDecoder t din o]) →
  (∀ (t : nat) (din o out : tensor2),
     (if nq then quat_normalize o else Ok o) = Ok out →
     Inv t din [EvDecoder t din o; EvWrite t out]) →
  (∀ (t : nat) (din o out tgt : tensor2) (e2 : list event),
     get_t t target = Some tgt →
     (if nq then quat_normalize o else Ok o) = Ok out →
     Inv (S t) (if tf then tgt else out) e2 →
     Inv t din (EvDecoder t din o :: EvWrite t out :: e2)) →
  ∀ enc ua m t0 st w r w' ev,
    decode_loop target enc EOS tf ua nq (seq t0 m) st w = (r, w', ev) →
    Inv t0 (decoder_input st) ev.
Proof.
  intros Hnil Hcall Hbreak Hstep enc ua m.
  induction m as [|m IH]; intros t0 st w r w' ev.
  - intros [= <- <- <-]. apply Hnil.
  - rewrite <- cons_seq, decode_loop_step. cbn zeta.
    destruct (decoder_forward _ _ _ _ _) as [dout hid']. cbn [fst snd].
    destruct (get_t t0 target) as [tgt|] eqn:Htgt;
      [|intros [= <- <- <-]; apply Hcall].
    destruct (if nq then _ else _) as [out|] eqn:Hout;
      [|intros [= <- <- <-]; apply Hcall].
    destruct (set_t _ _ _) as [outs'|]; [|intros [= <- <- <-]; apply Hcall].
    destruct tf; [|destruct (all_eq _ _)].
    + destruct (decode_loop _ _ _ _ _ _ _ _ _) as [[r2 w2] e2] eqn:H2.
      intros [= <- <- <-]. eapply Hstep; [done..|]. by apply IH in H2.
    + intros [= <- <- <-]. by apply Hbreak.
    + destruct (decode_loop _ _ _ _ _ _ _ _ _) as [[r2 w2] e2] eqn:H2.
      intros [= <- <- <-]. eapply Hstep; [done..|]. by apply IH in H2.
Qed.




End DecoderInputs.

Section SingleDraw.
Context {ext : Externals}.


End SingleDraw.

Section SingleDrawExamples.
#[local] Existing Instance ext_plus.



End SingleDrawExamples.

(** ** The range of the unrolling loop *)

Section LoopRange.
Context {ext : Externals}.

Lemma loss_batch_timesteps input target opts crit ratio ua nq ab w r w' ev t i o :
  loss_batch (input, target) opts crit ratio ua nq ab w = (r, w', ev) →
  In (EvDecoder t i o) ev → t < shape1 input.
Proof.
  intros Hrun%loss_batch_inv. cbn zeta in Hrun.
  destruct (get_t 0 target) as [first|];
    [|by destruct Hrun as (_ & _ & ->); intros [[=]|[]]].
  destruct (negb ab && opts);
    [by destruct Hrun as (_ & _ & ->); intros [[=]|[[=]|[[=]|[]]]]|].
  destruct Hrun as (res & e3 & Hloop & Hrun).
  assert (Hin3 : In (EvDecoder t i o) e3 → t < shape1 input).
  { intros Hin.
    pose proof (decode_loop_timesteps _ _ _ _ _ _ _ _ _ _ _ _ _ _ _ _ Hloop Hin).
    lia. }
  destruct res as [st|x].
  - destruct Hrun as (r4 & e4 & _ & He4 & -> & _).
    intros [[=]|[[=]|Hin]]. apply in_app_or in Hin as [Hin|Hin]; [auto|].
    rewrite Forall_forall in He4. by destruct (He4 _ Hin).
  - destruct Hrun as (_ & _ & ->). intros [[=]|[[=]|Hin]]; auto.
Qed.

End LoopRange.

Section LoopRangeExamples.
#[local] Existing Instance ext_plus.

(** C3 on the code.  The unrolling loop ranges over the timesteps of the
    input batch ([seq_length = input_batch.shape[1]]), not of the target:
    the decoder is only ever called at timesteps below the input length.
    With an input of two timesteps and a target of one, the call raises
    [IndexError] at [target_batch[:, 1, :]], after the decoder was called for
    timestep 1; with an input of one timestep and a target of two, the call
    returns after a single decoder step and timestep 1 of [outputs] is never
    produced. *)
Theorem unrolling_follows_input_length :
  (∀ (ext : Externals) input target opts crit ratio ua nq ab w t i o,
     In (EvDecoder t i o)
        (loss_batch (input, target) opts crit ratio ua nq ab w).2 →
     t < shape1 input) ∧
  loss_batch ([[[7%R]; [8%R]]], [[[2%R]]]) false (sum_criterion sq_err) 0
    false false true w_plus =
  (Raise IndexError, with_rng 1 w_plus,
   [EvEncoder [[[7%R]]; [[8%R]]]; EvDraw (/ 2) 0;
    EvDecoder 0 [[1%R]] [[(1 + 1)%R]]; EvWrite 0 [[(1 + 1)%R]];
    EvDecoder 1 [[(1 + 1)%R]] [[(1 + 1 + 1)%R]]]) ∧
  loss_batch ([[[7%R]]], [[[2%R]; [3%R]]]) false (sum_criterion sq_err) 0
    false false true w_plus =
  (Ok (Scalar (crit3 (sum_criterion sq_err)
                 [[[(1 + 1)%R]; [0%R]]] [[[2%R]; [3%R]]])),
   with_rng 1 w_plus,
   [EvEncoder [[[7%R]]]; EvDraw (/ 2) 0;
    EvDecoder 0 [[1%R]] [[(1 + 1)%R]]; EvWrite 0 [[(1 + 1)%R]]]).
Proof.
  split; [|split].
  - intros ext input target opts crit ratio ua nq ab w t i o Hin.
    destruct (loss_batch _ _ _ _ _ _ _ _) as [[r w'] ev] eqn:Hrun.
    by eapply loss_batch_timesteps.
  - run_model. reflexivity.
  - run_model. reflexivity.
Qed.

End LoopRangeExamples.

(** ** Model selection *)

Section FloatOrder.

Lemma xltb_trans a b c : xltb a b = true → xltb b c = true → xltb a c = true.
Proof.
  destruct a as [x| | |], b as [y| | |], c as [z| | |]; cbn; try done.
  intros H1%Rltb_lt H2%Rltb_lt. apply Rltb_lt. lra.
Qed.

(** When [a] is a number that is not below [b], what is below [b] is below
    [a]. *)
Lemma xltb_below_geq u a b :
  xltb u b = true → xltb a b = false → a ≠ NaN → xltb u a = true.
Proof.
  destruct u as [x| | |], a as [y| | |], b as [z| | |]; cbn; try done.
  intros H1%Rltb_lt H2 _. apply Rltb_lt.
  destruct (Rlt_dec y z) as [Hlt|Hge]; [|lra].
  apply Rltb_lt in Hlt. congruence.
Qed.

Lemma xltb_not_nan a b : xltb a b = true → a ≠ NaN.
Proof. by destruct a. Qed.

End FloatOrder.

Section Selection.
Context {ext : Externals}.

Lemma passes_no_selection :
  pass_sat (λ _ _ ev, Forall (λ e, ¬ selection_event e) ev).
Proof.
  apply pass_sat_events; [|by intros i l []].
  intros e He Hs. by destruct e.
Qed.

Lemma in_tail_selection (e : event) (e0 tail : list event) :
  selection_event e → Forall (λ e, ¬ selection_event e) e0 →
  In e (e0 ++ tail) → In e tail.
Proof.
  intros Hs H0 [Hin|Hin]%in_app_or; [|done].
  rewrite Forall_forall in H0. by destruct (H0 _ Hin).
Qed.

Lemma no_selection_no_save ev :
  Forall (λ e, ¬ selection_event e) ev → Forall (λ e, ¬ save_event e) ev.
Proof.
  intros H. eapply Forall_impl; [|exact H]. intros e He Hs. apply He.
  by destruct e.
Qed.

Section Epoch.
Variables (tr val : list batch) (tc : criterion) (vcs : list criterion).
Variables (ua nq : bool) (rate : R).

(** [np.sum(l) / len(l)] is the mean of the losses of the pass. *)
Lemma np_mean_of_pass l : np_mean l = mean_of_pass l.
Proof. by destruct l. Qed.

(** An epoch saves what it submits to the model selection, and saves it
    exactly when its mean is below the best mean held by the loop; it
    raises when it has nothing to submit. *)
Lemma run_epoch_candidate e st w r w' ev :
  run_epoch tr val tc vcs ua nq rate e st w = (r, w', ev) →
  match epoch_candidate tr val tc vcs ua nq w with
  | Some (v, cp) =>
      ∃ ev0 ratio', Forall (λ e, ¬ save_event e) ev0 ∧
        if xltb v (min_val_loss st)
        then r = Ok (FitState ratio' v) ∧ ev = ev0 ++ [EvSave e cp]
        else r = Ok (FitState ratio' (min_val_loss st)) ∧ ev = ev0
  | None => (∃ x, r = Raise x) ∧ Forall (λ e, ¬ save_event e) ev
  end.
Proof.
  unfold run_epoch, epoch_candidate, bind.
  destruct (train_loop _ _ _ _ _ _ _ w) as [[[losses|x] w1] e1] eqn:Htr.
  2:{ intros [= <- <- <-]. split; [eauto|]. apply no_selection_no_save.
      eapply (train_loop_sat (λ _ _ ev, Forall (λ e, ¬ selection_event e) ev)),
        Htr. apply passes_no_selection. }
  apply (train_loop_sat (λ _ _ ev, Forall (λ e, ¬ selection_event e) ev))
    in Htr; [|apply passes_no_selection]. apply no_selection_no_save in Htr.
  destruct vcs as [|vc0 others].
  { cbn. unfold step_schedulers. destruct (step_all _ _ _) as [[ss oA] oB].
    cbn. intros [= <- <- <-]. split; [eauto|].
    rewrite ?app_nil_r. apply Forall_app. split; [done|].
    constructor; [intros []|constructor]. }
  cbn [validation]. unfold bind.
  destruct (val_pass _ _ _ _ w1) as [[[l0|x] w2] e2] eqn:Hv0.
  2:{ intros [= <- <- <-]. split; [eauto|]. apply Forall_app. split; [done|].
      apply no_selection_no_save.
      eapply (val_pass_sat (λ _ _ ev, Forall (λ e, ¬ selection_event e) ev)),
        Hv0. apply passes_no_selection. }
  apply (val_pass_sat (λ _ _ ev, Forall (λ e, ¬ selection_event e) ev))
    in Hv0; [|apply passes_no_selection]. apply no_selection_no_save in Hv0.
  destruct (validation _ _ _ _ w2) as [[[vl|x] w3] e3] eqn:Hval.
  2:{ intros [= <- <- <-]. split; [eauto|]. repeat (apply Forall_app; split);
        try done. apply no_selection_no_save.
      eapply (validation_sat (λ _ _ ev, Forall (λ e, ¬ selection_event e) ev)),
        Hval. apply passes_no_selection. }
  apply (validation_sat (λ _ _ ev, Forall (λ e, ¬ selection_event e) ev))
    in Hval; [|apply passes_no_selection]. apply no_selection_no_save in Hval.
  cbn [ret]. unfold step_schedulers.
  destruct (step_all _ _ _) as [[ss oA] oB]. cbn.
  rewrite <- (np_mean_of_pass l0).
  set (ev0 := e1 ++ ((e2 ++ e3 ++ []) ++ [])).
  assert (H0 : Forall (λ e, ¬ save_event e) ev0).
  { unfold ev0. rewrite !app_nil_r. by repeat (apply Forall_app; split). }
  destruct (xltb (np_mean l0) (min_val_loss st)); cbn; intros [= <- <- <-].
  - eexists (ev0 ++ [EvInfoSummary e (np_mean losses) (np_mean l0 :: vl)]), _.
    split; [apply Forall_app; split;
              [done|constructor; [intros []|constructor]]|].
    split; [done|]. unfold ev0. by rewrite !app_nil_r, <- !app_assoc.
  - eexists (ev0 ++ [EvInfoSummary e (np_mean losses) (np_mean l0 :: vl)]), _.
    split; [apply Forall_app; split;
              [done|constructor; [intros []|constructor]]|].
    split; [done|]. unfold ev0. by rewrite !app_nil_r, <- !app_assoc.
Qed.

(** The epochs run one after the other. *)
Lemma epoch_loop_app es1 es2 st w :
  epoch_loop tr val tc vcs ua nq rate (es1 ++ es2) st w =
  bind (epoch_loop tr val tc vcs ua nq rate es1 st)
       (epoch_loop tr val tc vcs ua nq rate es2) w.
Proof.
  revert st w. induction es1 as [|e es1 IH]; intros st w.
  - cbn. unfold bind. cbn.
    by destruct (epoch_loop _ _ _ _ _ _ _ es2 st w) as [[r w'] ev].
  - cbn [app epoch_loop]. unfold bind at 1 2 3.
    destruct (run_epoch _ _ _ _ _ _ _ e st w) as [[[st1|x] w1] e1]; [|done].
    rewrite IH. unfold bind.
    destruct (epoch_loop _ _ _ _ _ _ _ es1 st1 w1) as [[[st2|x] w2] e2];
      [|done].
    destruct (epoch_loop _ _ _ _ _ _ _ es2 st2 w2) as [[r3 w3] e3].
    by rewrite app_assoc.
Qed.

End Epoch.

End Selection.

Section SelectionLoop.
Context {ext : Externals}.
Variables (tr val : list batch) (tc : criterion) (vcs : list criterion).
Variables (ratio : R) (ua nq : bool) (rate : R).

#[local] Abbreviation loop es st w :=
  (epoch_loop tr val tc vcs ua nq rate es st w).
#[local] Abbreviation cand e w0 :=
  (match loop (seq 0 e) (FitState ratio PosInf) w0 with
   | (Ok _, w_e, _) => epoch_candidate tr val tc vcs ua nq w_e
   | (Raise _, _, _) => None
   end).

Lemma epoch_loop_one e st w :
  loop [e] st w =
  let '(r, w', ev) := run_epoch tr val tc vcs ua nq rate e st w in (r, w', ev).
Proof.
  cbn [epoch_loop]. unfold bind.
  destruct (run_epoch _ _ _ _ _ _ _ e st w) as [[[st'|x] w'] ev]; [|done].
  cbn. by rewrite app_nil_r.
Qed.

Lemma in_save_app e cp (e1 ev0 tail : list event) :
  Forall (λ e, ¬ save_event e) ev0 →
  In (EvSave e cp) (e1 ++ ev0 ++ tail) ↔
  In (EvSave e cp) e1 ∨ In (EvSave e cp) tail.
Proof.
  intros H0. rewrite Forall_forall in H0. split.
  - intros [Hin|[Hin|Hin]%in_app_or]%in_app_or; auto.
    by destruct (H0 _ Hin).
  - intros [Hin|Hin]; apply in_or_app; [by left|].
    right. apply in_or_app. by right.
Qed.

(** The saves of the first [n] epochs, and the best mean that the loop
    holds after them. *)
Lemma epoch_loop_saves n w0 :
  ∀ r w' ev,
  loop (seq 0 n) (FitState ratio PosInf) w0 = (r, w', ev) →
  (∀ e cp, In (EvSave e cp) ev ↔
     e < n ∧
     ∃ v, cand e w0 = Some (v, cp) ∧ xltb v PosInf = true ∧
          ∀ e' v' cp', e' < e → cand e' w0 = Some (v', cp') → v' ≠ NaN →
                       xltb v v' = true) ∧
  (∀ st, r = Ok st →
     ∀ v, xltb v (min_val_loss st) = true ↔
          xltb v PosInf = true ∧
          ∀ e' v' cp', e' < n → cand e' w0 = Some (v', cp') → v' ≠ NaN →
                       xltb v v' = true).
Proof.
  induction n as [|n IH]; intros r w' ev.
  { intros [= <- <- <-]. split.
    - intros e cp. split; [done|]. intros [? _]. lia.
    - intros st [= <-] v. cbn [min_val_loss]. split; [|by intros [? _]].
      intros Hv. split; [done|]. intros; lia. }
  rewrite seq_S, epoch_loop_app. cbn [plus]. intros Hrun.
  apply bind_inv in Hrun
    as [(st1 & w1 & e1 & e2 & Hpre & Hlast & ->)|(x & Hpre & ->)].
  - (* the first [n] epochs return *)
    destruct (IH _ _ _ Hpre) as [IH1 IH2]. specialize (IH2 st1 eq_refl).
    assert (Hcn : cand n w0 = epoch_candidate tr val tc vcs ua nq w1)
      by by rewrite Hpre.
    rewrite epoch_loop_one in Hlast.
    destruct (run_epoch _ _ _ _ _ _ _ n st1 w1) as [[r2 w2] e2'] eqn:Hep.
    injection Hlast as <- <- <-.
    apply run_epoch_candidate in Hep. rewrite <- Hcn in Hep.
    destruct (cand n w0) as [[v cp]|] eqn:Hc.
    + destruct Hep as (ev0 & ratio' & H0 & Hep).
      destruct (xltb v (min_val_loss st1)) eqn:Hlt.
      * (* the mean of epoch [n] is below the best mean: saved *)
        destruct Hep as [-> ->]. pose proof (proj1 (IH2 v) Hlt) as [Hinf Hall].
        split.
        -- intros e c. rewrite in_save_app by done. split.
           ++ intros [Hin|[[= <- <-]|[]]].
              ** apply IH1 in Hin as (Hlt' & Hrest). split; [lia|done].
              ** split; [lia|]. exists v. by rewrite Hc.
           ++ intros (Hlt' & v' & Hv' & Hinf' & Hall').
              destruct (decide (e = n)) as [->|Hne].
              ** rewrite Hc in Hv'. injection Hv' as <- <-. right. by left.
              ** left. apply IH1. split; [lia|]. by exists v'.
        -- intros st [= <-] u. cbn [min_val_loss]. split.
           ++ intros Hu.
              destruct (proj1 (IH2 u) (xltb_trans _ _ _ Hu Hlt)) as [Hui Hua].
              split; [done|]. intros e' v' cp' Hlt' Hv' Hnan.
              destruct (decide (e' = n)) as [->|Hne].
              ** rewrite Hc in Hv'. by injection Hv' as <- <-.
              ** eapply Hua; [|done..]. lia.
           ++ intros [_ Hua]. eapply (Hua n); [lia|done|].
              by eapply xltb_not_nan.
      * (* it is not: nothing saved *)
        destruct Hep as [-> ->]. split.
        -- intros e c. rewrite <- (app_nil_r ev0), in_save_app by done. split.
           ++ intros [Hin|[]]. apply IH1 in Hin as (Hlt' & Hrest).
              split; [lia|done].
           ++ intros (Hlt' & v' & Hv' & Hinf' & Hall').
              destruct (decide (e = n)) as [->|Hne].
              ** rewrite Hc in Hv'. injection Hv' as <- <-.
                 assert (xltb v (min_val_loss st1) = true); [|congruence].
                 apply IH2. split; [done|]. intros e' v' cp' He'. by apply Hall'.
              ** left. apply IH1. split; [lia|]. by exists v'.
        -- intros st [= <-] u. cbn [min_val_loss]. split.
           ++ intros Hu. destruct (proj1 (IH2 u) Hu) as [Hui Hua].
              split; [done|]. intros e' v' cp' Hlt' Hv' Hnan.
              destruct (decide (e' = n)) as [->|Hne].
              ** rewrite Hc in Hv'. injection Hv' as <- <-.
                 eapply xltb_below_geq; [exact Hu|exact Hlt|exact Hnan].
              ** eapply Hua; [|done..]. lia.
           ++ intros [Hui Hua]. apply IH2. split; [done|].
              intros e' v' cp' Hlt'. apply Hua. lia.
    + (* the epoch raises *)
      destruct Hep as [[x ->] H0]. split; [|done].
      intros e c. rewrite <- (app_nil_r e2'), in_save_app by done. split.
      * intros [Hin|[]]. apply IH1 in Hin as (Hlt' & Hrest). split; [lia|done].
      * intros (Hlt' & v' & Hv' & Hinf' & Hall').
        destruct (decide (e = n)) as [->|Hne]; [by rewrite Hc in Hv'|].
        left. apply IH1. split; [lia|]. by exists v'.
  - (* one of the first [n] epochs raises *)
    destruct (IH _ _ _ Hpre) as [IH1 _]. split; [|done].
    intros e c. split.
    + intros Hin. apply IH1 in Hin as (Hlt' & Hrest). split; [lia|done].
    + intros (Hlt' & v' & Hv' & Hinf' & Hall').
      destruct (decide (e = n)) as [->|Hne]; [by rewrite Hpre in Hv'|].
      apply IH1. split; [lia|]. by exists v'.
Qed.

End SelectionLoop.

Section SelectionFile.
Context {ext : Externals}.

#[local] Instance last_save_compositional :
  Compositional (λ w w' ev, model_file w' = last_save (model_file w) ev).
Proof.
  split; [done|]. intros w w1 w2 e1 e2 H1 H2.
  unfold last_save in *. by rewrite foldl_app, <- H1.
Qed.

Lemma steps_keep_file opts ratio :
  step_sat (λ w w' ev, model_file w' = last_save (model_file w) ev) opts ratio.
Proof.
  split; intros; try (intros w r w' ev; by intros [= <- <- <-]).
  apply optimize_sat; [typeclasses eauto|..].
  - intros w r w' ev. by intros [= <- <- <-].
  - intros g w r w' ev. unfold step_encoder.
    destruct (optimizer_step _ _ g) as [[r1 o1] p1]. by intros [= <- <- <-].
  - intros g w r w' ev. unfold step_decoder.
    destruct (optimizer_step _ _ g) as [[r1 o1] p1]. by intros [= <- <- <-].
Qed.

Lemma fit_keeps_file :
  fit_sat (λ w w' ev, model_file w' = last_save (model_file w) ev).
Proof.
  split; [split|..]; intros; try apply steps_keep_file;
    intros w r w' ev; try by intros [= <- <- <-].
  unfold step_schedulers. destruct (step_all _ _ _) as [[ss oA] oB].
  by intros [= <- <- <-].
Qed.

Lemma first_sample_inv tr dropped w r w' ev :
  first_sample tr dropped w = (r, w', ev) → w' = w ∧ ev = [].
Proof.
  unfold first_sample. by destruct tr, dropped; intros [= <- <- <-].
Qed.

(** What decides the saves of a run of [fit]. *)
Lemma fit_saves epochs tr val dropped tc vcs ratio ua nq rate w r w' ev :
  fit epochs (tr, val) dropped tc vcs ratio ua nq rate w = (r, w', ev) →
  ∀ e cp, In (EvSave e cp) ev ↔
    e < epochs ∧
    ∃ v, validated tr val dropped tc vcs ratio ua nq rate e w = Some (v, cp) ∧
         xltb v PosInf = true ∧
         ∀ e' v' cp',
           e' < e →
           validated tr val dropped tc vcs ratio ua nq rate e' w
             = Some (v', cp') →
           v' ≠ NaN → xltb v v' = true.
Proof.
  unfold fit, validated, epoch_start.
  destruct (first_sample tr dropped w) as [[[[]|x] w0] e0] eqn:Hfirst.
  2:{ unfold bind. rewrite Hfirst. intros [= <- <- <-] e cp.
      apply first_sample_inv in Hfirst as [_ ->].
      split; [by intros []|by intros (_ & v & [=] & _)]. }
  apply first_sample_inv in Hfirst as Hinv. destruct Hinv as [-> ->].
  unfold bind at 1. rewrite Hfirst. cbn [app].
  intros Hrun e cp.
  assert (Hloop : ∃ r0,
    epoch_loop tr val tc vcs ua nq rate (seq 0 epochs)
      (FitState ratio PosInf) w = (r0, w', ev)).
  { destruct (bind _ _ w) as [[r1 w1] e1] eqn:Hb. injection Hrun as <- <- <-.
    apply bind_inv in Hb
      as [(st' & w2 & e2 & e3 & Hloop & [= <- <- <-] & ->)|(x & Hloop & ->)];
      rewrite ?app_nil_r; eauto. }
  destruct Hloop as [r0 Hloop].
  destruct (epoch_loop_saves tr val tc vcs ratio ua nq rate epochs w _ _ _ Hloop)
    as [Hsaves _].
  rewrite Hsaves. split; intros (Hlt & v & Hv & Hinf & Hall); (split; [done|]);
    exists v; (split; [|split; [done|]]).
  - cbn. by destruct (epoch_loop _ _ _ _ _ _ _ (seq 0 e) _ w) as [[[]]].
  - intros e' v' cp' He' Hv' Hnan. eapply Hall; [done| |done].
    cbn in Hv'. by destruct (epoch_loop _ _ _ _ _ _ _ (seq 0 e') _ w) as [[[]]].
  - cbn in Hv. by destruct (epoch_loop _ _ _ _ _ _ _ (seq 0 e) _ w) as [[[]]].
  - intros e' v' cp' He' Hv' Hnan. eapply Hall; [done| |done].
    cbn. by destruct (epoch_loop _ _ _ _ _ _ _ (seq 0 e') _ w) as [[[]]].
Qed.

(** C5, as the code has it.  In every run of [fit], complete or
    interrupted, a checkpoint is written at the end of epoch [e] exactly
    when the mean of validation criterion 0 over the validation loader in
    epoch [e] is strictly below infinity and strictly below that mean of
    every earlier epoch in which it is not NaN; what is written are the
    state dictionaries of the models and optimizers as the epoch leaves
    them; and the file at [model_file_path] holds in the end what the last
    save wrote. *)
Theorem checkpoint_iff_below_best
    epochs tr val dropped tc vcs ratio ua nq rate w r w' ev :
  fit epochs (tr, val) dropped tc vcs ratio ua nq rate w = (r, w', ev) →
  (∀ e cp, In (EvSave e cp) ev ↔
     e < epochs ∧
     ∃ v, validated tr val dropped tc vcs ratio ua nq rate e w
            = Some (v, cp) ∧
          xltb v PosInf = true ∧
          ∀ e' v' cp',
            e' < e →
            validated tr val dropped tc vcs ratio ua nq rate e' w
              = Some (v', cp') →
            v' ≠ NaN → xltb v v' = true) ∧
  model_file w' = last_save (model_file w) ev.
Proof.
  intros Hfit. split; [by eapply fit_saves|].
  eapply (fit_sat_all (λ w w' ev, model_file w' = last_save (model_file w) ev)),
    Hfit. apply fit_keeps_file.
Qed.

End SelectionFile.

Section SelectionExamples.
#[local] Existing Instance ext_warmup.

(** Two epochs of ten training batches and one validation batch.  The
    decoder returns zero in the validation pass of epoch 0, on which the
    validation loss is NaN, and no longer in that of epoch 1. *)
Lemma warmup_run :
  ∃ w' ev,
    fit 2 (unit_loader 10, unit_loader 1) 0 (sum_criterion sq_err)
      [direction_criterion] 0 false false 1 w_warmup = (Ok tt, w', ev) ∧
    In (EvSave 1 (Checkpoint (ext := ext_warmup) 20 20 22 22)) ev.
Proof.
  eexists _, _. split.
  - unfold fit, unit_loader, epoch_loop, run_epoch, train_loop, val_pass, validation.
    run_model. reflexivity.
  - cbn. tauto.
Qed.

Lemma warmup_first_mean :
  validated (unit_loader 10) (unit_loader 1) 0 (sum_criterion sq_err)
    [direction_criterion] 0 false false 1 0 w_warmup =
  Some (NaN, Checkpoint (ext := ext_warmup) 10 10 11 11).
Proof.
  unfold validated, epoch_start, epoch_candidate, unit_loader, train_loop,
    val_pass, validation.
  run_model. reflexivity.
Qed.

Lemma checkpoint_iff_below_best_witness :
  ∃ w' ev,
    fit 2 (unit_loader 10, unit_loader 1) 0 (sum_criterion sq_err)
      [direction_criterion] 0 false false 1 w_warmup = (Ok tt, w', ev) ∧
    (∀ e cp, In (EvSave e cp) ev ↔
       e < 2 ∧
       ∃ v, validated (unit_loader 10) (unit_loader 1) 0
              (sum_criterion sq_err) [direction_criterion] 0 false false 1
              e w_warmup = Some (v, cp) ∧
            xltb v PosInf = true ∧
            ∀ e' v' cp',
              e' < e →
              validated (unit_loader 10) (unit_loader 1) 0
                (sum_criterion sq_err) [direction_criterion] 0 false false 1
                e' w_warmup = Some (v', cp') →
              v' ≠ NaN → xltb v v' = true) ∧
    model_file w' = last_save (model_file w_warmup) ev.
Proof.
  destruct warmup_run as (w' & ev & Hrun & _).
  exists w', ev. split; [exact Hrun|].
  exact (checkpoint_iff_below_best (ext := ext_warmup) _ _ _ _ _ _ _ _ _ _ _
           _ _ _ Hrun).
Defined.

(** C5 as stated fails after a mean that is NaN.  In this run the mean of
    validation criterion 0 is NaN in epoch 0 and a number in epoch 1: no
    number is strictly lower than NaN, and yet a checkpoint is written at
    the end of epoch 1. *)
Lemma checkpoint_after_nan_mean :
  ∃ w' ev cp0 v1 cp1,
    fit 2 (unit_loader 10, unit_loader 1) 0 (sum_criterion sq_err)
      [direction_criterion] 0 false false 1 w_warmup = (Ok tt, w', ev) ∧
    validated (unit_loader 10) (unit_loader 1) 0 (sum_criterion sq_err)
      [direction_criterion] 0 false false 1 0 w_warmup = Some (NaN, cp0) ∧
    validated (unit_loader 10) (unit_loader 1) 0 (sum_criterion sq_err)
      [direction_criterion] 0 false false 1 1 w_warmup = Some (v1, cp1) ∧
    In (EvSave 1 cp1) ev ∧ xltb v1 NaN = false.
Proof.
  destruct warmup_run as (w' & ev & Hrun & Hsave).
  pose proof (proj1 (fit_saves _ _ _ _ _ _ _ _ _ _ _ _ _ _ Hrun _ _) Hsave)
    as (_ & v1 & Hv1 & _).
  eexists w', ev, _, v1, _. split; [exact Hrun|].
  split; [exact warmup_first_mean|]. split; [exact Hv1|]. split; [exact Hsave|].
  by destruct v1.
Qed.

End SelectionExamples.

(** ** Batch loss and per-sample losses *)

Section Shape.
Context {ext : Externals}.

(** The loop keeps the shape of [outputs]. *)
Lemma decode_loop_shape target enc EOS tf ua nq ts st w st' w' ev :
  decode_loop target enc EOS tf ua nq ts st w = (Ok st', w', ev) →
  shape_of (outputs st') = shape_of (outputs st).
Proof.
  revert st ev. induction ts as [|t ts IH]; intros st ev.
  - by intros [= <- <- <-].
  - rewrite decode_loop_step. cbn zeta.
    destruct (get_t t target); [|done].
    destruct (if nq then _ else _); [|done].
    destruct (set_t _ _ _) as [outs'|] eqn:Hset; [|done].
    apply set_t_shape in Hset.
    destruct tf; [|destruct (all_eq _ _)].
    + destruct (decode_loop _ _ _ _ _ _ _ _ _) as [[r2 w2] e2] eqn:H2.
      intros [= -> <- <-]. apply IH in H2. cbn [outputs] in H2. congruence.
    + intros [= <- <- <-]. done.
    + destruct (decode_loop _ _ _ _ _ _ _ _ _) as [[r2 w2] e2] eqn:H2.
      intros [= -> <- <-]. apply IH in H2. cbn [outputs] in H2. congruence.
Qed.

Lemma sample_losses_zip crit (outs target : tensor3) n k :
  k + n = length outs → length outs = length target →
  sample_losses crit outs target (seq k n) =
  Ok (zip_with (crit2 crit) (drop k outs) (drop k target)).
Proof.
  revert k. induction n as [|n IH]; intros k Hk Hlen.
  - simpl. rewrite !drop_ge by lia. done.
  - cbn [seq sample_losses].
    destruct (lookup_lt_is_Some_2 outs k) as [o Ho]; [lia|].
    destruct (lookup_lt_is_Some_2 target k) as [t Ht]; [lia|].
    rewrite Ho, Ht, IH by lia.
    by rewrite (drop_S _ _ _ Ho), (drop_S _ _ _ Ht).
Qed.

End Shape.

Section BatchAndSamples.
Context {ext : Externals}.


End BatchAndSamples.

Section BatchAndSamplesExamples.
#[local] Existing Instance ext_plus.



End BatchAndSamplesExamples.

(** ** Quaternion normalisation *)

Open Scope R_scope.


(** When the number of entries is a multiple of four, the groups hold all
    of them, in order. *)
Lemma concat_view4 (l : list R) :
  (length l mod 4 = 0)%nat → concat (view4 l) = l.
Proof.
  assert (H : ∀ n (l : list R), (length l ≤ n)%nat →
                (length l mod 4 = 0)%nat → concat (view4 l) = l).
  { clear l. induction n as [|n IH]; intros l Hn Hmod.
    - destruct l; [done | simpl in Hn; lia].
    - destruct l as [|a [|b [|c [|d rest]]]]; try done.
      cbn [view4 concat app]. do 4 f_equal. apply IH; [simpl in Hn; lia|].
      change (length (a :: b :: c :: d :: rest)) with (4 + length rest)%nat
        in Hmod.
      replace (4 + length rest)%nat with (length rest + 1 * 4)%nat in Hmod
        by lia.
      by rewrite Nat.Div0.mod_add in Hmod. }
  by apply (H (length l)).
Qed.

Lemma length_concat_sum {A} (x : list (list A)) :
  length (concat x) = sum_list (length <$> x).
Proof.
  induction x as [|s x IH]; [done|]. simpl. by rewrite length_app, IH.
Qed.

Lemma lengths_reshape {A} szs (l : list A) :
  sum_list szs = length l → length <$> reshape szs l = szs.
Proof.
  revert l. induction szs as [|sz szs IH]; intros l Hl; simpl in *; [done|].
  rewrite IH by (rewrite length_drop; lia).
  f_equal. rewrite length_take. lia.
Qed.



Close Scope R_scope.

Section NormaliseTwice.
Context {ext : Externals}.






End NormaliseTwice.

Section NormaliseTwiceExamples.
#[local] Existing Instance ext_plus.
Open Scope R_scope.



Close Scope R_scope.
End NormaliseTwiceExamples.
(** * Further properties of the code *)


(** ** The course of a call of [loss_batch] *)

Section Course.
Context {ext : Externals}.

(** The timesteps decoded by the loop are consecutive from its first one;
    the loop goes through all of them under teacher forcing, and stops
    before the last without teacher forcing only after an output equal to
    the sentinel. *)
Lemma decode_loop_steps target enc EOS tf ua nq n :
  ∀ t0 st w r w' ev,
  decode_loop target enc EOS tf ua nq (seq t0 n) st w = (r, w', ev) →
  ∃ m, m ≤ n ∧ decoder_steps ev = seq t0 m ∧
    (∀ st', r = Ok st' → tf = true → m = n) ∧
    (∀ st', r = Ok st' → tf = false → m < n →
       0 < m ∧ ∃ i o, In (EvDecoder (t0 + m - 1) i o) ev ∧
                      all_eq o EOS = true) ∧
    (∀ x, r = Raise x → 0 < m).
Proof.
  induction n as [|n IH]; intros t0 st w r w' ev.
  { intros [= <- <- <-]. exists 0. repeat split; try done; lia. }
  rewrite <- cons_seq, decode_loop_step. cbn zeta.
  destruct (decoder_forward _ _ _ _ _) as [dout hid']. cbn [fst snd].
  assert (Hstop : ∀ x w0, (Raise x, w0, [EvDecoder t0 (decoder_input st) dout])
                          = (r, w', ev) →
    ∃ m, m ≤ S n ∧ decoder_steps ev = seq t0 m ∧
      (∀ st', r = Ok st' → tf = true → m = S n) ∧
      (∀ st', r = Ok st' → tf = false → m < S n →
         0 < m ∧ ∃ i o, In (EvDecoder (t0 + m - 1) i o) ev ∧
                        all_eq o EOS = true) ∧
      (∀ x, r = Raise x → 0 < m)).
  { intros x w0 [= <- <- <-]. exists 1. repeat split; try done; lia. }
  destruct (get_t t0 target); [|apply Hstop].
  destruct (if nq then _ else _) as [out|]; [|apply Hstop].
  destruct (set_t _ _ _) as [outs'|]; [|apply Hstop].
  assert (Hrec : ∀ st2 r2 w2 e2,
    decode_loop target enc EOS tf ua nq (seq (S t0) n) st2 w = (r2, w2, e2) →
    (tf = false → all_eq dout EOS = false) →
    (r2, w2, EvDecoder t0 (decoder_input st) dout :: EvWrite t0 out :: e2)
      = (r, w', ev) →
    ∃ m, m ≤ S n ∧ decoder_steps ev = seq t0 m ∧
      (∀ st', r = Ok st' → tf = true → m = S n) ∧
      (∀ st', r = Ok st' → tf = false → m < S n →
         0 < m ∧ ∃ i o, In (EvDecoder (t0 + m - 1) i o) ev ∧
                        all_eq o EOS = true) ∧
      (∀ x, r = Raise x → 0 < m)).
  { intros st2 r2 w2 e2 H2 _ [= <- <- <-].
    destruct (IH _ _ _ _ _ _ H2) as (m & Hm & Hsteps & Htf & Hself & Hraise).
    exists (S m). split; [lia|].
    split; [unfold decoder_steps in *; cbn; by rewrite Hsteps|].
    split; [|split].
    - intros st' Hr Ht. f_equal. by eapply Htf.
    - intros st' Hr Ht Hlt.
      destruct (Hself st' Hr Ht) as (Hpos & i & o & Hin & Ho); [lia|].
      split; [lia|]. exists i, o. split; [|done].
      right; right. replace (t0 + S m - 1) with (S t0 + m - 1) by lia. done.
    - intros; lia. }
  destruct tf.
  - destruct (decode_loop _ _ _ _ _ _ _ _ _) as [[r2 w2] e2] eqn:H2.
    by eapply Hrec.
  - destruct (all_eq dout EOS) eqn:Heos.
    + intros [= <- <- <-]. exists 1. split; [lia|]. split; [done|].
      split; [done|]. split; [|done].
      intros st' _ _ _. split; [lia|]. exists (decoder_input st), dout.
      split; [|done]. left. f_equal. lia.
    + destruct (decode_loop _ _ _ _ _ _ _ _ _) as [[r2 w2] e2] eqn:H2.
      by eapply Hrec.
Qed.

End Course.

Section CourseOfACall.
Context {ext : Externals}.

Lemma decoder_steps_call (e_enc e_draw : event) e3 e4 :
  decoder_steps [e_enc; e_draw] = [] → decoder_steps e4 = [] →
  decoder_steps (e_enc :: e_draw :: e3 ++ e4) = decoder_steps e3.
Proof.
  intros H1 H4. change (e_enc :: e_draw :: e3 ++ e4)
    with ([e_enc; e_draw] ++ e3 ++ e4).
  unfold decoder_steps in *. by rewrite !omap_app, H1, H4, app_nil_r.
Qed.

Lemma update_events_no_decoder e4 :
  Forall update_event e4 → decoder_steps e4 = [].
Proof.
  induction 1 as [|e e4 He _ IH]; [done|].
  unfold decoder_steps in *. cbn. rewrite IH. by destruct e.
Qed.

Lemma loss_batch_decoder_steps input target opts crit ratio ua nq ab w r w' ev :
  loss_batch (input, target) opts crit ratio ua nq ab w = (r, w', ev) →
  (r = Raise IndexError ∧ ev = [EvEncoder (permute102 input)]) ∨
  (r = Raise (if sys_in_scope then SystemExit else NameError) ∧
   ev = [EvEncoder (permute102 input);
         EvDraw (random_draws (rng_pos w)) ratio; EvWarning]) ∨
  ∃ first eo eh rl w2 e3,
    get_t 0 target = Some first ∧
    decode_loop target eo (zeros_like first)
      (Rltb (random_draws (rng_pos w)) ratio) ua nq (seq 0 (shape1 input))
      (Unroll (ones_like first) eh (zeros_like3 target)) w2 = (rl, w2, e3) ∧
    decoder_steps ev = decoder_steps e3 ∧
    (∀ t i o, In (EvDecoder t i o) e3 → In (EvDecoder t i o) ev) ∧
    (∀ l, r = Ok l → ∃ st, rl = Ok st).
Proof.
  intros H. apply loss_batch_inv in H. cbn zeta in H.
  destruct (get_t 0 target) as [first|]; [|left; by destruct H as (-> & _ & ->)].
  destruct (negb ab && opts); [right; left; by destruct H as (-> & _ & ->)|].
  destruct H as (rl & e3 & Hloop & H). right; right.
  eexists first, _, _, rl, _, e3. split; [done|]. split; [exact Hloop|].
  destruct rl as [st|x].
  - destruct H as (r4 & e4 & _ & He4 & -> & _).
    split; [by apply decoder_steps_call, update_events_no_decoder|].
    split; [|by eauto]. intros t i o Hin. right; right.
    apply in_or_app. by left.
  - destruct H as (-> & _ & ->). split; [done|]. split; [|done].
    intros t i o Hin. by right; right.
Qed.

(** X3.  In every call of [loss_batch], returning or raising, the decoder is
    called at the timesteps 0, 1, ..., m-1, once each and in this order, for
    some m that is at most the number of timesteps of the input; and when
    the draw selects teacher forcing and the call returns, m is that number:
    an output equal to the sentinel does not stop a teacher-forced loop. *)
Theorem decoded_timesteps_are_consecutive
    input target opts crit ratio ua nq ab w r w' ev :
  loss_batch (input, target) opts crit ratio ua nq ab w = (r, w', ev) →
  ∃ m, m ≤ shape1 input ∧ decoder_steps ev = seq 0 m ∧
       (∀ l, r = Ok l → (random_draws (rng_pos w) < ratio)%R →
             m = shape1 input).
Proof.
  intros H.
  destruct (loss_batch_decoder_steps _ _ _ _ _ _ _ _ _ _ _ _ H)
    as [[-> ->]|[[-> ->]|(first & eo & eh & rl & w2 & e3 & _ & Hloop & Hsteps & _ & Hok)]].
  - exists 0. repeat split; [lia|done].
  - exists 0. repeat split; [lia|done].
  - destruct (decode_loop_steps _ _ _ _ _ _ _ _ _ _ _ _ _ Hloop)
      as (m & Hm & Hseq & Htf & _).
    exists m. split; [done|]. split; [by rewrite Hsteps|].
    intros l Hr Hlt. destruct (Hok _ Hr) as [st ->].
    eapply Htf; [done|]. by apply Rltb_lt.
Qed.

End CourseOfACall.

Section CourseOfACall2.
Context {ext : Externals}.

(** X4.  When the draw does not select teacher forcing and the call returns
    having decoded fewer timesteps than the input has, at least one timestep
    was decoded and the decoder's output of the last one is all zero: the
    self-fed loop stops early only at the sentinel. *)
Theorem self_fed_unroll_stops_only_at_sentinel
    input target opts crit ratio ua nq ab w l w' ev m :
  loss_batch (input, target) opts crit ratio ua nq ab w = (Ok l, w', ev) →
  (ratio <= random_draws (rng_pos w))%R →
  decoder_steps ev = seq 0 m → m < shape1 input →
  0 < m ∧ ∃ i o, In (EvDecoder (m - 1) i o) ev ∧ all_zero o.
Proof.
  intros H Hge Hm Hlt.
  destruct (loss_batch_decoder_steps _ _ _ _ _ _ _ _ _ _ _ _ H)
    as [[[=] _]|[[Hx _]|(first & eo & eh & rl & w2 & e3 & _ & Hloop & Hsteps
                         & Hin & Hok)]]; [by destruct sys_in_scope|].
  destruct (Hok l eq_refl) as [st ->].
  rewrite (Rltb_ge _ _ Hge) in Hloop.
  destruct (decode_loop_steps _ _ _ _ _ _ _ _ _ _ _ _ _ Hloop)
    as (m' & _ & Hseq & _ & Hself & _).
  assert (m' = m) as ->.
  { rewrite Hsteps, Hseq in Hm. apply (f_equal length) in Hm.
    by rewrite !length_seq in Hm. }
  destruct (Hself st eq_refl eq_refl Hlt) as (Hpos & i & o & Hi & Ho).
  split; [done|]. exists i, o. split; [by apply Hin|].
  by eapply all_eq_zero.
Qed.

Lemma decode_loop_no_encoder target enc EOS tf ua nq m t0 st w r w' ev :
  decode_loop target enc EOS tf ua nq (seq t0 m) st w = (r, w', ev) →
  encoder_calls ev = [].
Proof.
  apply (decode_loop_events_ind target EOS tf nq
           (λ _ _ ev, encoder_calls ev = [])); try done.
Qed.

Lemma loss_batch_encoder_first
    input target opts crit ratio ua nq ab w r w' ev :
  loss_batch (input, target) opts crit ratio ua nq ab w = (r, w', ev) →
  ∃ rest, ev = EvEncoder (permute102 input) :: rest ∧ encoder_calls rest = [].
Proof.
  intros H. apply loss_batch_inv in H. cbn zeta in H.
  destruct (get_t 0 target) as [first|];
    [|destruct H as (_ & _ & ->); by eexists].
  destruct (negb ab && opts); [destruct H as (_ & _ & ->); by eexists|].
  destruct H as (rl & e3 & Hloop & H).
  apply decode_loop_no_encoder in Hloop.
  destruct rl as [st|x].
  - destruct H as (r4 & e4 & _ & He4 & -> & _). eexists. split; [done|].
    unfold encoder_calls in *. cbn. rewrite omap_app, Hloop. cbn.
    clear -He4. induction He4 as [|e e4 He _ IH]; [done|].
    cbn. rewrite IH. by destruct e.
  - destruct H as (_ & _ & ->). eexists. split; [done|]. done.
Qed.

(** X5.  Every call of [loss_batch], returning or raising, runs the encoder
    exactly once, before anything else, on the time-major permutation of the
    input batch. *)
Theorem encoder_runs_once_first
    input target opts crit ratio ua nq ab w r w' ev :
  loss_batch (input, target) opts crit ratio ua nq ab w = (r, w', ev) →
  ∃ rest, ev = EvEncoder (permute102 input) :: rest ∧ encoder_calls rest = [].
Proof. apply loss_batch_encoder_first. Qed.

(** The update touches nothing but the parameters and the states of the
    optimizers. *)
Lemma optimize_inv data crit tf ua nq w r w' ev :
  optimize data crit tf ua nq w = (r, w', ev) →
  enc_training w' = enc_training w ∧ dec_training w' = dec_training w ∧
  schedulers w' = schedulers w ∧ model_file w' = model_file w ∧
  rng_pos w' = rng_pos w.
Proof.
  rewrite optimize_eq.
  destruct (backward _ _ _ _ _ _ _) as [[g1 g2]|x];
    [|by intros [= <- <- <-]].
  destruct (optimizer_step _ _ g1) as [[[[]|x1] oA] pA];
    [|by intros [= <- <- <-]].
  destruct (optimizer_step _ _ g2) as [[r2 oB] pB].
  by intros [= <- <- <-].
Qed.

Lemma loss_batch_modes input target opts crit ratio ua nq ab w r w' ev :
  loss_batch (input, target) opts crit ratio ua nq ab w = (r, w', ev) →
  enc_training w' = opts ∧ dec_training w' = opts.
Proof.
  intros H. apply loss_batch_inv in H. cbn zeta in H.
  destruct (get_t 0 target) as [first|]; [|by destruct H as (_ & -> & _)].
  destruct (negb ab && opts); [by destruct H as (_ & -> & _)|].
  destruct H as (rl & e3 & _ & H).
  destruct rl as [st|x]; [|by destruct H as (_ & -> & _)].
  destruct H as (r4 & e4 & Ho & _). destruct opts.
  - apply optimize_inv in Ho as (-> & -> & _). done.
  - by destruct Ho as (_ & -> & _).
Qed.

(** X6.  Whatever modes the models were in, after a call of [loss_batch],
    returning or raising, the encoder and the decoder are both in training
    mode if optimizers were given and both in evaluation mode if not. *)
Theorem loss_batch_leaves_call_mode
    input target opts crit ratio ua nq ab w r w' ev :
  loss_batch (input, target) opts crit ratio ua nq ab w = (r, w', ev) →
  enc_training w' = opts ∧ dec_training w' = opts.
Proof. apply loss_batch_modes. Qed.

End CourseOfACall2.

(** ** The update made by a training call *)

Section Update.
Context {ext : Externals}.

Lemma decode_loop_no_update target enc EOS tf ua nq m t0 st w r w' ev :
  decode_loop target enc EOS tf ua nq (seq t0 m) st w = (r, w', ev) →
  Forall (λ e, ¬ update_event e) ev.
Proof.
  apply (decode_loop_events_ind target EOS tf nq
           (λ _ _ ev, Forall (λ e, ¬ update_event e) ev)).
  - by constructor.
  - intros. repeat constructor. by intros [].
  - intros. repeat constructor; by intros [].
  - intros t din o out tgt e2 _ _ IH. repeat constructor; try by intros [].
    done.
Qed.

(** X7.  A training call ([average_batch] left true) updates only at its
    end.  Whatever it does before the backward pass makes no update, and a
    call that raises there leaves parameters, optimizer states, scheduler
    states and saved file as they were.  Then come, at most once each and
    in this order, the backward pass, at the parameters the call started
    with, the step of the encoder's optimizer and the step of the
    decoder's, each from the parameters and the optimizer state the call
    started with.  An exception of one of them ends the call there and is
    the exception of the call, with what was updated before left updated:
    when the backward pass raises nothing is changed, when the step of the
    encoder's optimizer raises the decoder is as it was.  The call returns
    exactly when all three return. *)
Theorem training_call_updates_at_its_end
    input target crit ratio ua nq w r w' ev :
  loss_batch (input, target) true crit ratio ua nq true w = (r, w', ev) →
  schedulers w' = schedulers w ∧ model_file w' = model_file w ∧
  ∃ pre upd, ev = pre ++ upd ∧ Forall (λ e, ¬ update_event e) pre ∧
    ((upd = [] ∧ same_model w w' ∧ ∃ x, r = Raise x) ∨
     ∃ tf, tf = Rltb (random_draws (rng_pos w)) ratio ∧
       match
         backward (enc_params w) (dec_params w) (input, target) crit tf ua nq
       with
       | Raise x => upd = [EvBackward] ∧ same_model w w' ∧ r = Raise x
       | Ok (g1, g2) =>
           let '(r1, oA, pA) :=
             optimizer_step (enc_opt w) (enc_params w) g1 in
           enc_opt w' = oA ∧ enc_params w' = pA ∧
           match r1 with
           | Raise x =>
               upd = [EvBackward; EvOptStep] ∧ r = Raise x ∧
               dec_opt w' = dec_opt w ∧ dec_params w' = dec_params w
           | Ok _ =>
               let '(r2, oB, pB) :=
                 optimizer_step (dec_opt w) (dec_params w) g2 in
               upd = [EvBackward; EvOptStep; EvOptStep] ∧
               dec_opt w' = oB ∧ dec_params w' = pB ∧
               match r2 with
               | Raise x => r = Raise x
               | Ok _ => ∃ l, r = Ok (Scalar l)
               end
           end
       end).
Proof.
  intros H. apply loss_batch_inv in H. cbn zeta in H.
  destruct (get_t 0 target) as [first|].
  2:{ destruct H as (-> & -> & ->). split; [done|]. split; [done|].
      eexists _, []. rewrite app_nil_r. split; [done|].
      split; [repeat constructor; by intros []|]. left.
      split; [done|]. split; [by cbv|]. by eexists. }
  cbn [negb andb] in H. destruct H as (rl & e3 & Hloop & H).
  apply decode_loop_no_update in Hloop.
  assert (Hpre : Forall (λ e, ¬ update_event e)
                   (EvEncoder (permute102 input)
                    :: EvDraw (random_draws (rng_pos w)) ratio :: e3)).
  { repeat constructor; try by intros []. done. }
  destruct rl as [st|x].
  2:{ destruct H as (-> & -> & ->). split; [done|]. split; [done|].
      eexists _, []. rewrite app_nil_r. split; [done|]. split; [done|].
      left. split; [done|]. split; [by cbv|]. by eexists. }
  destruct H as (r4 & e4 & Ho & _ & -> & ->).
  pose proof (optimize_inv _ _ _ _ _ _ _ _ _ Ho) as (_ & _ & Hs & Hf & _).
  split; [done|]. split; [done|].
  exists (EvEncoder (permute102 input)
          :: EvDraw (random_draws (rng_pos w)) ratio :: e3), e4.
  split; [done|]. split; [done|]. right. eexists. split; [done|].
  rewrite optimize_eq in Ho. cbn in Ho.
  destruct (backward _ _ _ _ _ _ _) as [[g1 g2]|x];
    [|by injection Ho as <- <- <-].
  destruct (optimizer_step _ _ g1) as [[[[]|x1] oA] pA];
    [|by injection Ho as <- <- <-].
  destruct (optimizer_step _ _ g2) as [[r2 oB] pB].
  injection Ho as <- <- <-. repeat split; try done.
  destruct r2 as [[]|x2]; [by eexists|done].
Qed.

(** X8.  In evaluation mode, asking for per-sample losses changes nothing
    but the value returned: from the same world, the call with
    [average_batch=False] ends in the same world with the same events as the
    call with [average_batch=True]; when the latter returns, the former
    returns a list with exactly one loss per sample of the target batch,
    and when the latter raises, the former raises the same exception. *)
Theorem per_sample_mode_differs_in_value_only input target crit ratio ua nq w :
  let '(r1, w1, e1) :=
    loss_batch (input, target) false crit ratio ua nq true w in
  let '(r2, w2, e2) :=
    loss_batch (input, target) false crit ratio ua nq false w in
  w2 = w1 ∧ e2 = e1 ∧
  match r1 with
  | Ok _ => ∃ ls, r2 = Ok (PerSample ls) ∧ length ls = length target
  | Raise x => r2 = Raise x
  end.
Proof.
  rewrite !loss_batch_eq. cbn zeta.
  destruct (get_t 0 target) as [first|]; [|done]. cbn [negb andb].
  destruct (decode_loop _ _ _ _ _ _ _ _ _) as [[[st|x] w3] e3] eqn:Hloop;
    [|done].
  cbn [ret].
  apply decode_loop_shape in Hloop. cbn [outputs] in Hloop.
  rewrite zeros_like3_shape in Hloop.
  assert (Hlen : length (outputs st) = length target).
  { apply (f_equal length) in Hloop. unfold shape_of in Hloop.
    by rewrite !length_fmap in Hloop. }
  rewrite (sample_losses_zip _ _ _ _ 0) by (simpl; lia).
  rewrite !drop_0. repeat split; try done.
  eexists. split; [done|]. rewrite length_zip_with. lia.
Qed.

End Update.

(** ** What [outputs] holds when the loop returns *)

Section Outputs.
Context {ext : Externals}.

(** Broadcasting looks at the shape of the slot only. *)
Lemma broadcast_to_shape_only slot slot' v :
  length <$> slot = length <$> slot' →
  broadcast_to slot v = broadcast_to slot' v.
Proof.
  intros Hshape. unfold broadcast_to.
  assert (Hlen : length slot = length slot').
  { apply (f_equal length) in Hshape. by rewrite !length_fmap in Hshape. }
  rewrite Hlen. destruct (expand (length slot') v) as [rows|]; [|done]. cbn.
  clear Hlen v. revert slot' rows Hshape.
  induction slot as [|s slot IH]; intros [|s' slot'] rows; try done.
  intros [= Hs Hrest]. destruct rows as [|r rows]; [done|]. cbn.
  rewrite Hs, (IH slot' rows Hrest). done.
Qed.

(** After the assignment the slot holds the value, broadcast to its
    shape. *)
Lemma get_set_t_same t v x x' :
  set_t t v x = Ok x' →
  ∃ v', get_t t x' = Some v' ∧ broadcast_to v' v = Some v'.
Proof.
  intros H. pose proof (set_t_length _ _ _ _ H) as Hlen.
  pose proof H as (slot & v' & Hslot & Hv' & _)%set_t_inv.
  pose proof (broadcast_to_shape _ _ _ Hv') as Hshape.
  exists v'. split.
  - apply get_t_Forall2, Forall2_same_length_lookup.
    pose proof Hslot as Hslot'.
    apply get_t_Forall2, Forall2_length in Hslot'.
    apply (f_equal length) in Hshape. rewrite !length_fmap in Hshape.
    split; [lia|]. intros b s' row Hs' Hrow.
    destruct (set_t_lookup _ _ _ _ _ _ H Hs')
      as (slot2 & v2 & s & new & old & Hslot2 & Hv2 & Hs & Hnew & Hold & _ & ->).
    assert (v2 = v') as -> by congruence.
    rewrite Hrow in Hnew. injection Hnew as <-.
    apply list_lookup_insert_eq. by eapply lookup_lt_Some.
  - by rewrite (broadcast_to_shape_only v' slot v Hshape).
Qed.

Lemma get_set_t_other t t' v x x' :
  set_t t v x = Ok x' → t' ≠ t → get_t t' x' = get_t t' x.
Proof.
  intros H Hne.
  pose proof H as (slot & v' & Hslot & Hv' & ->)%set_t_inv.
  apply get_t_Forall2, Forall2_length in Hslot.
  apply broadcast_to_shape, (f_equal length) in Hv'.
  rewrite !length_fmap in Hv'.
  assert (Hlen : length x = length v') by lia. clear H Hslot Hv' slot v.
  unfold get_t. revert v' Hlen.
  induction x as [|s x IH]; intros [|row v] Hlen; try done.
  cbn. rewrite list_lookup_insert_ne by done.
  destruct (s !! t'); [|done]. cbn. rewrite IH by (simpl in Hlen; lia). done.
Qed.

Lemma decode_loop_outputs target enc EOS tf ua nq n :
  ∀ t0 st w st' w' ev,
  decode_loop target enc EOS tf ua nq (seq t0 n) st w = (Ok st', w', ev) →
  zero_from t0 (outputs st) →
  (∀ t out, In (EvWrite t out) ev →
     t0 ≤ t ∧ ∃ v, get_t t (outputs st') = Some v ∧
                   broadcast_to v out = Some v) ∧
  (∀ t, t < t0 → get_t t (outputs st') = get_t t (outputs st)) ∧
  zero_from (t0 + length (decoder_steps ev)) (outputs st').
Proof.
  induction n as [|n IH]; intros t0 st w st' w' ev.
  { intros [= <- <- <-] Hz. cbn. rewrite Nat.add_0_r. repeat split; done. }
  rewrite <- cons_seq, decode_loop_step. cbn zeta.
  destruct (decoder_forward _ _ _ _ _) as [dout hid']. cbn [fst snd].
  destruct (get_t t0 target); [|done].
  destruct (if nq then _ else _) as [out|]; [|done].
  destruct (set_t _ _ _) as [outs'|] eqn:Hset; [|done].
  intros H Hz.
  assert (Hz' : zero_from (S t0) outs').
  { eapply set_t_zero_from_later; [done|lia|]. eapply zero_from_mono, Hz. lia. }
  assert (Hrec : ∀ st2 w2 e2,
    decode_loop target enc EOS tf ua nq (seq (S t0) n) st2 w
      = (Ok st', w2, e2) →
    outputs st2 = outs' →
    ev = EvDecoder t0 (decoder_input st) dout :: EvWrite t0 out :: e2 →
    (∀ t out, In (EvWrite t out) ev →
       t0 ≤ t ∧ ∃ v, get_t t (outputs st') = Some v ∧
                     broadcast_to v out = Some v) ∧
    (∀ t, t < t0 → get_t t (outputs st') = get_t t (outputs st)) ∧
    zero_from (t0 + length (decoder_steps ev)) (outputs st')).
  { intros st2 w2 e2 H2 Hst2 ->. rewrite <- Hst2 in Hz'.
    destruct (IH _ _ _ _ _ _ H2 Hz') as (Hw & Hbefore & Hafter).
    rewrite Hst2 in Hbefore. split; [|split].
    - intros t o [[=]|[[= <- <-]|Hin]].
      + split; [lia|]. rewrite Hbefore by lia. by eapply get_set_t_same.
      + destruct (Hw _ _ Hin). split; [lia|done].
    - intros t Ht. rewrite Hbefore by lia. eapply get_set_t_other; [done|lia].
    - cbn. by rewrite Nat.add_succ_r. }
  destruct tf.
  - destruct (decode_loop _ _ _ _ _ _ _ _ _) as [[r2 w2] e2] eqn:H2.
    injection H as -> <- <-. by eapply Hrec.
  - destruct (all_eq dout EOS).
    + injection H as <- <- <-. cbn. split; [|split].
      * intros t o [[=]|[[= <- <-]|[]]]. split; [lia|].
        by eapply get_set_t_same.
      * intros t Ht. eapply get_set_t_other; [done|lia].
      * by rewrite Nat.add_1_r.
    + destruct (decode_loop _ _ _ _ _ _ _ _ _) as [[r2 w2] e2] eqn:H2.
      injection H as -> <- <-. by eapply Hrec.
Qed.

(** X9.  When the unrolling loop, started as [loss_batch] starts it,
    returns, [outputs] has exactly the shape of the target batch, holds at
    every decoded timestep the output written for that timestep, broadcast
    to the shape of the slot, and is zero at all timesteps that were not
    decoded. *)
Theorem outputs_hold_the_decoded_steps
    target enc EOS tf ua nq n din hid w st w' ev :
  decode_loop target enc EOS tf ua nq (seq 0 n)
    (Unroll din hid (zeros_like3 target)) w = (Ok st, w', ev) →
  shape_of (outputs st) = shape_of target ∧
  (∀ t out, In (EvWrite t out) ev →
     ∃ v, get_t t (outputs st) = Some v ∧ broadcast_to v out = Some v) ∧
  (∀ b t f v, length (decoder_steps ev) ≤ t →
              entry (outputs st) b t f = Some v → v = 0%R).
Proof.
  intros H. split; [|split].
  - apply decode_loop_shape in H. cbn [outputs] in H.
    by rewrite zeros_like3_shape in H.
  - intros t out Hin.
    by destruct (decode_loop_outputs _ _ _ _ _ _ _ _ _ _ _ _ _ H
                   (zeros_like3_zero_from 0 target)) as (Hw & _ & _);
      destruct (Hw _ _ Hin).
  - intros b t f v Ht Hv.
    destruct (decode_loop_outputs _ _ _ _ _ _ _ _ _ _ _ _ _ H
                (zeros_like3_zero_from 0 target)) as (_ & _ & Hz).
    by eapply zero_from_entry.
Qed.

End Outputs.

Section OutputsExamples.
#[local] Existing Instance ext_eos1.

(** Two samples of three timesteps and a decoder that returns one row for
    both: what it returns at timestep 0 is written to both samples; it
    returns zero at timestep 1, and timestep 2 is not decoded. *)
Lemma outputs_hold_the_decoded_steps_witness :
  let ev :=
    [EvDecoder 0 [[1%R]] [[(1 + 1)%R]]; EvWrite 0 [[(1 + 1)%R]];
     EvDecoder 1 [[(1 + 1)%R]] [[0%R]]; EvWrite 1 [[0%R]]] in
  let st :=
    Unroll [[(1 + 1)%R]] 2%nat
      [[[(1 + 1)%R]; [0%R]; [0%R]]; [[(1 + 1)%R]; [0%R]; [0%R]]] in
  shape_of (outputs st)
    = shape_of [[[5%R]; [5%R]; [5%R]]; [[6%R]; [6%R]; [6%R]]] ∧
  (∀ t out, In (EvWrite t out) ev →
     ∃ v, get_t t (outputs st) = Some v ∧ broadcast_to v out = Some v) ∧
  (∀ b t f v, length (decoder_steps ev) ≤ t →
              entry (outputs st) b t f = Some v → v = 0%R).
Proof.
  intros ev st.
  apply (outputs_hold_the_decoded_steps (ext := ext_eos1)
           [[[5%R]; [5%R]; [5%R]]; [[6%R]; [6%R]; [6%R]]] tt
           (zeros_like [[5%R]; [6%R]]) false false false 3
           [[1%R]] 0%nat w_eos1 st w_eos1 ev).
  run_model. reflexivity.
Defined.

End OutputsExamples.

Section CourseExamples.
#[local] Existing Instance ext_plus.

(** A teacher-forced call on two timesteps decodes both. *)
Lemma decoded_timesteps_are_consecutive_witness :
  let ev :=
    [EvEncoder [[[7%R]]; [[8%R]]]; EvDraw (/ 2) 1;
     EvDecoder 0 [[1%R]] [[(1 + 1)%R]]; EvWrite 0 [[(1 + 1)%R]];
     EvDecoder 1 [[2%R]] [[(2 + 1)%R]]; EvWrite 1 [[(2 + 1)%R]]] in
  let r :=
    Ok (Scalar (crit3 (sum_criterion sq_err)
                  [[[(1 + 1)%R]; [(2 + 1)%R]]] [[[2%R]; [3%R]]])) in
  ∃ m, m ≤ shape1 [[[7%R]; [8%R]]] ∧ decoder_steps ev = seq 0 m ∧
       (∀ l, r = Ok l → (random_draws (rng_pos w_plus) < 1)%R →
             m = shape1 [[[7%R]; [8%R]]]).
Proof.
  intros ev r.
  apply (decoded_timesteps_are_consecutive (ext := ext_plus)
           [[[7%R]; [8%R]]] [[[2%R]; [3%R]]] false (sum_criterion sq_err) 1
           false false true w_plus r (with_rng 1 w_plus) ev).
  run_model. reflexivity.
Defined.

Lemma encoder_runs_once_first_witness :
  let ev :=
    [EvEncoder [[[7%R]]; [[8%R]]]; EvDraw (/ 2) 1;
     EvDecoder 0 [[1%R]] [[(1 + 1)%R]]; EvWrite 0 [[(1 + 1)%R]];
     EvDecoder 1 [[2%R]] [[(2 + 1)%R]]; EvWrite 1 [[(2 + 1)%R]]] in
  ∃ rest, ev = EvEncoder (permute102 [[[7%R]; [8%R]]]) :: rest ∧
          encoder_calls rest = [].
Proof.
  intros ev.
  apply (encoder_runs_once_first (ext := ext_plus)
           [[[7%R]; [8%R]]] [[[2%R]; [3%R]]] false (sum_criterion sq_err) 1
           false false true w_plus
           (Ok (Scalar (crit3 (sum_criterion sq_err)
                          [[[(1 + 1)%R]; [(2 + 1)%R]]] [[[2%R]; [3%R]]])))
           (with_rng 1 w_plus) ev).
  run_model. reflexivity.
Defined.

(** A training call on one sample of one timestep: the world it ends in
    has both models in training mode and one update of each. *)
Lemma loss_batch_leaves_call_mode_witness :
  let w' := World (ext := ext_plus) 1%nat 1%nat true true 1%nat 1%nat [] 1
              None in
  enc_training w' = true ∧ dec_training w' = true.
Proof.
  intros w'.
  apply (loss_batch_leaves_call_mode (ext := ext_plus)
           [[[7%R]]] [[[2%R]]] true (sum_criterion sq_err) 0
           false false true w_plus
           (Ok (Scalar (crit3 (sum_criterion sq_err)
                          [[[(1 + 1)%R]]] [[[2%R]]])))
           w'
           [EvEncoder [[[7%R]]]; EvDraw (/ 2) 0;
            EvDecoder 0 [[1%R]] [[(1 + 1)%R]]; EvWrite 0 [[(1 + 1)%R]];
            EvBackward; EvOptStep; EvOptStep]).
  run_model. reflexivity.
Defined.

(** The same call: nothing is updated before the backward pass, and the
    backward pass and both steps return. *)
Lemma training_call_updates_at_its_end_witness :
  let w' := World (ext := ext_plus) 1%nat 1%nat true true 1%nat 1%nat [] 1
              None in
  let ev :=
    [EvEncoder [[[7%R]]]; EvDraw (/ 2) 0;
     EvDecoder 0 [[1%R]] [[(1 + 1)%R]]; EvWrite 0 [[(1 + 1)%R]];
     EvBackward; EvOptStep; EvOptStep] in
  let r : result loss_value :=
    Ok (Scalar (crit3 (sum_criterion sq_err) [[[(1 + 1)%R]]] [[[2%R]]])) in
  schedulers w' = schedulers w_plus ∧ model_file w' = model_file w_plus ∧
  ∃ pre upd, ev = pre ++ upd ∧ Forall (λ e, ¬ update_event e) pre ∧
    ((upd = [] ∧ same_model w_plus w' ∧ ∃ x, r = Raise x) ∨
     ∃ tf, tf = Rltb (random_draws (rng_pos w_plus)) 0 ∧
       enc_opt w' = 1%nat ∧ enc_params w' = 1%nat ∧
       upd = [EvBackward; EvOptStep; EvOptStep] ∧
       dec_opt w' = 1%nat ∧ dec_params w' = 1%nat ∧
       ∃ l, r = Ok (Scalar l)).
Proof.
  intros w' ev r.
  apply (training_call_updates_at_its_end (ext := ext_plus)
           [[[7%R]]] [[[2%R]]] (sum_criterion sq_err) 0 false false w_plus
           r w' ev).
  run_model. reflexivity.
Defined.

End CourseExamples.

Section SentinelExamples.
#[local] Existing Instance ext_eos1.

(** Three timesteps, the decoder returns zero at the second: two timesteps
    are decoded and the output of the last one is all zero. *)
Lemma self_fed_unroll_stops_only_at_sentinel_witness :
  let ev :=
    [EvEncoder [[[7%R]]; [[8%R]]; [[9%R]]]; EvDraw (/ 2) 0;
     EvDecoder 0 [[1%R]] [[(1 + 1)%R]]; EvWrite 0 [[(1 + 1)%R]];
     EvDecoder 1 [[(1 + 1)%R]] [[0%R]]; EvWrite 1 [[0%R]]] in
  0 < 2 ∧ ∃ i o, In (EvDecoder (2 - 1) i o) ev ∧ all_zero o.
Proof.
  intros ev.
  apply (self_fed_unroll_stops_only_at_sentinel (ext := ext_eos1)
           [[[7%R]; [8%R]; [9%R]]] [[[5%R]; [5%R]; [5%R]]] false
           (sum_criterion sq_err) 0 false false true w_eos1
           (Scalar (crit3 (sum_criterion sq_err)
                      [[[(1 + 1)%R]; [0%R]; [0%R]]] [[[5%R]; [5%R]; [5%R]]]))
           (with_rng 1 w_eos1) ev 2).
  - run_model. reflexivity.
  - cbn. lra.
  - reflexivity.
  - cbn. lia.
Defined.

End SentinelExamples.

(** ** Calls that return *)

Lemma fmap_eq_replicate {A B} (f : A → B) (l : list A) n v :
  f <$> l = replicate n v ↔ length l = n ∧ Forall (λ a, f a = v) l.
Proof.
  revert n. induction l as [|a l IH]; intros [|n]; cbn.
  - split; [by split|done].
  - split; [done|by intros [? _]].
  - split; [done|by intros [? _]].
  - split.
    + intros [= Ha Hl]. apply IH in Hl as [-> Hl]. split; [done|].
      by constructor.
    + intros [[= Hn] Hl]. inversion Hl as [|? ? Ha Hl']; subst.
      f_equal. apply IH. done.
Qed.

Lemma rect3_shape_of B T F (x : tensor3) :
  rect3 B T F x ↔ shape_of x = replicate B (replicate T F).
Proof.
  unfold rect3, shape_of. rewrite fmap_eq_replicate.
  split; intros [HB Hx]; (split; [done|]); eapply Forall_impl; try exact Hx;
    intros s Hs; simpl in *; by apply fmap_eq_replicate.
Qed.

Lemma rect3_get_t B T F (x : tensor3) t :
  rect3 B T F x → t < T →
  ∃ slot, get_t t x = Some slot ∧ length <$> slot = replicate B F.
Proof.
  intros [HB Hx] Ht. revert B HB.
  induction Hx as [|s x [HT HF] Hx IH]; intros B HB; subst B.
  - by exists [].
  - destruct (IH _ eq_refl) as (slot & Hslot & Hrows).
    destruct (lookup_lt_is_Some_2 s t) as [row Hrow]; [lia|].
    exists (row :: slot). unfold get_t in *. cbn. rewrite Hrow, Hslot. cbn.
    split; [done|]. f_equal; [|done].
    rewrite Forall_lookup in HF. by eapply HF.
Qed.

Lemma set_t_succeeds B T F (x : tensor3) t (v : tensor2) :
  rect3 B T F x → t < T → length <$> v = replicate B F →
  ∃ x', set_t t v x = Ok x'.
Proof.
  intros Hx Ht Hv. destruct (rect3_get_t _ _ _ _ _ Hx Ht) as (slot & Hslot & Hs).
  unfold set_t. rewrite Hslot, broadcast_to_same by congruence. by eexists.
Qed.

Section NormaliseReturns.
Context {ext : Externals}.

Lemma quat_normalize_succeeds B F (dout : tensor2) :
  length <$> dout = replicate B F → (B * F) mod 4 = 0 →
  ∃ out, quat_normalize dout = Ok out ∧ length <$> out = replicate B F.
Proof.
  intros Hrows Hmod.
  assert (Hlen : length (concat dout) = B * F).
  { by rewrite length_concat_sum, Hrows, sum_list_replicate. }
  unfold quat_normalize. rewrite Hlen, Hmod. cbn [Nat.eqb negb].
  eexists. split; [done|]. rewrite lengths_reshape; [done|].
  rewrite <- length_concat_sum, Hlen, length_concat_sum, f_normalize_shape,
    <- length_concat_sum, concat_view4; [done|]. by rewrite Hlen.
Qed.

End NormaliseReturns.

Section Returns.
Context {ext : Externals}.

Lemma decode_loop_returns B T F target enc EOS tf ua (nq : bool) n :
  shape_preserving_decoder → rect3 B T F target →
  (nq = true → (B * F) mod 4 = 0) →
  ∀ t0 st w,
  t0 + n ≤ T → rect3 B T F (outputs st) →
  length <$> decoder_input st = replicate B F →
  ∃ st' ev, decode_loop target enc EOS tf ua nq (seq t0 n) st w
            = (Ok st', w, ev).
Proof.
  intros Hdec Htarget Hnq. induction n as [|n IH]; intros t0 st w Ht Hout Hin.
  { by eexists _, _. }
  rewrite <- cons_seq, decode_loop_step. cbn zeta.
  pose proof (Hdec (dec_params w) (dec_training w) (decoder_input st)
                (decoder_hidden st) (if ua then Some enc else None)) as Hd.
  destruct (decoder_forward _ _ _ _ _) as [dout hid']. cbn [fst snd] in *.
  rewrite Hin in Hd.
  destruct (rect3_get_t _ _ _ _ t0 Htarget) as (tgt & -> & Htgt); [lia|].
  assert (Hnorm : ∃ out, (if nq then quat_normalize dout else Ok dout) = Ok out
                         ∧ length <$> out = replicate B F).
  { destruct nq; [|by exists dout].
    apply quat_normalize_succeeds; [done|by apply Hnq]. }
  destruct Hnorm as (out & -> & Hrows).
  destruct (set_t_succeeds _ _ _ _ t0 out Hout) as [outs' Hset]; [lia|done|].
  rewrite Hset.
  assert (Hout' : rect3 B T F outs').
  { apply rect3_shape_of. rewrite (set_t_shape _ _ _ _ Hset).
    by apply rect3_shape_of. }
  destruct tf; [|destruct (all_eq dout EOS)].
  - destruct (IH (S t0) (Unroll tgt hid' outs') w) as (st' & ev & ->);
      [lia|done|done|]. by eexists _, _.
  - by eexists _, _.
  - destruct (IH (S t0) (Unroll out hid' outs') w) as (st' & ev & ->);
      [lia|done|done|]. by eexists _, _.
Qed.

Lemma ones_like_rows (s : tensor2) : length <$> ones_like s = length <$> s.
Proof.
  unfold ones_like. rewrite <- list_fmap_compose.
  apply list_fmap_ext. intros _ r _. simpl. by rewrite length_fmap.
Qed.

Lemma loss_batch_runs data opts crit ratio ua nq ab w :
  shape_preserving_decoder → runnable nq data →
  (opts = true →
   ab = true ∧
   update_returns w data crit (Rltb (random_draws (rng_pos w)) ratio) ua nq) →
  ∃ l w' ev, loss_batch data opts crit ratio ua nq ab w = (Ok l, w', ev).
Proof.
  intros Hdec
    (B & T_in & F_in & T & F & Hin & Hrect & HB & HTin & Hlen & _ & _ & Hnq)
    Hab.
  destruct data as [input target]. cbn [fst snd] in *.
  assert (HT : 0 < T) by lia.
  assert (Hshape1 : shape1 input = T_in).
  { destruct Hin as [HBin Hrows]. destruct Hrows as [|s x [Hs _] _]; [|done].
    simpl in HBin. lia. }
  rewrite <- Hshape1 in Hlen.
  rewrite loss_batch_eq. cbn zeta.
  destruct (rect3_get_t _ _ _ _ 0 Hrect HT) as (first & -> & Hfirst).
  assert (negb ab && opts = false) as ->.
  { destruct opts; [by destruct Hab as [-> _]|by destruct ab]. }
  match goal with
  | |- context [decode_loop ?tg ?en ?eos ?tf ?a ?q (seq 0 ?n) ?st ?w0] =>
      destruct (decode_loop_returns B T F tg en eos tf a q n Hdec Hrect Hnq
                  0 st w0) as (st' & e3 & Hloop)
  end.
  - lia.
  - cbn [outputs]. apply rect3_shape_of. rewrite zeros_like3_shape.
    by apply rect3_shape_of.
  - cbn [decoder_input]. by rewrite ones_like_rows.
  - rewrite Hloop.
    assert (Hshape : length (outputs st') = length target).
    { apply decode_loop_shape in Hloop. cbn [outputs] in Hloop.
      rewrite zeros_like3_shape in Hloop.
      apply (f_equal length) in Hloop. unfold shape_of in Hloop.
      by rewrite !length_fmap in Hloop. }
    rewrite (sample_losses_zip _ _ _ _ 0) by (simpl; lia).
    destruct opts.
    + destruct Hab as [-> (g1 & g2 & oA & pA & oB & pB & Hb & H1 & H2)];
        [done|].
      erewrite optimize_ok; [|exact Hb|exact H1|exact H2].
      by eexists _, _, _.
    + cbn [ret]. destruct ab; by eexists _, _, _.
Qed.

(** X10.  The code of [loss_batch] itself raises nothing on a runnable
    batch.  When the forward passes and the loss function return, as they
    do in this embedding, and the decoder returns step outputs with the rows
    of its input, the call returns a loss, whatever the ratio and the draw:
    in evaluation mode always, and with optimizers when [average_batch] is
    true and the backward pass and the steps of both optimizers of the call
    return.  In the loop no index is out of range and no shape is
    refused. *)
Theorem loss_batch_returns data opts crit ratio ua nq ab w :
  shape_preserving_decoder → runnable nq data →
  (opts = true →
   ab = true ∧
   update_returns w data crit (Rltb (random_draws (rng_pos w)) ratio) ua nq) →
  ∃ l w' ev, loss_batch data opts crit ratio ua nq ab w = (Ok l, w', ev).
Proof. apply loss_batch_runs. Qed.

End Returns.

Lemma add_one_rows (s : tensor2) : length <$> add_one s = length <$> s.
Proof.
  unfold add_one. rewrite <- list_fmap_compose.
  apply list_fmap_ext. intros _ r _. simpl. by rewrite length_fmap.
Qed.

Lemma ext_plus_shape_preserving : shape_preserving_decoder (ext := ext_plus).
Proof. intros p m i h e. apply add_one_rows. Qed.

Lemma counting_update_returns sys dec draw Hdraw w data crit tf ua nq :
  update_returns (ext := counting_ext sys dec draw Hdraw) w data crit tf ua nq.
Proof. by eexists tt, tt, _, _, _, _. Qed.

(** A training call, with teacher forcing, on one sample of two timesteps
    of four features, normalised as one quaternion. *)
Lemma loss_batch_returns_witness :
  ∃ l w' ev,
    loss_batch (ext := ext_plus)
      ([[[7%R; 7%R; 7%R; 7%R]; [8%R; 8%R; 8%R; 8%R]]],
       [[[2%R; 0%R; 0%R; 0%R]; [0%R; 3%R; 0%R; 0%R]]]) true
      (sum_criterion sq_err) 1 false true true w_plus = (Ok l, w', ev).
Proof.
  apply (loss_batch_returns (ext := ext_plus)).
  - apply ext_plus_shape_preserving.
  - exists 1, 2, 4, 2, 4. cbn. repeat split; try lia; try done;
      by repeat constructor.
  - intros _. split; [done|]. apply counting_update_returns.
Defined.

(** ** Runs of [fit] that complete *)

Section FitReturns.
Context {ext : Externals}.

Lemma train_loop_runs tr tc ua nq bs :
  shape_preserving_decoder → Forall (runnable nq) bs →
  updates_return_on bs tc ua nq →
  (bs ≠ [] → 10 ≤ length tr) →
  ∀ i losses w, ∃ l w' ev,
    train_loop tr tc ua nq i bs losses w = (Ok l, w', ev).
Proof.
  intros Hdec Hbs. induction Hbs as [|data bs Hdata Hbs IH];
    intros Hupd Hlen i losses w.
  { by eexists _, _, _. }
  cbn [train_loop]. unfold bind.
  destruct (loss_batch_runs data true tc 0 ua nq true w Hdec Hdata)
    as (l & w1 & e1 & ->); [intros _; split; [done|]; apply Hupd; by left|].
  assert (Hupd' : updates_return_on bs tc ua nq).
  { intros w0 d tf Hd. apply Hupd. by right. }
  specialize (IH Hupd').
  assert (Hp : length tr / 10 ≠ 0).
  { specialize (Hlen ltac:(done)).
    pose proof (Nat.Div0.div_le_mono 10 (length tr) 10 Hlen) as H.
    rewrite Nat.div_same in H by lia. lia. }
  apply Nat.eqb_neq in Hp. rewrite Hp.
  assert (Hlen' : bs ≠ [] → 10 ≤ length tr) by (intros _; by apply Hlen).
  destruct (IH Hlen' (S i) (losses ++ [item l]) w1) as (l' & w' & ev & Hrest).
  destruct (i mod (length tr / 10) =? 0); cbn [emit ret]; rewrite Hrest;
    by eexists _, _, _.
Qed.

Lemma val_pass_runs ua nq vc bs :
  shape_preserving_decoder → Forall (runnable nq) bs →
  ∀ w, ∃ l w' ev, val_pass ua nq vc bs w = (Ok l, w', ev).
Proof.
  intros Hdec Hbs. induction Hbs as [|data bs Hdata Hbs IH]; intros w.
  { by eexists _, _, _. }
  cbn [val_pass]. unfold bind.
  destruct (loss_batch_runs data false vc 0 ua nq true w Hdec Hdata)
    as (l & w1 & e1 & ->); [done|].
  destruct (IH w1) as (l' & w' & ev & ->). by eexists _, _, _.
Qed.

Lemma validation_runs val ua nq vcs :
  shape_preserving_decoder → Forall (runnable nq) val →
  ∀ w, ∃ vl w' ev, validation val ua nq vcs w = (Ok vl, w', ev) ∧
                   length vl = length vcs.
Proof.
  intros Hdec Hval. induction vcs as [|vc vcs IH]; intros w.
  { by eexists _, _, _. }
  cbn [validation]. unfold bind.
  destruct (val_pass_runs ua nq vc val Hdec Hval w) as (l & w1 & e1 & ->).
  destruct (IH w1) as (vl & w' & ev & -> & Hlen).
  eexists _, _, _. split; [done|]. cbn. by rewrite Hlen.
Qed.

Lemma run_epoch_runs tr val tc vcs ua nq rate e st w :
  shape_preserving_decoder → Forall (runnable nq) tr →
  Forall (runnable nq) val → updates_return_on tr tc ua nq →
  tr = [] ∨ 10 ≤ length tr → vcs ≠ [] →
  ∃ st' w' ev, run_epoch tr val tc vcs ua nq rate e st w = (Ok st', w', ev).
Proof.
  intros Hdec Htr Hval Hupd Hlen Hvcs. unfold run_epoch, bind.
  destruct (train_loop_runs tr tc ua nq tr Hdec Htr Hupd ltac:(tauto) 0 [] w)
    as (l & w1 & e1 & ->).
  destruct (validation_runs val ua nq vcs Hdec Hval w1)
    as (vl & w2 & e2 & -> & Hvl).
  unfold step_schedulers. destruct (step_all _ _ _) as [[ss oA] oB].
  cbn [emit].
  destruct vl as [|v0 vl]; [by destruct vcs|]. cbn [lookup list_lookup index ret].
  destruct (xltb v0 (min_val_loss st)); cbn; by eexists _, _, _.
Qed.

Lemma epoch_loop_runs tr val tc vcs ua nq rate es :
  shape_preserving_decoder → Forall (runnable nq) tr →
  Forall (runnable nq) val → updates_return_on tr tc ua nq →
  tr = [] ∨ 10 ≤ length tr → vcs ≠ [] →
  ∀ st w, ∃ st' w' ev,
    epoch_loop tr val tc vcs ua nq rate es st w = (Ok st', w', ev).
Proof.
  intros Hdec Htr Hval Hupd Hlen Hvcs.
  induction es as [|e es IH]; intros st w.
  { by eexists _, _, _. }
  cbn [epoch_loop]. unfold bind.
  destruct (run_epoch_runs tr val tc vcs ua nq rate e st w Hdec Htr Hval Hupd
              Hlen Hvcs) as (st1 & w1 & e1 & ->).
  destruct (IH st1 w1) as (st' & w' & ev & ->). by eexists _, _, _.
Qed.

Lemma fit_runs epochs tr val dropped tc vcs ratio ua nq rate w :
  shape_preserving_decoder → Forall (runnable nq) tr →
  Forall (runnable nq) val → updates_return_on tr tc ua nq →
  (tr = [] ∧ 0 < dropped) ∨ 10 ≤ length tr → vcs ≠ [] →
  ∃ w' ev,
    fit epochs (tr, val) dropped tc vcs ratio ua nq rate w = (Ok tt, w', ev).
Proof.
  intros Hdec Htr Hval Hupd Hlen Hvcs. unfold fit.
  assert (Hfirst : first_sample tr dropped w = (Ok tt, w, [])).
  { unfold first_sample. destruct tr as [|d tr'], dropped as [|n]; try done.
    destruct Hlen as [[_ ?]|Hlen]; [lia|]. cbn in Hlen. lia. }
  unfold bind at 1. rewrite Hfirst. unfold bind.
  destruct (epoch_loop_runs tr val tc vcs ua nq rate (seq 0 epochs)
              Hdec Htr Hval Hupd ltac:(tauto) Hvcs (FitState ratio PosInf) w)
    as (st' & w' & ev & ->).
  by eexists _, _.
Qed.

(** X11.  The code of [fit] itself raises nothing, and [fit] completes all
    its epochs and returns, when the forward passes and the loss functions
    return, as they do in this embedding, the decoder returns step outputs
    with the rows of its input, every batch of both loaders is runnable,
    the updates of the training calls return, there is at least one
    validation criterion, and the training loader has at least ten batches,
    or has none while its dataset is not empty: none of the exceptions of
    line 138, of the loop, of the logging test or of the model selection is
    raised. *)
Theorem fit_returns epochs tr val dropped tc vcs ratio ua nq rate w :
  shape_preserving_decoder → Forall (runnable nq) tr →
  Forall (runnable nq) val → updates_return_on tr tc ua nq →
  (tr = [] ∧ 0 < dropped) ∨ 10 ≤ length tr → vcs ≠ [] →
  ∃ w' ev,
    fit epochs (tr, val) dropped tc vcs ratio ua nq rate w = (Ok tt, w', ev).
Proof. apply fit_runs. Qed.

End FitReturns.

Lemma unit_loader_runnable nq n :
  nq = false → Forall (runnable nq) (unit_loader n).
Proof.
  intros ->. induction n as [|n IH]; constructor; [|exact IH].
  exists 1, 1, 1, 1, 1. cbn. repeat split; try lia; try done;
    by repeat constructor.
Qed.

(** Two epochs over ten training batches and one validation batch. *)
Lemma fit_returns_witness :
  ∃ w' ev,
    fit (ext := ext_plus) 2 (unit_loader 10, unit_loader 1) 0
      (sum_criterion sq_err) [sum_criterion sq_err] 1 false false 1 w_plus
    = (Ok tt, w', ev).
Proof.
  apply (fit_returns (ext := ext_plus)).
  - apply ext_plus_shape_preserving.
  - by apply unit_loader_runnable.
  - by apply unit_loader_runnable.
  - intros w data tf _. apply counting_update_returns.
  - right. cbn. lia.
  - done.
Defined.

(** ** What the validation passes and the model selection do *)

Section ValidationFrame.
Context {ext : Externals}.

#[local] Existing Instance last_save_compositional.

#[local] Instance untouched_compositional :
  Compositional (λ w w' ev,
    same_training_state w w' ∧ Forall (λ e, ¬ update_event e) ev).
Proof.
  split; [by intros w|].
  intros w w1 w2 e1 e2 [((Ha1&Ha2&Ha3&Ha4)&Ha5&Ha6) Hev1]
    [((Hb1&Hb2&Hb3&Hb4)&Hb5&Hb6) Hev2].
  split; [|by apply Forall_app].
  repeat split; congruence.
Qed.

Lemma eval_steps_touch_nothing ratio :
  step_sat (λ w w' ev,
    same_training_state w w' ∧ Forall (λ e, ¬ update_event e) ev) false ratio.
Proof.
  split; try done; intros; intros w r w' ev [= <- <- <-];
    (split; [by cbv|]); repeat constructor; by intros [].
Qed.

Section EvalPasses.
Context (Q : world → world → list event → Prop) `{!Compositional Q}.

Lemma val_pass_eval_sat ua nq vc bs :
  step_sat Q false 0 → sat Q (val_pass ua nq vc bs).
Proof.
  intros HS. induction bs as [|data bs IH]; cbn [val_pass].
  - by apply (sat_ret Q).
  - apply (sat_bind Q); [by apply (loss_batch_sat Q)|]. intros l.
    apply (sat_bind Q); [apply IH|]. intros rest. by apply (sat_ret Q).
Qed.

Lemma validation_eval_sat val ua nq vcs :
  step_sat Q false 0 → sat Q (validation val ua nq vcs).
Proof.
  intros HS. induction vcs as [|vc vcs IH]; cbn [validation].
  - by apply (sat_ret Q).
  - apply (sat_bind Q); [by apply val_pass_eval_sat|]. intros l.
    apply (sat_bind Q); [apply IH|]. intros rest. by apply (sat_ret Q).
Qed.

End EvalPasses.

Lemma validation_frame val ua nq vcs w r w' ev :
  validation val ua nq vcs w = (r, w', ev) →
  same_training_state w w' ∧ Forall (λ e, ¬ update_event e) ev.
Proof.
  apply (validation_eval_sat
           (λ w w' ev, same_training_state w w'
                       ∧ Forall (λ e, ¬ update_event e) ev)).
  apply eval_steps_touch_nothing.
Qed.

(** X12.  The validation passes of an epoch, over every criterion and every
    validation batch, change neither the parameters nor the optimizer
    states nor the scheduler states nor the saved file, and make no backward
    pass and no optimizer step, whether they complete or raise. *)
Theorem validation_changes_nothing val ua nq vcs w r w' ev :
  validation val ua nq vcs w = (r, w', ev) →
  same_training_state w w' ∧ Forall (λ e, ¬ update_event e) ev.
Proof. apply validation_frame. Qed.

(** X13.  When an epoch saves a checkpoint, the training pass of that epoch
    had completed, the checkpoint holds the parameters of the encoder and of
    the decoder as that training pass left them (those with which the
    validation losses of the epoch were computed) and the optimizer states
    as the schedulers left them after their step of that epoch, and the
    file holds that checkpoint when the epoch ends. *)
Theorem checkpoint_holds_the_validated_model
    tr val tc vcs ua nq rate e st w r w' ev e' cp :
  run_epoch tr val tc vcs ua nq rate e st w = (r, w', ev) →
  In (EvSave e' cp) ev →
  ∃ losses w1 e1,
    train_loop tr tc ua nq 0 tr [] w = (Ok losses, w1, e1) ∧
    e' = e ∧
    encoder_state_dict cp = enc_params w1 ∧
    decoder_state_dict cp = dec_params w1 ∧
    (schedulers w', optimizerA_state_dict cp, optimizerB_state_dict cp)
      = step_all (schedulers w1) (enc_opt w1) (dec_opt w1) ∧
    model_file w' = Some cp.
Proof.
  unfold run_epoch, bind.
  destruct (train_loop _ _ _ _ _ _ _ w) as [[[losses|x] w1] e1] eqn:Htr.
  2:{ intros [= <- <- <-] Hin.
      apply (train_loop_sat (λ _ _ ev, Forall (λ e, ¬ selection_event e) ev))
        in Htr; [|apply passes_no_selection].
      rewrite Forall_forall in Htr. by destruct (Htr _ Hin). }
  pose proof Htr as Hno1.
  apply (train_loop_sat (λ _ _ ev, Forall (λ e, ¬ selection_event e) ev))
    in Hno1; [|apply passes_no_selection].
  destruct (validation _ _ _ _ w1) as [[rv w2] e2] eqn:Hval.
  pose proof (validation_frame _ _ _ _ _ _ _ _ Hval)
    as [((Hp1 & Hp2 & Ho1 & Ho2) & Hs & Hf) _].
  apply (validation_sat (λ _ _ ev, Forall (λ e, ¬ selection_event e) ev))
    in Hval; [|apply passes_no_selection].
  assert (Hno : ∀ tail, In (EvSave e' cp) (e1 ++ e2 ++ tail) →
                        In (EvSave e' cp) tail).
  { intros tail Hin. apply in_tail_selection in Hin; [|done..].
    by apply in_tail_selection in Hin. }
  destruct rv as [vl|x].
  2:{ intros [= <- <- <-] Hin. rewrite Forall_forall in Hno1, Hval.
      apply in_app_or in Hin as [Hin|Hin];
        [by destruct (Hno1 _ Hin) | by destruct (Hval _ Hin)]. }
  unfold step_schedulers.
  rewrite Hs, Ho1, Ho2.
  destruct (step_all _ _ _) as [[ss oA] oB] eqn:Hstep.
  unfold emit, index.
  destruct (vl !! 0) as [v0|]; cbn.
  2:{ intros [= <- <- <-] Hin%Hno. by destruct Hin as [[=]|[]]. }
  destruct (xltb v0 (min_val_loss st)); cbn.
  2:{ intros [= <- <- <-] Hin%Hno. by destruct Hin as [[=]|[]]. }
  intros [= <- <- <-] Hin%Hno.
  destruct Hin as [[=]|[[= <- <-]|[]]].
  exists losses, w1, e1. cbn. repeat split; try done; congruence.
Qed.

(** X14.  With an empty list of validation criteria and at least one epoch,
    [fit], unless line 138 raises for an empty dataset, makes the training
    pass of the first epoch and, if that pass completes, steps the
    schedulers, reports the losses and raises [IndexError] at
    [val_loss[0]]: it saves nothing and starts no second epoch. *)
Theorem fit_without_validation_criteria
    n tr val dropped tc ratio ua nq rate w :
  fit (S n) (tr, val) dropped tc [] ratio ua nq rate w =
  match tr, dropped with
  | [], 0 => (Raise IndexError, w, [])
  | _, _ =>
      match train_loop tr tc ua nq 0 tr [] w with
      | (Ok losses, w1, e1) =>
          (Raise IndexError, (step_schedulers w1).1.2,
           e1 ++ [EvInfoSummary 0 (np_mean losses) []])
      | (Raise x, w1, e1) => (Raise x, w1, e1)
      end
  end.
Proof.
  assert (Hloop :
    bind (epoch_loop tr val tc [] ua nq rate (seq 0 (S n))
            (FitState ratio PosInf)) (λ _, ret tt) w =
    match train_loop tr tc ua nq 0 tr [] w with
    | (Ok losses, w1, e1) =>
        (Raise IndexError, (step_schedulers w1).1.2,
         e1 ++ [EvInfoSummary 0 (np_mean losses) []])
    | (Raise x, w1, e1) => (Raise x, w1, e1)
    end).
  { rewrite <- cons_seq. cbn [epoch_loop].
    unfold run_epoch. cbn [validation]. unfold bind.
    destruct (train_loop _ _ _ _ _ _ _ w) as [[[losses|x] w1] e1]; [|done].
    cbn [ret]. unfold step_schedulers.
    destruct (step_all _ _ _) as [[ss oA] oB]. done. }
  assert (Hret : ∀ (k : unit → M unit), bind (ret tt) k w = k tt w).
  { intros k. unfold bind, ret. by destruct (k tt w) as [[r0 w0] e0]. }
  unfold fit, first_sample.
  destruct tr as [|d tr'], dropped as [|k]; [done|..];
    by rewrite Hret, Hloop.
Qed.

Lemma epoch_candidate_empty_validation tr tc vcs ua nq w v cp :
  epoch_candidate tr [] tc vcs ua nq w = Some (v, cp) → v = NaN.
Proof.
  unfold epoch_candidate.
  destruct (train_loop _ _ _ _ _ _ _ w) as [[[losses|x] w1] e1]; [|done].
  destruct vcs as [|vc0 others]; [done|]. cbn [val_pass ret].
  destruct (validation _ _ _ _ w1) as [[[vl|x] w3] e3]; [|done].
  by intros [= <- _].
Qed.

Lemma epoch_loop_empty_validation tr tc vcs ua nq rate es :
  ∀ st w r w' ev,
  epoch_loop tr [] tc vcs ua nq rate es st w = (r, w', ev) →
  Forall (λ e, ¬ save_event e) ev.
Proof.
  induction es as [|e es IH]; intros st w r w' ev.
  { intros [= <- <- <-]. constructor. }
  cbn [epoch_loop]. intros H.
  assert (Hhead : ∀ rh wh eh,
    run_epoch tr [] tc vcs ua nq rate e st w = (rh, wh, eh) →
    Forall (λ e, ¬ save_event e) eh).
  { intros rh wh eh Hep%run_epoch_candidate.
    destruct (epoch_candidate _ _ _ _ _ _ w) as [[v cp]|] eqn:Hc;
      [|by destruct Hep].
    apply epoch_candidate_empty_validation in Hc as ->.
    by destruct Hep as (ev0 & ratio' & H0 & _ & ->). }
  apply bind_inv in H
    as [(st' & w1 & e1 & e2 & Hrun & Hrest & ->)|(x & Hrun & ->)].
  - apply Forall_app. split; [by eapply Hhead | by eapply IH].
  - by eapply Hhead.
Qed.

(** X15.  With an empty validation loader, [fit] never saves a checkpoint,
    however many epochs it runs and whatever the training losses are: the
    mean of no validation loss is NaN, which is below nothing, and the saved
    file is left as it was. *)
Theorem fit_never_saves_without_validation_batches
    epochs tr dropped tc vcs ratio ua nq rate w r w' ev :
  fit epochs (tr, []) dropped tc vcs ratio ua nq rate w = (r, w', ev) →
  (∀ n cp, ¬ In (EvSave n cp) ev) ∧ model_file w' = model_file w.
Proof.
  intros Hfit.
  assert (Hno : Forall (λ e, ¬ save_event e) ev).
  { unfold fit in Hfit. apply bind_inv in Hfit
      as [(u & w0 & e0 & e1 & Hfirst & Hfit & ->)|(x & Hfirst & ->)].
    2:{ apply first_sample_inv in Hfirst as [_ ->]. constructor. }
    apply first_sample_inv in Hfirst as [-> ->]. cbn [app].
    apply bind_inv in Hfit
      as [(st' & w1 & e2 & e3 & Hloop & [= <- <- <-] & ->)|(x & Hloop & ->)].
    - rewrite app_nil_r. by eapply epoch_loop_empty_validation.
    - by eapply epoch_loop_empty_validation. }
  split.
  - intros n cp Hin. rewrite Forall_forall in Hno. by eapply Hno.
  - apply (fit_sat_all
             (λ w w' ev, model_file w' = last_save (model_file w) ev))
      in Hfit; [|apply fit_keeps_file].
    rewrite Hfit. clear Hfit. generalize (model_file w).
    induction Hno as [|a ev Ha Hno IH]; intros init; [done|].
    cbn. rewrite <- IH. f_equal. by destruct a.
Qed.

End ValidationFrame.

Section ValidationExamples.
#[local] Existing Instance ext_plus.

Lemma validation_changes_nothing_witness :
  ∃ w' ev,
    same_training_state w_plus w' ∧ Forall (λ e, ¬ update_event e) ev.
Proof.
  eexists _, _.
  eapply (validation_changes_nothing (ext := ext_plus)
            [([[[7%R]]], [[[2%R]]])] false false
            [sum_criterion sq_err; mean_criterion sq_err] w_plus).
  unfold validation, val_pass. run_model. reflexivity.
Defined.

(** Two epochs over ten training batches, with a validation loader that
    yields no batch. *)
Lemma fit_never_saves_without_validation_batches_witness :
  ∃ w' ev,
    fit 2 (unit_loader 10, []) 0 (sum_criterion sq_err)
      [sum_criterion sq_err] 0 false false 1 w_plus = (Ok tt, w', ev) ∧
    (∀ n cp, ¬ In (EvSave n cp) ev) ∧ model_file w' = model_file w_plus.
Proof.
  destruct (fit_runs (ext := ext_plus) 2 (unit_loader 10) [] 0
              (sum_criterion sq_err) [sum_criterion sq_err] 0 false false 1
              w_plus ext_plus_shape_preserving
              (unit_loader_runnable false 10 eq_refl)
              (Forall_nil _)
              ltac:(intros w data tf _; apply counting_update_returns)
              ltac:(right; cbn; lia) ltac:(done))
    as (w' & ev & Hrun).
  exists w', ev. split; [exact Hrun|].
  exact (fit_never_saves_without_validation_batches (ext := ext_plus)
           _ _ _ _ _ _ _ _ _ _ _ _ _ Hrun).
Defined.

End ValidationExamples.

Section CheckpointExamples.
#[local] Existing Instance ext_warmup.

(** An epoch of ten training batches and one validation batch, with one
    scheduler: the checkpoint holds the parameters after the ten updates
    of the training pass, and the optimizer states after these ten updates
    and the step of the scheduler. *)
Lemma checkpoint_holds_the_validated_model_witness :
  let cp := Checkpoint (ext := ext_warmup) 10 10 11 11 in
  ∃ r w' ev,
    run_epoch (unit_loader 10) (unit_loader 1) (sum_criterion sq_err)
      [sum_criterion sq_err] false false 1 0 (FitState 1 PosInf) w_warmup
    = (r, w', ev) ∧
    In (EvSave 0 cp) ev ∧
    ∃ losses w1 e1,
      train_loop (unit_loader 10) (sum_criterion sq_err) false false 0
        (unit_loader 10) [] w_warmup = (Ok losses, w1, e1) ∧
      0 = 0 ∧
      encoder_state_dict cp = enc_params w1 ∧
      decoder_state_dict cp = dec_params w1 ∧
      (schedulers w', optimizerA_state_dict cp, optimizerB_state_dict cp)
        = step_all (schedulers w1) (enc_opt w1) (dec_opt w1) ∧
      model_file w' = Some cp.
Proof.
  intros cp.
  assert (Hrun : ∃ r w' ev,
    run_epoch (unit_loader 10) (unit_loader 1) (sum_criterion sq_err)
      [sum_criterion sq_err] false false 1 0 (FitState 1 PosInf) w_warmup
    = (r, w', ev) ∧ In (EvSave 0 cp) ev).
  { eexists _, _, _. split.
    - unfold run_epoch, unit_loader, train_loop, val_pass, validation.
      run_model. reflexivity.
    - cbn. tauto. }
  destruct Hrun as (r & w' & ev & Hrun & Hin).
  exists r, w', ev. split; [exact Hrun|]. split; [exact Hin|].
  exact (checkpoint_holds_the_validated_model (ext := ext_warmup)
           _ _ _ _ _ _ _ _ _ _ _ _ _ _ _ Hrun Hin).
Defined.

End CheckpointExamples.

(** ** The passes of an epoch *)

Section Passes.
Context {ext : Externals}.

Lemma loss_batch_logs_nothing data opts crit ratio ua nq ab w r w' ev :
  loss_batch data opts crit ratio ua nq ab w = (r, w', ev) →
  logged_batches ev = [].
Proof.
  intros H%loss_batch_events. induction H as [|e ev He _ IH]; [done|].
  unfold logged_batches in *. cbn. rewrite IH. by destruct e.
Qed.

Lemma train_loop_logs tr tc ua nq bs :
  ∀ i losses w l w' ev,
  train_loop tr tc ua nq i bs losses w = (Ok l, w', ev) →
  length l = length losses + length bs ∧
  logged_batches ev =
    filter (λ j, j mod (length tr / 10) = 0) (seq i (length bs)) ∧
  encoder_calls ev = batch_inputs bs.
Proof.
  induction bs as [|data bs IH]; intros i losses w l w' ev.
  { intros [= <- <- <-]. split; [cbn; lia|done]. }
  cbn [train_loop]. unfold bind.
  destruct (loss_batch _ _ _ _ _ _ _ w) as [[[loss|x] w1] e1] eqn:Hcall;
    [|done].
  pose proof (loss_batch_logs_nothing _ _ _ _ _ _ _ _ _ _ _ Hcall) as Hlog1.
  destruct data as [input target].
  destruct (loss_batch_encoder_first _ _ _ _ _ _ _ _ _ _ _ _ Hcall)
    as (rest1 & -> & Hrest1).
  destruct (length tr / 10 =? 0); [done|].
  assert (Hemit : ∃ w2 elog,
    (if i mod (length tr / 10) =? 0 then emit (EvInfoBatch i loss)
     else ret ()) w1 = (Ok tt, w2, elog) ∧ w2 = w1 ∧
    logged_batches elog =
      (if decide (i mod (length tr / 10) = 0) then [i] else []) ∧
    encoder_calls elog = []).
  { destruct (Nat.eqb_spec (i mod (length tr / 10)) 0) as [Heq|Hne].
    - rewrite decide_True by done. by eexists _, _.
    - rewrite decide_False by done. by eexists _, _. }
  destruct Hemit as (w2 & elog & -> & -> & Hlog & Henc).
  destruct (train_loop _ _ _ _ _ _ _ w1) as [[rl w3] e3] eqn:Hrest.
  intros [= -> <- <-].
  destruct (IH _ _ _ _ _ _ Hrest) as (Hlen & Hlogs & Hcalls).
  split; [|split].
  - rewrite Hlen, length_app. cbn. lia.
  - change (EvEncoder (permute102 input) :: rest1)
      with ([EvEncoder (permute102 input)] ++ rest1) in Hlog1.
    change (EvEncoder (permute102 input) :: rest1 ++ elog ++ e3)
      with (([EvEncoder (permute102 input)] ++ rest1) ++ elog ++ e3).
    unfold logged_batches in *.
    rewrite !(omap_app _ _ (elog ++ e3)), (omap_app _ elog), Hlog1, Hlog, Hlogs.
    cbn [app seq length].
    rewrite filter_cons. by destruct (decide _).
  - change (EvEncoder (permute102 input) :: rest1 ++ elog ++ e3)
      with ([EvEncoder (permute102 input)] ++ rest1 ++ elog ++ e3).
    unfold encoder_calls in *.
    rewrite !omap_app, Hrest1, Henc, Hcalls. done.
Qed.

(** X16.  A training pass that completes has called [loss_batch] for every
    batch of the loader, and has logged its progress after the batches
    whose index is a multiple of the tenth, rounded down, of the number of
    batches, and after no other batch. *)
Theorem progress_is_logged_every_tenth tr tc ua nq w losses w' ev :
  train_loop tr tc ua nq 0 tr [] w = (Ok losses, w', ev) →
  length losses = length tr ∧
  logged_batches ev =
    filter (λ j, j mod (length tr / 10) = 0) (seq 0 (length tr)).
Proof.
  intros H. destruct (train_loop_logs _ _ _ _ _ _ _ _ _ _ _ H) as (Hl & Hlog & _).
  done.
Qed.

Lemma val_pass_calls ua nq vc bs :
  ∀ w l w' ev,
  val_pass ua nq vc bs w = (Ok l, w', ev) →
  encoder_calls ev = batch_inputs bs ∧ (in_eval_mode w ∨ bs ≠ [] → in_eval_mode w').
Proof.
  induction bs as [|data bs IH]; intros w l w' ev.
  { intros [= <- <- <-]. split; [done|]. by intros [?|?]. }
  cbn [val_pass]. unfold bind.
  destruct (loss_batch _ _ _ _ _ _ _ w) as [[[loss|x] w1] e1] eqn:Hcall;
    [|done].
  destruct data as [input target].
  destruct (loss_batch_encoder_first _ _ _ _ _ _ _ _ _ _ _ _ Hcall)
    as (rest1 & -> & Hrest1).
  apply loss_batch_modes in Hcall.
  destruct (val_pass _ _ _ _ w1) as [[[rest|x] w2] e2] eqn:Hrest; [|done].
  intros [= <- <- <-]. destruct (IH _ _ _ _ Hrest) as [Hcalls Hmode].
  split; [|intros _; apply Hmode; by left].
  rewrite app_nil_r.
  change (EvEncoder (permute102 input) :: rest1 ++ e2)
    with ([EvEncoder (permute102 input)] ++ rest1 ++ e2).
  unfold encoder_calls in *.
  rewrite !omap_app, Hrest1, Hcalls. done.
Qed.

Lemma validation_calls val ua nq vcs :
  ∀ w vl w' ev,
  validation val ua nq vcs w = (Ok vl, w', ev) →
  encoder_calls ev = concat (replicate (length vcs) (batch_inputs val)) ∧
  (in_eval_mode w ∨ (vcs ≠ [] ∧ val ≠ []) → in_eval_mode w').
Proof.
  induction vcs as [|vc vcs IH]; intros w vl w' ev.
  { intros [= <- <- <-]. split; [done|]. by intros [?|[? _]]. }
  cbn [validation]. unfold bind.
  destruct (val_pass _ _ _ _ w) as [[[l|x] w1] e1] eqn:Hpass; [|done].
  destruct (validation _ _ _ _ w1) as [[[rest|x] w2] e2] eqn:Hrest; [|done].
  intros [= <- <- <-].
  destruct (val_pass_calls _ _ _ _ _ _ _ _ Hpass) as [Hc1 Hm1].
  destruct (IH _ _ _ _ Hrest) as [Hc2 Hm2].
  split.
  - unfold encoder_calls in *. rewrite !omap_app, Hc1, Hc2. cbn.
    by rewrite app_nil_r.
  - intros Hw. apply Hm2. left. apply Hm1. destruct Hw as [?|[_ ?]]; auto.
Qed.

Lemma run_epoch_calls tr val tc vcs ua nq rate e st w st' w' ev :
  run_epoch tr val tc vcs ua nq rate e st w = (Ok st', w', ev) →
  encoder_calls ev =
    batch_inputs tr ++ concat (replicate (length vcs) (batch_inputs val)) ∧
  (vcs ≠ [] → val ≠ [] → in_eval_mode w').
Proof.
  unfold run_epoch, bind.
  destruct (train_loop _ _ _ _ _ _ _ w) as [[[losses|x] w1] e1] eqn:Htr;
    [|done].
  destruct (train_loop_logs _ _ _ _ _ _ _ _ _ _ _ Htr) as (_ & _ & Hc1).
  destruct (validation _ _ _ _ w1) as [[[vl|x] w2] e2] eqn:Hval; [|done].
  destruct (validation_calls _ _ _ _ _ _ _ _ Hval) as [Hc2 Hm2].
  unfold step_schedulers. destruct (step_all _ _ _) as [[ss oA] oB].
  unfold emit, index.
  destruct (vl !! 0) as [v0|]; [|done]. cbn.
  destruct (xltb v0 (min_val_loss st)); cbn; intros [= <- <- <-].
  - split.
    + unfold encoder_calls in *. rewrite !omap_app, Hc1, Hc2. cbn.
      by rewrite app_nil_r.
    + intros Hv Hb. destruct Hm2 as [Hm Hm']; [by right|]. by split.
  - split.
    + unfold encoder_calls in *. rewrite !omap_app, Hc1, Hc2. cbn.
      by rewrite app_nil_r.
    + intros Hv Hb. destruct Hm2 as [Hm Hm']; [by right|]. by split.
Qed.

Lemma epoch_loop_calls tr val tc vcs ua nq rate es :
  ∀ st w st' w' ev,
  epoch_loop tr val tc vcs ua nq rate es st w = (Ok st', w', ev) →
  encoder_calls ev =
    concat (replicate (length es)
              (batch_inputs tr
               ++ concat (replicate (length vcs) (batch_inputs val)))) ∧
  (es ≠ [] → vcs ≠ [] → val ≠ [] → in_eval_mode w').
Proof.
  induction es as [|e es IH]; intros st w st' w' ev.
  { intros [= <- <- <-]. split; [done|]. by intros. }
  cbn [epoch_loop]. unfold bind.
  destruct (run_epoch _ _ _ _ _ _ _ _ _ w) as [[[st1|x] w1] e1] eqn:Hrun;
    [|done].
  destruct (epoch_loop _ _ _ _ _ _ _ _ _ w1) as [[r2 w2] e2] eqn:Hrest.
  intros [= -> <- <-].
  destruct (run_epoch_calls _ _ _ _ _ _ _ _ _ _ _ _ _ Hrun) as [Hc1 Hm1].
  destruct (IH _ _ _ _ _ Hrest) as [Hc2 Hm2].
  split.
  - unfold encoder_calls in *. rewrite omap_app, Hc1, Hc2. done.
  - intros _ Hv Hb. destruct es as [|e' es]; [|by apply Hm2].
    injection Hrest as <- <- <-. by apply Hm1.
Qed.

Lemma fit_loop epochs tr val dropped tc vcs ratio ua nq rate w w' ev :
  fit epochs (tr, val) dropped tc vcs ratio ua nq rate w = (Ok tt, w', ev) →
  ∃ st',
    epoch_loop tr val tc vcs ua nq rate (seq 0 epochs)
      (FitState ratio PosInf) w = (Ok st', w', ev).
Proof.
  unfold fit. intros Hfit. apply bind_inv in Hfit
    as [(u & w0 & e0 & e1 & Hfirst & Hfit & ->)|(x & _ & [=])].
  apply first_sample_inv in Hfirst as [-> ->]. cbn [app].
  apply bind_inv in Hfit
    as [(st' & w1 & e2 & e3 & Hloop & [= <- <-] & ->)|(x & _ & [=])].
  rewrite app_nil_r. by exists st'.
Qed.

(** X17.  A run of [fit] that returns has called [loss_batch], epoch after
    epoch, once for every training batch in the order of the training
    loader and then, for each validation criterion in turn, once for every
    validation batch in the order of the validation loader, and for nothing
    else: the encoder inputs of the run are exactly these, in this order. *)
Theorem fit_makes_full_passes
    epochs tr val dropped tc vcs ratio ua nq rate w w' ev :
  fit epochs (tr, val) dropped tc vcs ratio ua nq rate w = (Ok tt, w', ev) →
  encoder_calls ev =
    concat (replicate epochs
              (batch_inputs tr
               ++ concat (replicate (length vcs) (batch_inputs val)))).
Proof.
  intros [st' Hloop]%fit_loop.
  destruct (epoch_loop_calls _ _ _ _ _ _ _ _ _ _ _ _ _ Hloop) as [Hc _].
  by rewrite length_seq in Hc.
Qed.

(** X18.  When [fit] returns after at least one epoch, with a validation
    loader that has a batch and at least one validation criterion, it
    leaves the encoder and the decoder in evaluation mode. *)
Theorem fit_leaves_evaluation_mode
    epochs tr val dropped tc vcs ratio ua nq rate w w' ev :
  fit epochs (tr, val) dropped tc vcs ratio ua nq rate w = (Ok tt, w', ev) →
  0 < epochs → vcs ≠ [] → val ≠ [] →
  in_eval_mode w'.
Proof.
  intros [st' Hloop]%fit_loop Hep Hv Hb.
  destruct (epoch_loop_calls _ _ _ _ _ _ _ _ _ _ _ _ _ Hloop) as [_ Hm].
  apply Hm; try done. destruct epochs; [lia|]. by rewrite <- cons_seq.
Qed.

End Passes.

Section PassExamples.
#[local] Existing Instance ext_plus.

(** Twenty training batches: the progress is logged after every second
    one. *)
Lemma progress_is_logged_every_tenth_witness :
  ∃ losses w' ev,
    train_loop (unit_loader 20) (sum_criterion sq_err) false false 0
      (unit_loader 20) [] w_plus = (Ok losses, w', ev) ∧
    length losses = 20 ∧
    logged_batches ev = [0; 2; 4; 6; 8; 10; 12; 14; 16; 18].
Proof.
  destruct (train_loop_runs (ext := ext_plus) (unit_loader 20)
              (sum_criterion sq_err) false false (unit_loader 20)
              ext_plus_shape_preserving
              (unit_loader_runnable false 20 eq_refl)
              ltac:(intros w data tf _; apply counting_update_returns)
              ltac:(intros _; cbn; lia) 0 [] w_plus)
    as (losses & w' & ev & Hrun).
  exists losses, w', ev. split; [exact Hrun|].
  exact (progress_is_logged_every_tenth (ext := ext_plus) _ _ _ _ _ _ _ _
           Hrun).
Defined.

(** Two epochs over ten training batches and one validation batch, with
    two validation criteria. *)
Lemma fit_example_run :
  ∃ w' ev,
    fit 2 (unit_loader 10, unit_loader 1) 0 (sum_criterion sq_err)
      [sum_criterion sq_err; mean_criterion sq_err] 1 false false 1 w_plus
    = (Ok tt, w', ev).
Proof.
  apply (fit_runs (ext := ext_plus)).
  - apply ext_plus_shape_preserving.
  - by apply unit_loader_runnable.
  - by apply unit_loader_runnable.
  - intros w data tf _. apply counting_update_returns.
  - right. cbn. lia.
  - done.
Qed.

Lemma fit_makes_full_passes_witness :
  ∃ w' ev,
    fit 2 (unit_loader 10, unit_loader 1) 0 (sum_criterion sq_err)
      [sum_criterion sq_err; mean_criterion sq_err] 1 false false 1 w_plus
    = (Ok tt, w', ev) ∧
    encoder_calls ev = replicate 24 [[[7%R]]].
Proof.
  destruct fit_example_run as (w' & ev & Hrun).
  exists w', ev. split; [exact Hrun|].
  exact (fit_makes_full_passes (ext := ext_plus) _ _ _ _ _ _ _ _ _ _ _ _ _
           Hrun).
Defined.

Lemma fit_leaves_evaluation_mode_witness :
  ∃ w' ev,
    fit 2 (unit_loader 10, unit_loader 1) 0 (sum_criterion sq_err)
      [sum_criterion sq_err; mean_criterion sq_err] 1 false false 1 w_plus
    = (Ok tt, w', ev) ∧
    in_eval_mode w'.
Proof.
  destruct fit_example_run as (w' & ev & Hrun).
  exists w', ev. split; [exact Hrun|].
  apply (fit_leaves_evaluation_mode (ext := ext_plus) _ _ _ _ _ _ _ _ _ _ _ _
           _ Hrun); [lia|done|done].
Defined.

End PassExamples.
